(** * righthand: directive lexer, key-event synthesizer and listening loop

    A shallow embedding of the core of [tmc/righthand] (package [main]):
    - [keyTapPattern], [extractModifiersAndKeyFromMatch],
      [keyTapWithModifiers] and [simulateTyping], which replay a directive
      such as [{Command}+t] as literal typing and key taps;
    - [handleText], which builds the chat messages sent to the language model;
    - [runMainLoop], the listening state machine;
    - [handleEvents] and [manageListeningState], which turn the global key
      events into toggles of that machine;
    - the [filterWriter] in front of the log file;
    - [loadConfig], [saveConfig] and [main], which load the configuration
      and start the application.

    Go strings are byte sequences: they are modelled by [string], whose
    characters are the 256 values of [ascii].  Go [int] indices are modelled
    by [Z]; a string is far shorter than [2^63] bytes, so the additions of the
    source never wrap. *)

From Stdlib Require Import ZArith Lia Bool Ascii.
From stdpp Require Import base option list strings gmap.

Local Open Scope Z_scope.

(** [simpl] may unfold the concatenation of strings. *)
#[local] Arguments String.append !_ _ / : simpl nomatch.

(** * Part 1: the program *)

(** ** Strings as Go has them

    [len], the slice expressions and [strings.Split] are what the program
    uses; [Join] and [contains] are Go's [strings.Join] and
    [strings.ContainsRune], which the statements below use to write
    directives. *)

Module GoString.

(** [len(s)] *)
Definition len (s : string) : Z := Z.of_nat (String.length s).

(** The bytes of [s] from offset [n] on. *)
Fixpoint skip_bytes (n : nat) (s : string) : string :=
  match n, s with
  | O, _ => s
  | S n', String _ s' => skip_bytes n' s'
  | S _, EmptyString => EmptyString
  end.

(** The first [n] bytes of [s]. *)
Fixpoint first_bytes (n : nat) (s : string) : string :=
  match n, s with
  | O, _ => EmptyString
  | S n', String a s' => String a (first_bytes n' s')
  | S _, EmptyString => EmptyString
  end.

(** [s[lo:hi]]: a slice expression on a string panics (here: [None])
    unless [0 <= lo <= hi <= len(s)]. *)
Definition slice (s : string) (lo hi : Z) : option string :=
  if (0 <=? lo) && (lo <=? hi) && (hi <=? len s)
  then Some (first_bytes (Z.to_nat (hi - lo)) (skip_bytes (Z.to_nat lo) s))
  else None.

(** [s[lo:]] *)
Definition slice_from (s : string) (lo : Z) : option string :=
  slice s lo (len s).

(** [strings.Split(s, sep)] for a one-byte separator: the pieces between
    the occurrences of [sep]; always at least one piece. *)
Fixpoint Split (s : string) (sep : ascii) : list string :=
  match s with
  | EmptyString => [EmptyString]
  | String a s' =>
      if Ascii.eqb a sep then EmptyString :: Split s' sep
      else match Split s' sep with
           | piece :: pieces => String a piece :: pieces
           | [] => [String a EmptyString]
           end
  end.

(** [strings.Join(names, sep)] for a one-byte separator. *)
Fixpoint Join (names : list string) (sep : ascii) : string :=
  match names with
  | [] => EmptyString
  | [name] => name
  | name :: rest => name +:+ String sep (Join rest sep)
  end.

(** [strings.ContainsRune(s, c)] for a one-byte [c]: [c] occurs in [s]. *)
Fixpoint contains (c : ascii) (s : string) : bool :=
  match s with
  | EmptyString => false
  | String a s' => Ascii.eqb a c || contains c s'
  end.

End GoString.

(** ** Go's [regexp] package, as far as [keyTapPattern] needs it

    The package documents its matching as leftmost-first: the match "begins
    as early as possible in the input, and among those it chooses the one
    that a backtracking search would have found first".  [Regexp.exec] is
    that backtracking search, in continuation-passing style; a capture
    vector is Go's [[]int] of start and end offsets, [-1] for a group that
    took no part in the match.

    The matcher steps by bytes where Go steps by UTF-8 runes.  For
    [keyTapPattern] the spans are the same: every byte of a multi-byte rune
    is at least [0x80], belongs to the class [[^\}]] and to no other atom of
    the pattern. *)

Module Regexp.

Inductive regex : Type :=
| Lit (c : ascii)                                   (* a literal byte *)
| Class (negated : bool) (ranges : list (ascii * ascii))  (* [a-z...] or [^...] *)
| Cat (r1 r2 : regex)                               (* r1 r2 *)
| Star (r : regex)                                  (* r*, greedy *)
| Plus (r : regex)                                  (* r+, greedy *)
| Quest (r : regex)                                 (* r?, greedy *)
| Group (r : regex)                                 (* (?:r) *)
| Capture (i : nat) (r : regex).                    (* (r), the i-th group *)

Definition in_range (a : ascii) (range : ascii * ascii) : bool :=
  (nat_of_ascii (fst range) <=? nat_of_ascii a)%nat
  && (nat_of_ascii a <=? nat_of_ascii (snd range))%nat.

Definition in_class (negated : bool) (ranges : list (ascii * ascii)) (a : ascii) : bool :=
  xorb negated (existsb (in_range a) ranges).

(** A thread of the search: the offset reached, the input left from there
    and the capture vector. *)
Definition cont : Type := Z -> string -> list Z -> option (list Z).
Definition matcher : Type := Z -> string -> list Z -> cont -> option (list Z).

(** [r*], greedy: first the alternative that takes [body] once more, then
    the one that leaves the loop.  An iteration that consumes no input is
    not repeated; [n], the length of the input, bounds the number of
    iterations.  (No iteration of [keyTapPattern] can be empty.) *)
Fixpoint star (body : matcher) (n : nat) (pos : Z) (s : string) (cap : list Z)
    (k : cont) : option (list Z) :=
  match n with
  | O => k pos s cap
  | S n' =>
      match body pos s cap
              (fun pos' s' cap' =>
                 if (String.length s' <? String.length s)%nat
                 then star body n' pos' s' cap' k else None) with
      | Some m => Some m
      | None => k pos s cap
      end
  end.

(** The search for a match of [r] at offset [pos], where [s] is the input
    from [pos] on: [k] is what remains to be matched after [r]; the answer
    of the first thread that succeeds is the answer.  A capturing group
    records its offsets when the search leaves it. *)
Fixpoint exec (r : regex) (pos : Z) (s : string) (cap : list Z) (k : cont)
    : option (list Z) :=
  match r with
  | Lit c =>
      match s with
      | String a s' => if Ascii.eqb a c then k (pos + 1) s' cap else None
      | EmptyString => None
      end
  | Class negated ranges =>
      match s with
      | String a s' => if in_class negated ranges a then k (pos + 1) s' cap else None
      | EmptyString => None
      end
  | Cat r1 r2 => exec r1 pos s cap (fun pos' s' cap' => exec r2 pos' s' cap' k)
  | Star r' => star (exec r') (String.length s) pos s cap k
  | Plus r' =>
      exec r' pos s cap
        (fun pos' s' cap' => star (exec r') (String.length s') pos' s' cap' k)
  | Quest r' =>
      match exec r' pos s cap k with
      | Some m => Some m
      | None => k pos s cap
      end
  | Group r' => exec r' pos s cap k
  | Capture i r' =>
      exec r' pos s cap
        (fun pos' s' cap' =>
           k pos' s' (<[(2 * i + 1)%nat := pos']> (<[(2 * i)%nat := pos]> cap')))
  end.

(** A compiled pattern: the expression and its number of capturing groups. *)
Record Regexp : Type := MustCompile { expr : regex; NumSubexp : nat }.

(** The match that starts at offset [pos], where [s] is the input from
    [pos] on; group 0 is the whole match. *)
Definition match_at (re : Regexp) (pos : Z) (s : string) : option (list Z) :=
  exec (Capture 0 (expr re)) pos s (replicate (2 * (NumSubexp re + 1)) (-1))
    (fun _ _ cap => Some cap).

(** The leftmost match at or after offset [pos]. *)
Fixpoint search (re : Regexp) (pos : Z) (s : string) : option (list Z) :=
  match match_at re pos s with
  | Some m => Some m
  | None =>
      match s with
      | String _ s' => search re (pos + 1) s'
      | EmptyString => None
      end
  end.

(** The loop of the method [allMatches] of Go: at most [n] successive matches,
    each searched from the end of the one before.  An empty match is not
    delivered right after the previous match, and the search resumes one
    byte further (Go: one rune further, and without counting the match in
    [n]; a match of [keyTapPattern] is never empty, see [scan_Some]). *)
Fixpoint allMatches (re : Regexp) (text : string) (n : nat) (pos prevMatchEnd : Z)
    : list (list Z) :=
  match n with
  | O => []
  | S n' =>
      if pos <=? GoString.len text then
        match search re pos (GoString.skip_bytes (Z.to_nat pos) text) with
        | None => []
        | Some m =>
            let m0 := m !!! 0%nat in
            let m1 := m !!! 1%nat in
            if m1 =? pos then
              if m0 =? prevMatchEnd
              then allMatches re text n' (pos + 1) m1
              else m :: allMatches re text n' (pos + 1) m1
            else m :: allMatches re text n' m1 m1
        end
      else []
  end.

(** [re.FindAllStringSubmatchIndex(text, -1)]: a negative count stands for
    [len(text) + 1]. *)
Definition FindAllStringSubmatchIndex (re : Regexp) (text : string) : list (list Z) :=
  allMatches re text (S (String.length text)) 0 (-1).

End Regexp.

Import Regexp.

(** ** The directive lexer *)

(** [regexp.MustCompile(`\{((?:[^\}]+\+)*[^\}]+)\}(?:\+([A-Za-z1-9]+))?(?:[ ;])?`)] *)
Definition keyTapPattern : Regexp :=
  MustCompile
    (Cat (Lit "{")
    (Cat (Capture 1
            (Cat (Star (Group (Cat (Plus (Class true [("}", "}")])) (Lit "+"))))
                 (Plus (Class true [("}", "}")]))))
    (Cat (Lit "}")
    (Cat (Quest (Group (Cat (Lit "+")
                   (Capture 2 (Plus (Class false [("A", "Z"); ("a", "z"); ("1", "9")]))))))
         (Quest (Group (Class false [(" ", " "); (";", ";")])))))))%char
    2.

(** ** Configuration and chat messages *)

(** FewShotExample is a few-shot example. *)
Record FewShotExample : Type := { Input : string; Output : string }.

(** ProgramFewShotExamples is a program with a list of few-shot examples. *)
Record ProgramFewShotExamples : Type :=
  { Program : string; Examples : list FewShotExample }.

(** RightHandConfig is the configuration file for RightHand. *)
Record RightHandConfig : Type :=
  { LLMModel : string;
    WhisperModel : string;
    Programs : list ProgramFewShotExamples;
    DumpWAVFile : bool }.

(** The three kinds of [schema.ChatMessage] the program builds. *)
Inductive ChatMessage : Type :=
| SystemChatMessage (Text : string)
| HumanChatMessage (Text : string)
| AIChatMessage (Text : string).

(** An [error] value, by its message. *)
Definition error : Type := string.

(** An argument of a formatting function. *)
Inductive any : Type :=
| Str (s : string)
| Int (n : Z)
| Err (e : error).

Definition defaultConfig : RightHandConfig :=
  {| LLMModel := "gpt-4";
     WhisperModel := "base.en";
     Programs :=
       [ {| Program := "iTerm2";
            Examples :=
              [ {| Input := "change to my home directory"; Output := "cd ~" |};
                {| Input := "new tab"; Output := "{Command}+t" |};
                {| Input := "Interactively rebase the last 3 commits";
                   Output := "git rebase -i HEAD~3" |};
                {| Input := "split horizontally"; Output := "{Command+Shift}+d" |} ] |};
         {| Program := "Google Chrome";
            Examples :=
              [ {| Input := "Visit CNN.com and a new tab.";
                   Output := "{Command}+t
https://cnn.com{Enter}" |} ] |} ];
     DumpWAVFile := false |}.

(** ** Effects of a dispatch

    What [handleText] and [simulateTyping] do to the outside world, in
    order: lines on standard output and standard error, log lines, the call
    of the language model and the calls of the [robotgo] input injector.
    A run ends normally with a value, or in a run-time panic (an index or a
    slice bound out of range); what was emitted before a panic stays
    emitted. *)

Inductive event : Type :=
| Printf (format : string) (args : list any)      (* fmt.Printf(format, args...) *)
| Fprintln (args : list any)                      (* fmt.Fprintln(os.Stderr, args...) *)
| LogPrintf (format : string) (args : list any)   (* log.Printf(format, args...) *)
| Call (messages : list ChatMessage)              (* app.llm.Call(ctx, messages) *)
| TypeStr (str : string)                          (* robotgo.TypeStr(str) *)
| KeyTap (key : string) (modifiers : list string) (* robotgo.KeyTap(key, modifiers...) *)
| KeySleep (ms : Z)                               (* robotgo.KeySleep = ms *)
| Sleep (ms : Z).                                 (* time.Sleep(ms * time.Millisecond) *)

Record run (A : Type) : Type := Run { trace : list event; result : option A }.
Arguments Run {A} trace result.
Arguments trace {A} r.
Arguments result {A} r.

Definition panic {A} : run A := Run [] None.
Definition emit (e : event) : run unit := Run [e] (Some tt).
Definition lift {A} (o : option A) : run A := Run [] o.

#[global] Instance run_ret : MRet run := fun A a => Run [] (Some a).
#[global] Instance run_bind : MBind run := fun A B f m =>
  match result m with
  | Some a => Run (trace m ++ trace (f a)) (result (f a))
  | None => Run (trace m) None
  end.

(** [l[i]]: indexing panics out of range. *)
Definition index {A} (l : list A) (i : Z) : run A :=
  if 0 <=? i then lift (l !! Z.to_nat i) else panic.

(** The operations the input injector receives, the [KeyOperation]s of the
    specification: the [robotgo] calls among the events. *)
Inductive KeyOperation : Type :=
| TypeLiteral (text : string)
| PressCombo (modifiers : list string) (keyName : string).

Fixpoint operations (events : list event) : list KeyOperation :=
  match events with
  | [] => []
  | TypeStr str :: rest => TypeLiteral str :: operations rest
  | KeyTap key modifiers :: rest => PressCombo modifiers key :: operations rest
  | _ :: rest => operations rest
  end.

(** The message sequences passed to [app.llm.Call], in order. *)
Fixpoint calls (events : list event) : list (list ChatMessage) :=
  match events with
  | [] => []
  | Call messages :: rest => messages :: calls rest
  | _ :: rest => calls rest
  end.

(** ** The key-event synthesizer *)

(** Helper function to simulate key tapping with given modifiers and key *)
Definition keyTapWithModifiers (modifiers : list string) (key : string) : run unit :=
  emit (KeySleep 100) ;;
  emit (KeyTap key modifiers) ;;
  emit (KeyTap "shift" []) ;;      (* undo modifiers *)
  emit (Sleep 100).

(** Map of modifiers to their representation for robotgo *)
Definition modifierMap : gmap string string :=
  <["Command" := "command"]> (
  <["Shift" := "shift"]> (
  <["Option" := "alt"]> (
  <["Control" := "ctrl"]> (
  <["Tab" := "tab"]> (
  <["Enter" := "enter"]> ∅))))).

(** [for _, modifier := range modifierKeys { ... }] *)
Fixpoint range_modifierKeys (modifierKeys : list string) (modifiers : list string)
    : run (list string) :=
  match modifierKeys with
  | [] => mret modifiers
  | modifier :: rest =>
      match modifierMap !! modifier with
      | None =>
          emit (LogPrintf "Unknown modifier: %s" [Str modifier]) ;;
          range_modifierKeys rest modifiers
      | Some modifierKey => range_modifierKeys rest (modifiers ++ [modifierKey])
      end
  end.

Definition extractModifiersAndKeyFromMatch (text : string) (match_ : list Z)
    : run (list string * string) :=
  (* Extract the modifier keys *)
  m2 ← index match_ 2; m3 ← index match_ 3;
  group ← lift (GoString.slice text m2 m3);
  let modifierKeys := GoString.Split group "+" in
  let modifiers := [] in
  (* see if we have a key (check index 4) *)
  m4 ← index match_ 4;
  '(key, modifierKeys) ←
    (if negb (m4 =? -1) then
       m5 ← index match_ 5;
       key ← lift (GoString.slice text m4 m5);
       mret (key, modifierKeys)
     else
       name ← index modifierKeys (Z.of_nat (length modifierKeys) - 1);
       (* Remove the last element (the key) *)
       mret (default "" (modifierMap !! name),
            take (Z.to_nat (Z.of_nat (length modifierKeys) - 1)) modifierKeys));
  modifiers ← range_modifierKeys modifierKeys modifiers;
  mret (modifiers, key).

(** [for _, match := range matches { ... }]; the value is the final
    [lastIndex]. *)
Fixpoint range_matches (text : string) (matches : list (list Z)) (lastIndex : Z)
    : run Z :=
  match matches with
  | [] => mret lastIndex
  | match_ :: rest =>
      m0 ← index match_ 0;
      (* Type the text before the match as normal *)
      (if negb (lastIndex =? m0) then
         before ← lift (GoString.slice text lastIndex m0);
         emit (Fprintln [Str "righthand: typing text:"; Str before]) ;;
         emit (TypeStr before)
       else mret tt) ;;
      m1 ← index match_ 1;
      (* Update lastIndex, adding 1 to ignore the trailing space *)
      let lastIndex := m1 + 1 in
      '(modifiers, key) ← extractModifiersAndKeyFromMatch text match_;
      (* Simulate key press *)
      keyTapWithModifiers modifiers key ;;
      range_matches text rest lastIndex
  end.

Definition simulateTyping (text : string) : run unit :=
  let matches := FindAllStringSubmatchIndex keyTapPattern text in
  lastIndex ← range_matches text matches 0;
  (* Type the rest of the text after the last match *)
  if lastIndex <? GoString.len text then
    remainder ← lift (GoString.slice_from text lastIndex);
    emit (Fprintln [Str "righthand: typing remainder of text:"; Str remainder]) ;;
    emit (Sleep 100) ;;
    emit (TypeStr remainder)
  else mret tt.

(** ** The command dispatcher *)

(** [fmt.Sprintf(format, args...)] for the verb [%v] applied to strings, the
    only use the program makes of it. *)
Fixpoint Sprintf (format : string) (args : list string) : string :=
  match format with
  | String "%" (String "v" format') =>
      match args with
      | arg :: args' => arg +:+ Sprintf format' args'
      | [] => "%!v(MISSING)" +:+ Sprintf format' []
      end
  | String a format' => String a (Sprintf format' args)
  | EmptyString => EmptyString
  end.

Definition systemPrompt : string :=
"You are an AI assistant that interprets transcribed voice input
and translates it into commands or text inputs for various applications. 

Your current active program is %v. Adjust your interpretation based on this context.

When interpreting commands, please indicate modifier keys such as Command, Option, Shift, 
or Control using curly braces. For instance, use '{Command}+t' for opening a new tab.

When outputting a command with a modifier key, use Shift as a modifier instead of including an uppercase character.

Your output will be used as keyboard input for the active application.
Return the input exactly as provided if you aren't confident in your answer.".

(** [for _, example := range prog.Examples { ... }] *)
Definition range_Examples (examples : list FewShotExample) (messages : list ChatMessage)
    : list ChatMessage :=
  foldl (fun messages example =>
           (messages ++ [HumanChatMessage (Input example)])
             ++ [AIChatMessage (Output example)])
        messages examples.

(** [for _, prog := range app.cfg.Programs { ... }], on the pair of
    [messages] and [nExamples]. *)
Definition range_Programs (programs : list ProgramFewShotExamples) (activeApp : string)
    (messages : list ChatMessage) (nExamples : Z) : list ChatMessage * Z :=
  foldl (fun '(messages, nExamples) prog =>
           if negb (String.eqb (Program prog) activeApp) then (messages, nExamples)
           else (range_Examples (Examples prog) messages,
                 Z.of_nat (length (Examples prog))))
        (messages, nExamples) programs.

(** handleText handles text.  [activeApp] is the localized name of the
    frontmost application and [reply] what [app.llm.Call] returns for the
    messages. *)
Definition handleText (cfg : RightHandConfig) (activeApp : string)
    (reply : list ChatMessage -> string + error) (text : string) : run unit :=
  emit (Printf "📱 Active app: %s
" [Str activeApp]) ;;
  let messages := [SystemChatMessage (Sprintf systemPrompt [activeApp])] in
  (* check for few-shot examples for the active app from the config: *)
  let '(messages, nExamples) := range_Programs (Programs cfg) activeApp messages 0 in
  (if 0 <? nExamples
   then emit (Printf "ℹ️  Using %d custom commands for %s
" [Int nExamples; Str activeApp])
   else mret tt) ;;
  (* append the human message: *)
  let messages := messages ++ [HumanChatMessage text] in
  emit (Call messages) ;;
  match reply messages with
  | inr err => emit (LogPrintf "❌ Error processing command: %v" [Err err])
  | inl llmText =>
      emit (Printf "🤖 Executing: %s
" [Str llmText]) ;;
      simulateTyping llmText
  end.

(** ** The listening loop

    [runMainLoop] is a [for] around a [select] with a [default] case.  One
    iteration is the function [loop_body] of the loop variables and of what
    the outside world presents to that iteration ([world]): the clock, a
    toggle sent by [manageListeningState], the cancellation of the context,
    the case the runtime picks among the ready ones, and the results of the
    calls to the audio engine.  Times are in nanoseconds, the unit of
    [time.Duration]. *)

(** [time.Second] *)
Definition Second : Z := 1000000000.

(** DefaultTimeout is the default timeout for listening. *)
Definition DefaultTimeout : Z := 30 * Second.

Section MainLoop.

(** A sample of audio; the loop only stores samples. *)
Context {float32 : Type}.

(** The loop variables, and the channel [app.listeningToggle]
    ([make(chan struct{}, 1)]: at most one value waits in it).
    [listeningTimeout] is the channel of [time.After]: [Some t] delivers
    one value once the clock reaches [t]; [None] is a channel that never
    delivers, either [nil] or one whose value was received. *)
Record loop_state : Type := LoopState {
  listening : bool;
  listeningTimeout : option Z;
  audioBuffer : list float32;
  listeningToggle : bool
}.

(** The variables as declared: [false], [nil], [nil], and an empty channel. *)
Definition loop_init : loop_state := LoopState false None [] false.

Record world : Type := World {
  now : Z;                    (* the clock during this iteration *)
  hotkey : bool;              (* manageListeningState sends a toggle *)
  ctx_done : bool;            (* ctx.Done() is closed *)
  choice : nat;               (* the pick of the runtime among ready cases *)
  Start : option error;       (* app.wa.Start() *)
  Stop : option error;        (* app.wa.Stop() *)
  Transcribe : list float32 -> string * option error;   (* app.wa.Transcribe *)
  CollectAudioData : list float32 * option error        (* app.wa.CollectAudioData *)
}.

Inductive loop_event : Type :=
| Println (line : string)
| LoopPrintf (format : string) (args : list any)
| LoopLogPrintf (format : string) (args : list any)
| wa_Start
| wa_Stop
| go_SaveWAV (name : string) (samples : list float32)
| wa_Transcribe (samples : list float32)
| go_handleText (text : string)
| wa_CollectAudioData (d : Z).

Inductive select_case : Type :=
| case_listeningToggle     (* case <-app.listeningToggle: *)
| case_listeningTimeout    (* case <-listeningTimeout: *)
| case_Done                (* case <-ctx.Done(): *)
| case_default.            (* default: *)

Inductive outcome : Type :=
| Continue (s : loop_state)   (* the next iteration starts in [s] *)
| Return                      (* the function returned *)
| Blocked.                    (* a send that no goroutine will ever receive *)

(** A send of [manageListeningState] goes through when the channel has
    room; otherwise the sender waits for a later iteration. *)
Definition deliver_hotkey (s : loop_state) (w : world) : loop_state :=
  if hotkey w && negb (listeningToggle s)
  then LoopState (listening s) (listeningTimeout s) (audioBuffer s) true
  else s.

(** The communications that can proceed. *)
Definition ready (s : loop_state) (w : world) : list select_case :=
  (if listeningToggle s then [case_listeningToggle] else [])
  ++ (match listeningTimeout s with
      | Some t => if t <=? now w then [case_listeningTimeout] else []
      | None => []
      end)
  ++ (if ctx_done w then [case_Done] else []).

(** [select]: one of the ready cases, picked by the runtime; the
    [default] case when none is ready. *)
Definition select (s : loop_state) (w : world) : select_case :=
  match ready s w with
  | [] => case_default
  | c :: cs => nth (choice w mod length (c :: cs)) (c :: cs) c
  end.

Definition log_error (format : string) (err : option error) : list loop_event :=
  match err with
  | Some e => [LoopLogPrintf format [Err e]]
  | None => []
  end.

Definition loop_body (cfg : RightHandConfig) (s0 : loop_state) (w : world)
    : list loop_event * outcome :=
  let s := deliver_hotkey s0 w in
  match select s w with
  | case_listeningToggle =>
      let listening' := negb (listening s) in
      if listening' then
        ([Println "🎤 Listening..."; wa_Start]
           ++ log_error "Error starting audio: %v" (Start w),
         Continue (LoopState true (Some (now w + DefaultTimeout)) [] false))
      else
        let s' := LoopState false (listeningTimeout s) (audioBuffer s) false in
        let '(text, err) := Transcribe w (audioBuffer s) in
        ([Println "Processing..."; wa_Stop]
           ++ log_error "Error stopping audio: %v" (Stop w)
           ++ (if DumpWAVFile cfg then [go_SaveWAV "output.wav" (audioBuffer s)] else [])
           ++ [wa_Transcribe (audioBuffer s)]
           ++ match err with
              | Some e => [LoopLogPrintf "Error transcribing: %v" [Err e]]
              | None =>
                  if negb (String.eqb text "")
                  then [LoopPrintf "💬 You said: %q
" [Str text]; go_handleText text]
                  else []
              end,
         Continue s')
  | case_listeningTimeout =>
      if listening s then
        (* app.listeningToggle <- struct{}{} *)
        if listeningToggle s then ([], Blocked)
        else ([], Continue (LoopState true None (audioBuffer s) true))
      else ([], Continue (LoopState false None (audioBuffer s) (listeningToggle s)))
  | case_Done => ([Println "done"], Return)
  | case_default =>
      if negb (listening s) then ([], Continue s)
      else
        let '(buf, err) := CollectAudioData w in
        match err with
        | Some e =>
            ([wa_CollectAudioData Second;
              LoopLogPrintf "error collecting audio data: %v" [Err e]],
             Continue s)
        | None =>
            ([wa_CollectAudioData Second],
             Continue (LoopState true (listeningTimeout s) (audioBuffer s ++ buf)
                         (listeningToggle s)))
        end
  end.

(** runMainLoop runs the main loop: the states at the start of the
    successive iterations, one [world] per iteration, until the function
    returns or blocks. *)
Fixpoint runMainLoop (cfg : RightHandConfig) (s : loop_state) (ws : list world)
    : list loop_state :=
  match ws with
  | [] => [s]
  | w :: ws' =>
      match snd (loop_body cfg s w) with
      | Continue s' => s :: runMainLoop cfg s' ws'
      | Return | Blocked => [s]
      end
  end.

(** The number of Listening-to-Idle transitions along the successive
    values of [listening]. *)
Fixpoint stops (flags : list bool) : nat :=
  match flags with
  | b :: (b' :: _) as rest => ((if b && negb b' then 1 else 0) + stops rest)%nat
  | _ => 0%nat
  end.

End MainLoop.

Arguments loop_state : clear implicits.
Arguments world : clear implicits.
Arguments loop_event : clear implicits.
Arguments outcome : clear implicits.

(** ** Global key events

    [handleEvents] receives the events of the global monitor and
    [manageListeningState] sends the toggles that the loop above receives.
    An event is read through [e.Get("type").Int()],
    [e.Get("keyCode").Int()] and [e.Get("modifierFlags").Int()]: it is
    modelled by these three integers. *)

(** NSEventModifierFlagCommand is the command key modifier flag. *)
Definition NSEventModifierFlagCommand : Z := Z.shiftl 1 20.
(** VKControl is the virtual key code for the control key. *)
Definition VKControl : Z := 0x3B.
(** VKCommand is the virtual key code for the command key. *)
Definition VKCommand : Z := 0x37.
(** VKOption is the virtual key code for the option key. *)
Definition VKOption : Z := 0x3A.

(** [cocoa.NSEventTypeFlagsChanged], the type of the events that report a
    change of the modifier keys: 12 in AppKit. *)
Definition NSEventTypeFlagsChanged : Z := 12.

Record NSEvent : Type := { type : Z; keyCode : Z; modifierFlags : Z }.

(** manageListeningState toggles listening state: the values it sends on
    [app.listeningToggle], none or one. *)
Definition manageListeningState (e : NSEvent) : list unit :=
  let keyCode := keyCode e in
  let modifierFlags := modifierFlags e in
  let cmdDown := negb (Z.land modifierFlags NSEventModifierFlagCommand =? 0) in
  let keyUp := negb (negb (Z.land modifierFlags 0x1 =? 0)) in
  if (keyCode =? VKControl) && cmdDown && keyUp then [tt] else [].

(** handleEvents handles global events: the values sent for the events
    received so far, in order. *)
Fixpoint handleEvents (events : list NSEvent) : list unit :=
  match events with
  | [] => []
  | e :: events' =>
      let typ := type e in
      if negb (typ =? NSEventTypeFlagsChanged) then handleEvents events'
      else manageListeningState e ++ handleEvents events'
  end.

(** ** The log filter

    [newApp] sends the output of the [log] package through a
    [filterWriter] in front of the file [righthand.log]. *)

Module Log.

(** [strings.HasPrefix(s, prefix)] *)
Fixpoint HasPrefix (s prefix : string) {struct prefix} : bool :=
  match prefix, s with
  | EmptyString, _ => true
  | String b prefix', String a s' => Ascii.eqb a b && HasPrefix s' prefix'
  | String _ _, EmptyString => false
  end.

(** [strings.Contains(s, substr)]: [substr] is within [s]. *)
Fixpoint Contains (s substr : string) : bool :=
  HasPrefix s substr
  || match s with
     | String _ s' => Contains s' substr
     | EmptyString => false
     end.

(** filterWriter is a custom writer that can filter out unwanted log
    messages.  [out] stands for the method [Write] of the file: what it
    returns for the bytes it is given. *)
Record filterWriter : Type :=
  { out : string -> Z * option error;
    filter : string -> bool }.

(** Write implements io.Writer: the byte slices handed to [w.out.Write],
    none or one, and the values returned. *)
Definition Write (w : filterWriter) (p : string) : list string * (Z * option error) :=
  if filter w p then ([], (GoString.len p, None))   (* pretend we wrote it *)
  else ([p], out w p).

(** The [filter] of the writer that [newApp] installs. *)
Definition newApp_filter (p : string) : bool :=
  let s := p in
  Contains s "whisper"
  || Contains s "warning:"
  || Contains s "note:"
  || Contains s "error:"
  || Contains s "ld:".

End Log.

(** ** The creation of the application

    [newApp] opens the log file, installs the log filter, silences
    standard error while the speech recognizer is initialized, and creates
    the client of the language model.  The environment answers the three
    calls that can fail. *)

Module Startup.

(** What [os.Stderr] is set to: the file it was at the start
    ([oldStderr]), or the file opened on [os.DevNull]. *)
Inductive stderr : Type := oldStderr | devNull.

Inductive newApp_event : Type :=
| Println (line : string)                                (* fmt.Println(line) *)
| os_OpenFile (name : string) (flag : list string) (perm : Z)
| log_SetOutput (filter : string -> bool)                (* log.SetOutput(filterWriter) *)
| set_Stderr (f : stderr)                                (* os.Stderr = f *)
| whisperaudio_New (model : string)
| openai_NewChat (model : string).

Record environment : Type := {
  OpenFile_log : option error;                 (* the error of os.OpenFile("righthand.log", ...) *)
  New : string -> option error;                (* the error of whisperaudio.New, by model name *)
  NewChat : string -> option error             (* the error of openai.NewChat, by model name *)
}.

(** App is the main application: the capacity of the channel
    [listeningToggle] and the configuration. *)
Record App : Type := { listeningToggle : Z; cfg : RightHandConfig }.

(** [fmt.Errorf(prefix + ": %w", err)], by its message. *)
Definition Errorf (prefix : string) (err : error) : error := prefix +:+ ": " +:+ err.

(** newApp creates a new app. *)
Definition newApp (env : environment) (cfg : RightHandConfig)
    : list newApp_event * (App + error) :=
  let start :=
    [Println "
RightHand - Voice Control Assistant";
     Println "===================================";
     (* Create a log file *)
     os_OpenFile "righthand.log" ["O_CREATE"; "O_WRONLY"; "O_APPEND"] 420] in
  match OpenFile_log env with
  | Some err => (start, inr (Errorf "could not create log file" err))
  | None =>
      let whisper :=
        [(* Set up logging to filter messages but keep stderr as is *)
         log_SetOutput Log.newApp_filter;
         (* Temporarily disable stderr during initialization *)
         os_OpenFile "/dev/null" ["O_WRONLY"] 0;
         set_Stderr devNull;
         Println "Initializing voice recognition...";
         (* Initialize whisper *)
         whisperaudio_New (WhisperModel cfg);
         (* Restore stderr *)
         set_Stderr oldStderr] in
      match New env (WhisperModel cfg) with
      | Some err =>
          (start ++ whisper, inr (Errorf "could not initialize voice recognition" err))
      | None =>
          let llm :=
            [Println "Initializing language model...";
             openai_NewChat (LLMModel cfg)] in
          match NewChat env (LLMModel cfg) with
          | Some err =>
              (start ++ whisper ++ llm,
               inr (Errorf "could not initialize language model" err))
          | None =>
              (start ++ whisper ++ llm ++ [Println "Initialization complete!
"],
               inl {| listeningToggle := 1; cfg := cfg |})
          end
      end
  end.

End Startup.

(** ** Loading and saving the configuration

    The calls to the operating system and to the YAML library are
    answered by the environment ([Files]); the calls that change the file
    system are recorded in order. *)

Module Config.
Section Files.

(** An open file, [*os.File]. *)
Context {File : Type}.

(** What [os.Open] returns: a file, an error for which [os.IsNotExist]
    holds, or another error (the file is then [nil]). *)
Inductive opened : Type :=
| Opened (f : File)
| NotExist (err : error)
| OpenFailed (err : error).

Record Files : Type := {
  UserConfigDir : string * option error;        (* os.UserConfigDir() *)
  Join : list string -> string;                 (* filepath.Join(elem...) *)
  Dir : string -> string;                       (* filepath.Dir(path) *)
  Open : string -> opened;                      (* os.Open(path) *)
  Stat_IsNotExist : string -> bool;             (* os.IsNotExist of the error of os.Stat *)
  Create : string -> File + error;              (* os.Create(path) *)
  Decode : option File -> RightHandConfig -> RightHandConfig * option error;
                                                (* yaml.NewDecoder(f).Decode(v) *)
  Encode : File -> RightHandConfig -> option error
                                                (* yaml.NewEncoder(f).Encode(v) *)
}.

Inductive file_event : Type :=
| os_MkdirAll (path : string) (perm : Z)
| os_Create (path : string)
| yaml_Encode (f : File) (v : RightHandConfig)
| f_Close (f : File).

Definition configPath (fs : Files) : string :=
  let '(ucd, _) := UserConfigDir fs in
  Join fs [ucd; "righthand"; "config.yaml"].

Definition saveYaml (fs : Files) (path : string) (v : RightHandConfig)
    : list file_event * option error :=
  (* create directory if not exists *)
  let dir := Dir fs path in
  let mkdir := if Stat_IsNotExist fs dir then [os_MkdirAll dir 493] else [] in
  match Create fs path with
  | inr err => (mkdir ++ [os_Create path], Some err)
  | inl f => (mkdir ++ [os_Create path; yaml_Encode f v; f_Close f], Encode fs f v)
  end.

(** [v] is the configuration that the pointer [v] refers to before the
    call; the first component of the value is what it refers to after. *)
Definition loadYaml (fs : Files) (path : string) (v : RightHandConfig)
    : list file_event * (RightHandConfig * option error) :=
  match Open fs path with
  (* if not exists, write default config *)
  | NotExist _ =>
      let v := defaultConfig in
      let '(events, err) := saveYaml fs path v in
      (events, (v, err))
  | Opened f => ([], Decode fs (Some f) v)
  | OpenFailed _ => ([], Decode fs None v)
  end.

(** The zero value of [RightHandConfig], the value of [var config]. *)
Definition zeroConfig : RightHandConfig :=
  {| LLMModel := ""; WhisperModel := ""; Programs := []; DumpWAVFile := false |}.

(** loadConfig loads the configuration file for RightHand as yaml *)
Definition loadConfig (fs : Files) : list file_event * (RightHandConfig * option error) :=
  let config := zeroConfig in
  let '(events, (config, err)) := loadYaml fs (configPath fs) config in
  match err with
  | Some err => (events, (defaultConfig, Some err))
  | None => (events, (config, None))
  end.

(** saveConfig saves the configuration file for RightHand as yaml *)
Definition saveConfig (fs : Files) (config : RightHandConfig)
    : list file_event * option error :=
  saveYaml fs (configPath fs) config.

End Files.

Arguments opened : clear implicits.
Arguments Files : clear implicits.
Arguments file_event : clear implicits.

End Config.

(** ** The entry point

    [main] loads the configuration, applies the flag [-dump-wav], creates
    the application and runs it.  [newApp] stands for the result of the
    function of that name, which initializes the speech recognizer and the
    client of the language model; [flagDumpWAVFile] is the value of the
    flag after [flag.Parse]; [app.run] returns [nil] when it returns. *)

Section Main.
Context {File : Type}.

Inductive main_event : Type :=
| on_files (e : Config.file_event File)          (* an effect of loadConfig *)
| Fprintf_Stderr (format : string) (args : list any)
| Fprintln_Stderr (args : list any)
| call_newApp (cfg : RightHandConfig)
| call_run
| os_Exit (code : Z).

(** [app.run(ctx)] *)
Definition run_app : option error := None.

Definition main (fs : Config.Files File) (flagDumpWAVFile : bool)
    (newApp : RightHandConfig -> option error) : list main_event :=
  (* load config *)
  let '(events, (cfg, err)) := Config.loadConfig fs in
  map on_files events
  ++ match err with
     | Some err => [Fprintf_Stderr "error loading config: %v
" [Err err]]
     | None => []
     end
  (* process flags *)
  ++ let cfg := {| LLMModel := LLMModel cfg;
                   WhisperModel := WhisperModel cfg;
                   Programs := Programs cfg;
                   DumpWAVFile := flagDumpWAVFile |} in
     (* create app *)
     call_newApp cfg
     :: match newApp cfg with
        | Some err => [Fprintln_Stderr [Str "error initializing app:"; Err err]; os_Exit 1]
        | None =>
            (* run app *)
            call_run
            :: match run_app with
               | Some err => [Fprintln_Stderr [Str "error running app:"; Err err]; os_Exit 2]
               | None => []
               end
        end.

End Main.

Arguments main_event : clear implicits.

(** * Part 2: vocabulary of the statements

    The definitions of this part are not part of the program: they name
    what the lemmas and theorems below say about it. *)

(** ** What the lexer computes, in closed form

    These functions are not part of the program: they describe the match
    that the backtracking search of [keyTapPattern] finds, and the lemmas
    below prove that description. *)

(** The longest prefix of [s] whose bytes satisfy [f], and the rest. *)
Fixpoint span (f : ascii -> bool) (s : string) : string * string :=
  match s with
  | String a s' =>
      if f a then (String a (fst (span f s')), snd (span f s')) else (EmptyString, s)
  | EmptyString => (EmptyString, EmptyString)
  end.

(** Every byte of [s] satisfies [f]. *)
Fixpoint all_bytes (f : ascii -> bool) (s : string) : bool :=
  match s with
  | String a s' => f a && all_bytes f s'
  | EmptyString => true
  end.

(** [s] does not start with a byte that satisfies [f]. *)
Definition stops_at (f : ascii -> bool) (s : string) : bool :=
  match s with
  | String a _ => negb (f a)
  | EmptyString => true
  end.

(** One or more bytes that satisfy [f], the longest run first: what
    [Plus (Class _ _)] does. *)
Fixpoint greedy (f : ascii -> bool) (pos : Z) (s : string) (cap : list Z) (k : cont)
    : option (list Z) :=
  match s with
  | String a s' =>
      if f a then
        match greedy f (pos + 1) s' cap k with
        | Some m => Some m
        | None => k (pos + 1) s' cap
        end
      else None
  | EmptyString => None
  end.

Definition not_rbrace : ascii -> bool := in_class true [("}", "}")]%char.
Definition key_byte : ascii -> bool :=
  in_class false [("A", "Z"); ("a", "z"); ("1", "9")]%char.
Definition separator : ascii -> bool := in_class false [(" ", " "); (";", ";")]%char.

(** The end of a match whose last group ended at [pos]: one separator is
    consumed when present. *)
Definition after_separator (pos : Z) (s : string) : Z :=
  match s with
  | String a _ => if separator a then pos + 1 else pos
  | EmptyString => pos
  end.

(** The suffix [+key] of a combo group: the key and what follows it. *)
Definition key_suffix (s : string) : option (string * string) :=
  match s with
  | String a s' =>
      if Ascii.eqb a "+" then
        match fst (span key_byte s') with
        | String _ _ => Some (span key_byte s')
        | EmptyString => None
        end
      else None
  | EmptyString => None
  end.

(** The match of [keyTapPattern] at offset [pos], where [s] is the input from
    [pos] on: an opening brace, the bytes [group] up to the next closing
    brace, at least one, then the key and the separator when present. *)
Definition scan (pos : Z) (s : string) : option (list Z) :=
  match s with
  | String a s1 =>
      if Ascii.eqb a "{" then
        let group := fst (span not_rbrace s1) in
        match group, snd (span not_rbrace s1) with
        | String _ _, String _ s3 =>
            let close := pos + 1 + GoString.len group in
            match key_suffix s3 with
            | Some (key, s5) =>
                let e := close + 2 + GoString.len key in
                Some [pos; after_separator e s5; pos + 1; close; close + 2; e]
            | None =>
                Some [pos; after_separator (close + 1) s3; pos + 1; close; -1; -1]
            end
        | _, _ => None
        end
      else None
  | EmptyString => None
  end.

(** The names that end in a plus sign, [(?:[^\}]+\+)], and the last name,
    [[^\}]+]. *)
Definition name_plus : Regexp.regex := Group (Cat (Plus (Class true [("}", "}")%char])) (Lit "+")).
Definition last_name : Regexp.regex := Plus (Class true [("}", "}")%char]).

(** ** What the synthesizer computes for one combo group *)

(** The modifiers that the table recognizes, in order. *)
Definition known (names : list string) : list string :=
  omap (fun name => modifierMap !! name) names.

(** The log lines for the names that the table does not recognize. *)
Fixpoint unknown_logs (names : list string) : list event :=
  match names with
  | [] => []
  | name :: rest =>
      match modifierMap !! name with
      | None => LogPrintf "Unknown modifier: %s" [Str name] :: unknown_logs rest
      | Some _ => unknown_logs rest
      end
  end.

(** The end of [simulateTyping]: type the rest of the text after the last
    match. *)
Definition type_remainder (text : string) (lastIndex : Z) : run unit :=
  if lastIndex <? GoString.len text then
    remainder ← lift (GoString.slice_from text lastIndex);
    emit (Fprintln [Str "righthand: typing remainder of text:"; Str remainder]) ;;
    emit (Sleep 100) ;;
    emit (TypeStr remainder)
  else mret tt.

(** A name of a combo group: no plus sign and no closing brace in it. *)
Definition is_name (name : string) : Prop :=
  GoString.contains "+" name = false /\ GoString.contains "}" name = false.

(** The match of a combo group [{group}] at offset [pos], followed by
    [after]. *)
Definition group_match (pos : Z) (group after : string) : list Z :=
  let close := pos + 1 + GoString.len group in
  match key_suffix after with
  | Some (key, after') =>
      let e := close + 2 + GoString.len key in
      [pos; after_separator e after'; pos + 1; close; close + 2; e]
  | None => [pos; after_separator (close + 1) after; pos + 1; close; -1; -1]
  end.

(** ** The lexer and the synthesizer on the rest of a directive *)

(** A match moved by [d] bytes; [-1] marks a group that took no part. *)
Definition shift (d : Z) (match_ : list Z) : list Z :=
  map (fun x => if x =? -1 then -1 else x + d) match_.

(** A capture vector of [keyTapPattern] found at a non-negative offset. *)
Definition well_formed (match_ : list Z) : Prop :=
  exists m0 m1 m2 m3 m4 m5,
    match_ = [m0; m1; m2; m3; m4; m5]
    /\ 0 <= m0 /\ 0 <= m1 /\ 0 <= m2 /\ 0 <= m3
    /\ (m4 = -1 /\ m5 = -1 \/ 0 <= m4 /\ 0 <= m5).

(** The number of bytes that a match takes after the closing brace of its
    group: the key with its plus sign, and one separator. *)
Definition match_tail (after : string) : Z :=
  match key_suffix after with
  | Some (key, after') => after_separator (1 + GoString.len key) after'
  | None => after_separator 0 after
  end.

(** [r1] is [r2] with its final index moved by [d]. *)
Definition moved (d : Z) (r1 r2 : run Z) : Prop :=
  trace r1 = trace r2
  /\ (result r1 = None /\ result r2 = None
      \/ exists x, 0 <= x /\ result r2 = Some x /\ result r1 = Some (x + d)).

(** The typing of the text between [lastIndex] and the start [m0] of the
    next match, the first statement of the loop of [simulateTyping]. *)
Definition type_before (text : string) (lastIndex m0 : Z) : run unit :=
  if negb (lastIndex =? m0) then
    before ← lift (GoString.slice text lastIndex m0);
    emit (Fprintln [Str "righthand: typing text:"; Str before]) ;;
    emit (TypeStr before)
  else mret tt.

(** What [simulateTyping] goes on to do after a first match, on the rest of
    the text: [lastIndex] is one byte past the end of that match. *)
Definition continue_on (rest : string) : run unit :=
  range_matches rest (FindAllStringSubmatchIndex keyTapPattern rest) 1
    ≫= type_remainder rest.

(** The few-shot pairs of a list of examples, as chat messages. *)
Definition few_shot (examples : list FewShotExample) : list ChatMessage :=
  flat_map (fun example =>
              [HumanChatMessage (Input example); AIChatMessage (Output example)])
           examples.

(** The examples of the programs named [activeApp], in configuration order. *)
Definition examples_for (programs : list ProgramFewShotExamples) (activeApp : string)
    : list FewShotExample :=
  flat_map (fun prog => if String.eqb (Program prog) activeApp then Examples prog else [])
           programs.

(** A run that does not call the language model. *)
Definition quiet {A} (r : run A) : Prop := calls (trace r) = [].

Section LoopVocabulary.
Context {float32 : Type}.
Implicit Types (s : loop_state float32) (w : world float32).

(** A world in which no toggle is sent and the context is not cancelled. *)
Definition no_signal w : Prop := hotkey w = false /\ ctx_done w = false.

(** Listening, with the timer due at [d] and no toggle waiting. *)
Definition armed (d : Z) s : Prop :=
  listening s = true /\ listeningTimeout s = Some d /\ listeningToggle s = false.

(** Idle for good: no timer and no toggle waiting. *)
Definition at_rest s : Prop :=
  listening s = false /\ listeningTimeout s = None /\ listeningToggle s = false.

(** The samples that one iteration of the default case adds to the
    buffer: the chunk collected, unless the collection reported an error. *)
Definition collected w : list float32 :=
  match snd (CollectAudioData w) with
  | None => fst (CollectAudioData w)
  | Some _ => []
  end.

End LoopVocabulary.

(** A state and worlds to run the loop on: the hotkey at time 0, audio
    every second, the timer due after thirty seconds. *)
Definition world_at (seconds : Z) (toggle : bool) : world Z :=
  {| now := seconds * Second;
     hotkey := toggle;
     ctx_done := false;
     choice := 0;
     Start := None;
     Stop := None;
     Transcribe := fun _ => ("", None);
     CollectAudioData := ([seconds], None) |}.

(** A world with a clock, a hotkey, a cancellation, a pick of the runtime
    and a transcription of one's choice. *)
Definition world_of (seconds : Z) (toggle cancelled : bool) (pick : nat) (text : string)
    : world Z :=
  {| now := seconds * Second;
     hotkey := toggle;
     ctx_done := cancelled;
     choice := pick;
     Start := None;
     Stop := None;
     Transcribe := fun _ => (text, None);
     CollectAudioData := ([seconds], None) |}.

(** ** The matches of a whole directive *)

(** [match_] is the match of a combo group of [text] that starts at or
    after offset [lo]: the text is [pre], an opening brace, a group without
    closing brace, the closing brace and [after]. *)
Definition group_at (text : string) (lo : Z) (match_ : list Z) : Prop :=
  exists pre group after,
    text = pre +:+ "{" +:+ group +:+ "}" +:+ after
    /\ group <> "" /\ GoString.contains "}" group = false
    /\ lo <= GoString.len pre
    /\ match_ = group_match (GoString.len pre) group after.

(** Each match is a combo group that starts at or after the end of the
    match before it. *)
Fixpoint in_order (text : string) (lo : Z) (matches : list (list Z)) : Prop :=
  match matches with
  | [] => True
  | match_ :: rest => group_at text lo match_ /\ in_order text (match_ !!! 1%nat) rest
  end.



(** A match starts at offset [e], or where the match before it ends. *)
Fixpoint touches (e : Z) (matches : list (list Z)) : bool :=
  match matches with
  | [] => false
  | match_ :: rest => (match_ !!! 0%nat =? e) || touches (match_ !!! 1%nat) rest
  end.

(** Two successive matches touch: the second starts where the first ends. *)
Fixpoint touching (matches : list (list Z)) : bool :=
  match matches with
  | match_ :: rest =>
      match rest with
      | next :: _ => next !!! 0%nat =? match_ !!! 1%nat
      | [] => false
      end || touching rest
  | [] => false
  end.

(** ** What the input injector is given *)

(** The names of [robotgo] in the table of modifiers. *)
Definition robotgo_names : list string := ["command"; "shift"; "alt"; "ctrl"; "tab"; "enter"].

(** The key of a combo group: letters and the digits 1 to 9 when it was
    captured after the braces; otherwise the empty string or a name of the
    table. *)
Definition pressed_key (key : string) : Prop :=
  key <> "" /\ all_bytes key_byte key = true \/ key = "" \/ key ∈ robotgo_names.

(** A key tap is the tap of shift that undoes the modifiers, or the press
    of a combo group. *)
Definition tap_ok (e : event) : Prop :=
  match e with
  | KeyTap key modifiers =>
      key = "shift" /\ modifiers = []
      \/ pressed_key key /\ Forall (fun x => x ∈ robotgo_names) modifiers
  | _ => True
  end.

Definition is_press (op : KeyOperation) : bool :=
  match op with
  | PressCombo _ _ => true
  | TypeLiteral _ => false
  end.

(** The key operations of a list of combos: each press, then the tap of
    shift. *)
Definition presses (combos : list (list string * string)) : list KeyOperation :=
  flat_map (fun '(modifiers, key) => [PressCombo modifiers key; PressCombo [] "shift"])
           combos.

(** [combo] is the modifiers and the key that
    [extractModifiersAndKeyFromMatch] returns for the match. *)
Definition pressed_as (text : string) (match_ : list Z) (combo : list string * string)
    : Prop :=
  exists logs, extractModifiersAndKeyFromMatch text match_ = Run logs (Some combo).

(** [str] is a piece of [text], of one byte at least, that starts at or
    after offset [lo]; no byte of it is within a match, nor is its first
    byte right behind one. *)
Definition between (text : string) (matches : list (list Z)) (lo : Z) (str : string)
    : Prop :=
  exists a b,
    GoString.slice text a b = Some str /\ lo <= a < b
    /\ Forall (fun m => b <= m !!! 0%nat \/ m !!! 1%nat < a) matches.

Definition typed_between (text : string) (matches : list (list Z)) (lo : Z) (e : event)
    : Prop :=
  match e with
  | TypeStr str => between text matches lo str
  | _ => True
  end.

(** ** The announcement of a dispatch *)

(** The last entry of the configuration for the program [activeApp]. *)
Definition entry_for (programs : list ProgramFewShotExamples) (activeApp : string)
    : option ProgramFewShotExamples :=
  last (filter (fun prog => Program prog = activeApp) programs).

(** The final value of [nExamples]. *)
Definition announced (programs : list ProgramFewShotExamples) (activeApp : string) : Z :=
  from_option (fun prog => Z.of_nat (length (Examples prog))) 0 (entry_for programs activeApp).

(** ** Key events and log lines *)

(** A change of the modifier keys ([type] 12) on the control key
    ([keyCode] 59), with the command flag (bit 20) set and bit 0 of the
    flags clear. *)
Definition is_toggle (e : NSEvent) : bool :=
  (type e =? 12) && (keyCode e =? 59)
  && Z.testbit (modifierFlags e) 20 && negb (Z.testbit (modifierFlags e) 0).

(** The words that the log filter looks for. *)
Definition markers : list string := ["whisper"; "warning:"; "note:"; "error:"; "ld:"].

(** [substr] occurs in [s]. *)
Definition within (substr s : string) : Prop := exists a b, s = a +:+ substr +:+ b.

(** What reaches the file when the chunks [ps] are written one after the
    other. *)
Definition written (w : Log.filterWriter) (ps : list string) : list string :=
  flat_map (fun p => fst (Log.Write w p)) ps.



(** ** A file system to load the configuration from *)

(** A file system without a configuration file, in which files can be
    created and encoded; and one in which they cannot be created. *)
Definition no_config_file (writable : bool) : Config.Files unit :=
  {| Config.UserConfigDir := ("/home/u/.config", None);
     Config.Join := fun elem => GoString.Join elem "/";
     Config.Dir := fun _ => "/home/u/.config/righthand";
     Config.Open := fun _ => Config.NotExist "no such file or directory";
     Config.Stat_IsNotExist := fun _ => true;
     Config.Create := fun _ => if writable then inl tt else inr "permission denied";
     Config.Decode := fun _ v => (v, None);
     Config.Encode := fun _ _ => None |}.

(** * Part 3: lemmas *)

Example lex_new_tab :
  FindAllStringSubmatchIndex keyTapPattern "{Command}+t" = [[0; 11; 1; 8; 10; 11]].
Proof. vm_compute. reflexivity. Qed.

(** ** Lemmas on strings *)

Module GoStringFacts.
Import GoString.

Lemma length_append (s t : string) :
  String.length (s +:+ t) = (String.length s + String.length t)%nat.
Proof. induction s as [|a s IH]; simpl; [reflexivity | now rewrite IH]. Qed.

Lemma len_append (s t : string) : len (s +:+ t) = len s + len t.
Proof. unfold len. rewrite length_append. lia. Qed.

Lemma len_nonneg (s : string) : 0 <= len s.
Proof. unfold len. lia. Qed.

Lemma len_String (a : ascii) (s : string) : len (String a s) = 1 + len s.
Proof. unfold len. simpl String.length. lia. Qed.

Lemma append_nil_r (s : string) : s +:+ "" = s.
Proof. induction s as [|a s IH]; simpl; [reflexivity | now rewrite IH]. Qed.

Lemma append_assoc (s t u : string) : (s +:+ t) +:+ u = s +:+ (t +:+ u).
Proof. induction s as [|a s IH]; simpl; [reflexivity | now rewrite IH]. Qed.

Lemma skip_append (s t : string) : skip_bytes (String.length s) (s +:+ t) = t.
Proof. induction s as [|a s IH]; simpl; [now destruct t | exact IH]. Qed.

Lemma first_append (s t : string) : first_bytes (String.length s) (s +:+ t) = s.
Proof. induction s as [|a s IH]; simpl; [now destruct t | now rewrite IH]. Qed.

Lemma skip_zero (s : string) : skip_bytes 0 s = s.
Proof. now destruct s. Qed.

Lemma first_all (s : string) : first_bytes (String.length s) s = s.
Proof. induction s as [|a s IH]; simpl; [reflexivity | now rewrite IH]. Qed.

Lemma first_skip (n : nat) (s : string) : first_bytes n s +:+ skip_bytes n s = s.
Proof.
  revert s; induction n as [|n IH]; intros [|a s]; simpl; try reflexivity.
  now rewrite IH.
Qed.

Lemma length_skip (n : nat) (s : string) :
  String.length (skip_bytes n s) = (String.length s - n)%nat.
Proof.
  revert s; induction n as [|n IH]; intros [|a s]; simpl; try reflexivity.
  apply IH.
Qed.

Lemma skip_skip (n m : nat) (s : string) : skip_bytes n (skip_bytes m s) = skip_bytes (m + n) s.
Proof.
  revert s; induction m as [|m IH]; intros s; simpl.
  - reflexivity.
  - destruct s as [|a s]; [now destruct n | apply IH].
Qed.

(** A slice between the ends of two prefixes. *)
Lemma slice_app (s t u : string) :
  slice (s +:+ t +:+ u) (len s) (len s + len t) = Some t.
Proof.
  unfold slice. pose proof (len_nonneg s). pose proof (len_nonneg t).
  pose proof (len_nonneg u). rewrite !len_append.
  replace ((0 <=? len s) && (len s <=? len s + len t)
           && (len s + len t <=? len s + (len t + len u))) with true
    by (symmetry; rewrite !andb_true_iff, !Z.leb_le; lia).
  f_equal. unfold len.
  replace (Z.to_nat (Z.of_nat (String.length s) + Z.of_nat (String.length t)
                     - Z.of_nat (String.length s))) with (String.length t) by lia.
  rewrite Nat2Z.id, skip_append. apply first_append.
Qed.

Lemma slice_from_app (s t : string) : slice_from (s +:+ t) (len s) = Some t.
Proof.
  unfold slice_from. rewrite len_append.
  pose proof (slice_app s t "") as H. now rewrite append_nil_r in H.
Qed.

Lemma slice_whole (s : string) : slice_from s 0 = Some s.
Proof. apply (slice_from_app "" s). Qed.

Lemma slice_reversed (s : string) (lo hi : Z) : hi < lo -> slice s lo hi = None.
Proof.
  intros H. unfold slice.
  replace (lo <=? hi) with false by (symmetry; apply Z.leb_gt; lia).
  now rewrite andb_false_r.
Qed.

(** [Split] undoes [Join] on names that are free of the separator. *)
Lemma Split_no_sep (s : string) (sep : ascii) :
  contains sep s = false -> Split s sep = [s].
Proof.
  induction s as [|a s IH]; simpl; [reflexivity |].
  intros H. apply orb_false_iff in H as [Ha Hs].
  rewrite Ha, (IH Hs). reflexivity.
Qed.

Lemma Split_app_sep (s t : string) (sep : ascii) :
  contains sep s = false -> Split (s +:+ String sep t) sep = s :: Split t sep.
Proof.
  induction s as [|a s IH]; simpl; intros H.
  - now rewrite Ascii.eqb_refl.
  - apply orb_false_iff in H as [Ha Hs]. rewrite Ha, (IH Hs). reflexivity.
Qed.

Lemma Split_Join (names : list string) (sep : ascii) :
  names <> [] -> Forall (fun name => contains sep name = false) names ->
  Split (Join names sep) sep = names.
Proof.
  induction names as [|name rest IH]; [congruence |].
  intros _ Hall. inversion Hall as [|? ? Hname Hrest]; subst.
  destruct rest as [|name' rest'].
  - simpl. now apply Split_no_sep.
  - change (Join (name :: name' :: rest') sep)
      with (name +:+ String sep (Join (name' :: rest') sep)).
    rewrite (Split_app_sep _ _ _ Hname). f_equal. now apply IH.
Qed.

Lemma contains_app (c : ascii) (s t : string) :
  contains c (s +:+ t) = contains c s || contains c t.
Proof. induction s as [|a s IH]; simpl; [reflexivity | now rewrite IH, orb_assoc]. Qed.

Lemma contains_Join (c sep : ascii) (names : list string) :
  c <> sep -> Forall (fun name => contains c name = false) names ->
  contains c (Join names sep) = false.
Proof.
  intros Hc. induction names as [|name rest IH]; [reflexivity |].
  intros Hall. inversion Hall as [|? ? Hname Hrest]; subst.
  destruct rest as [|name' rest']; [exact Hname |].
  change (Join (name :: name' :: rest') sep)
    with (name +:+ String sep (Join (name' :: rest') sep)).
  rewrite contains_app, Hname.
  change (contains c (String sep (Join (name' :: rest') sep)))
    with (Ascii.eqb sep c || contains c (Join (name' :: rest') sep)).
  rewrite (IH Hrest), orb_false_r. simpl. apply Ascii.eqb_neq. congruence.
Qed.

End GoStringFacts.

(** ** The backtracking search on [keyTapPattern] *)

Module LexerFacts.
Import GoString GoStringFacts.

Lemma span_app (f : ascii -> bool) (g t : string) :
  all_bytes f g = true -> stops_at f t = true -> span f (g +:+ t) = (g, t).
Proof.
  induction g as [|a g IH]; simpl; intros Hg Ht.
  - destruct t as [|b t]; [reflexivity |]. simpl in Ht.
    simpl. now destruct (f b).
  - apply andb_true_iff in Hg as [Ha Hg]. now rewrite Ha, (IH Hg Ht).
Qed.

Lemma span_spec (f : ascii -> bool) (s : string) :
  s = fst (span f s) +:+ snd (span f s)
  /\ all_bytes f (fst (span f s)) = true /\ stops_at f (snd (span f s)) = true.
Proof.
  induction s as [|a s (IH1 & IH2 & IH3)]; simpl; [auto |].
  destruct (f a) eqn:Ha; simpl.
  - rewrite Ha. repeat split; [now rewrite <- IH1 | exact IH2 | exact IH3].
  - now rewrite Ha.
Qed.

(** [star] over a character class tries the longest run first. *)
Lemma star_Class (n : nat) negated ranges pos s cap (k : cont) :
  (String.length s <= n)%nat ->
  star (exec (Class negated ranges)) n pos s cap k =
    match greedy (in_class negated ranges) pos s cap k with
    | Some m => Some m
    | None => k pos s cap
    end.
Proof.
  revert pos s; induction n as [|n IH]; intros pos s Hn.
  - destruct s; [reflexivity | simpl in Hn; lia].
  - destruct s as [|a s]; [reflexivity |].
    simpl. destruct (in_class negated ranges a); [| reflexivity].
    replace (String.length s <? S (String.length s))%nat with true
      by (symmetry; apply Nat.ltb_lt; lia).
    rewrite IH by (simpl in Hn; lia). reflexivity.
Qed.

Lemma exec_Plus_Class negated ranges pos s cap (k : cont) :
  exec (Plus (Class negated ranges)) pos s cap k =
    greedy (in_class negated ranges) pos s cap k.
Proof.
  destruct s as [|a s]; [reflexivity |].
  change (exec (Plus (Class negated ranges)) pos (String a s) cap k)
    with (if in_class negated ranges a
          then star (exec (Class negated ranges)) (String.length s) (pos + 1) s cap k
          else None).
  rewrite star_Class by lia. reflexivity.
Qed.

Section Greedy.
Variables (f : ascii -> bool) (t : string) (cap : list Z) (k : cont).
Hypothesis t_stops : stops_at f t = true.

Lemma greedy_stops pos : greedy f pos t cap k = None.
Proof.
  destruct t as [|b t']; [reflexivity |].
  simpl in *. now destruct (f b).
Qed.

(** When the continuation accepts the longest run, that is the answer. *)
Lemma greedy_longest (g : string) pos m :
  all_bytes f g = true -> g <> "" ->
  k (pos + len g) t cap = Some m ->
  greedy f pos (g +:+ t) cap k = Some m.
Proof.
  revert pos; induction g as [|a g IH]; intros pos Hg Hne Hk; [congruence |].
  simpl in Hg. apply andb_true_iff in Hg as [Ha Hg].
  simpl. rewrite Ha. rewrite len_String in Hk.
  destruct g as [|b g].
  - simpl. rewrite greedy_stops. now replace (pos + 1) with (pos + (1 + len "")).
  - rewrite (IH (pos + 1) Hg); [reflexivity | congruence |].
    now replace (pos + 1 + len (String b g)) with (pos + (1 + len (String b g))) by lia.
Qed.

(** When the continuation refuses every shorter run, only the longest
    counts. *)
Lemma greedy_only_longest (g : string) pos :
  all_bytes f g = true ->
  (forall g1 g2, g = g1 +:+ g2 -> g1 <> "" -> g2 <> "" ->
                 k (pos + len g1) (g2 +:+ t) cap = None) ->
  greedy f pos (g +:+ t) cap k =
    match g with "" => None | _ => k (pos + len g) t cap end.
Proof.
  revert pos; induction g as [|a g IH]; intros pos Hg Hk.
  - apply greedy_stops.
  - simpl in Hg. apply andb_true_iff in Hg as [Ha Hg].
    simpl. rewrite Ha, (IH (pos + 1) Hg).
    + rewrite len_String. destruct g as [|b g].
      * now replace (pos + (1 + len "")) with (pos + 1).
      * replace (pos + (1 + len (String b g))) with (pos + 1 + len (String b g)) by lia.
        destruct (k (pos + 1 + len (String b g)) t cap) eqn:E; [reflexivity |].
        apply (Hk (String a "") (String b g)); [reflexivity | congruence ..].
    + intros g1 g2 E Hg1 Hg2.
      replace (pos + 1 + len g1) with (pos + len (String a g1))
        by (rewrite len_String; lia).
      apply Hk; [now rewrite E | congruence | exact Hg2].
Qed.

(** When the continuation answers [R] or nothing at every run, so does
    the search. *)
Lemma greedy_cases (g : string) pos (R : option (list Z)) :
  all_bytes f g = true ->
  (forall g1 g2, g = g1 +:+ g2 -> g1 <> "" ->
                 k (pos + len g1) (g2 +:+ t) cap = None
                 \/ k (pos + len g1) (g2 +:+ t) cap = R) ->
  greedy f pos (g +:+ t) cap k = None \/ greedy f pos (g +:+ t) cap k = R.
Proof.
  revert pos; induction g as [|a g IH]; intros pos Hg Hk.
  - left. apply greedy_stops.
  - simpl in Hg. apply andb_true_iff in Hg as [Ha Hg].
    simpl. rewrite Ha.
    destruct (IH (pos + 1) Hg) as [E | E].
    + intros g1 g2 Eg Hg1.
      replace (pos + 1 + len g1) with (pos + len (String a g1))
        by (rewrite len_String; lia).
      apply Hk; [now rewrite Eg | congruence].
    + rewrite E.
      replace (pos + 1) with (pos + len (String a "")) by reflexivity.
      apply (Hk (String a "") g); [reflexivity | congruence].
    + rewrite E. destruct R as [m |]; [now right |].
      replace (pos + 1) with (pos + len (String a "")) by reflexivity.
      apply (Hk (String a "") g); [reflexivity | congruence].
Qed.

End Greedy.

Lemma all_bytes_app (f : ascii -> bool) (s t : string) :
  all_bytes f (s +:+ t) = all_bytes f s && all_bytes f t.
Proof. induction s as [|a s IH]; simpl; [reflexivity | now rewrite IH, andb_assoc]. Qed.

Lemma star_S (body : matcher) n pos s cap (k : cont) :
  star body (S n) pos s cap k =
    match body pos s cap
            (fun pos' s' cap' =>
               if (String.length s' <? String.length s)%nat
               then star body n pos' s' cap' k else None) with
    | Some m => Some m
    | None => k pos s cap
    end.
Proof. reflexivity. Qed.

Lemma exec_Lit (c a : ascii) pos s cap (k : cont) :
  exec (Lit c) pos (String a s) cap k = if Ascii.eqb a c then k (pos + 1) s cap else None.
Proof. reflexivity. Qed.

Lemma exec_name_plus pos s cap (k : cont) :
  exec name_plus pos s cap k =
    greedy not_rbrace pos s cap (fun pos' s' cap' => exec (Lit "+") pos' s' cap' k).
Proof. unfold name_plus. apply exec_Plus_Class. Qed.

(** Whatever way the names are cut at plus signs, the first group runs up
    to the closing brace: a continuation [K] that wants a closing brace
    is entered there or nowhere. *)
Lemma star_names (n : nat) (u t : string) pos cap (K : cont) :
  all_bytes not_rbrace u = true -> stops_at not_rbrace t = true ->
  (String.length (u +:+ t) <= n)%nat ->
  (forall p a s c, not_rbrace a = true -> K p (String a s) c = None) ->
  star (exec name_plus) n pos (u +:+ t) cap
    (fun pos' s' cap' => exec last_name pos' s' cap' K)
  = match u with "" => None | _ => K (pos + len u) t cap end.
Proof.
  intros Hu Ht Hn HK. revert u pos Hu Hn.
  induction n as [|n IH]; intros u pos Hu Hn.
  - rewrite length_append in Hn.
    destruct u; [| simpl in Hn; lia]. destruct t; [reflexivity | simpl in Hn; lia].
  - rewrite star_S, exec_name_plus.
    unfold last_name at 2. rewrite exec_Plus_Class. fold not_rbrace.
    rewrite (greedy_only_longest not_rbrace t cap K Ht u pos Hu).
    2:{ intros g1 [|a g2] E _ Hg2; [congruence |].
        apply HK. rewrite E, all_bytes_app in Hu.
        apply andb_true_iff in Hu as [_ Hu]. simpl in Hu.
        now apply andb_true_iff in Hu as [Hu _]. }
    set (k' := fun (pos' : Z) (s' : string) (cap' : list Z) =>
                 exec (Lit "+") pos' s' cap' _).
    destruct (greedy_cases not_rbrace t cap k' Ht u pos (K (pos + len u) t cap) Hu)
      as [E | E].
    + intros g1 g2 Eu Hg1. unfold k'.
      destruct g2 as [|a g2].
      * left. destruct t as [|b t']; [reflexivity |].
        simpl. destruct (Ascii.eqb_spec b "+") as [-> | _]; [| reflexivity].
        simpl in Ht. discriminate Ht.
      * change (String a g2 +:+ t) with (String a (g2 +:+ t)).
        rewrite exec_Lit. destruct (Ascii.eqb_spec a "+") as [-> | _]; [| now left].
        assert (Hlen : (String.length (g2 +:+ t) < String.length (u +:+ t))%nat).
        { rewrite Eu, !length_append. simpl. rewrite ?length_append. lia. }
        apply Nat.ltb_lt in Hlen as Hlt. rewrite Hlt.
        assert (Hg2 : all_bytes not_rbrace g2 = true).
        { rewrite Eu, all_bytes_app in Hu. apply andb_true_iff in Hu as [_ Hu].
          exact Hu. }
        rewrite (IH g2 (pos + len g1 + 1) Hg2) by lia.
        destruct g2 as [|b g2]; [now left |]. right.
        f_equal. rewrite Eu, len_append, !len_String. lia.
    + rewrite E. reflexivity.
    + rewrite E. destruct (K (pos + len u) t cap) as [m |] eqn:EK.
      * destruct u; [| reflexivity].
        rewrite greedy_stops in E by exact Ht. discriminate E.
      * now destruct u.
Qed.

Lemma not_rbrace_false (a : ascii) : not_rbrace a = false -> a = "}"%char.
Proof.
  destruct a as [[] [] [] [] [] [] [] []]; vm_compute; intros H;
    first [discriminate H | reflexivity].
Qed.

(** The optional separator and the end of the match. *)
Lemma exec_separator pos0 pos s cap :
  exec (Quest (Group (Class false [(" ", " "); (";", ";")]%char))) pos s cap
    (fun pos' _ cap' => Some (<[1%nat := pos']> (<[0%nat := pos0]> cap')))
  = Some (<[1%nat := after_separator pos s]> (<[0%nat := pos0]> cap)).
Proof.
  destruct s as [|a s]; [reflexivity |].
  unfold after_separator, separator.
  change (exec (Quest (Group (Class false ?r))) pos (String a s) cap ?k)
    with (match (if in_class false r a then k (pos + 1) s cap else None) with
          | Some m => Some m
          | None => k pos (String a s) cap
          end).
  now destruct (in_class false _ a).
Qed.

(** The optional key. *)
Lemma exec_key_suffix pos0 pos s cap :
  exec (Cat (Quest (Group (Cat (Lit "+")
               (Capture 2 (Plus (Class false [("A", "Z"); ("a", "z"); ("1", "9")]%char))))))
            (Quest (Group (Class false [(" ", " "); (";", ";")]%char))))
       pos s cap
       (fun pos' _ cap' => Some (<[1%nat := pos']> (<[0%nat := pos0]> cap')))
  = match key_suffix s with
    | Some (key, s') =>
        Some (<[1%nat := after_separator (pos + 1 + len key) s']>
                (<[0%nat := pos0]> (<[5%nat := pos + 1 + len key]> (<[4%nat := pos + 1]> cap))))
    | None => Some (<[1%nat := after_separator pos s]> (<[0%nat := pos0]> cap))
    end.
Proof.
  set (kf := fun (pos' : Z) (_ : string) (cap' : list Z) =>
               Some (<[1%nat := pos']> (<[0%nat := pos0]> cap'))).
  set (sep := Quest (Group (Class false [(" ", " "); (";", ";")]%char))).
  set (keys := Plus (Class false [("A", "Z"); ("a", "z"); ("1", "9")]%char)).
  change (exec (Cat (Quest (Group (Cat (Lit "+") (Capture 2 keys)))) sep) pos s cap kf)
    with (match exec (Cat (Lit "+") (Capture 2 keys)) pos s cap
                  (fun pos' s' cap' => exec sep pos' s' cap' kf) with
          | Some m => Some m
          | None => exec sep pos s cap kf
          end).
  unfold sep at 2, kf at 2. rewrite exec_separator.
  destruct s as [|a s]; [reflexivity |].
  change (exec (Cat (Lit "+") (Capture 2 keys)) pos (String a s) cap
            (fun pos' s' cap' => exec sep pos' s' cap' kf))
    with (if Ascii.eqb a "+"
          then exec keys (pos + 1) s cap
                 (fun pos' s' cap' =>
                    exec sep pos' s' (<[5%nat := pos']> (<[4%nat := pos + 1]> cap')) kf)
          else None).
  unfold key_suffix. destruct (Ascii.eqb a "+"); [| reflexivity].
  unfold keys. rewrite exec_Plus_Class. fold key_byte.
  destruct (span_spec key_byte s) as (Es & Hkey & Hs').
  destruct (span key_byte s) as [key s']. simpl in Es, Hkey, Hs'. simpl fst.
  rewrite Es at 1. destruct key as [|b key].
  - simpl. now rewrite greedy_stops.
  - erewrite greedy_longest; [reflexivity | exact Hs' | exact Hkey | congruence |].
    unfold sep, kf. now rewrite exec_separator.
Qed.

(** The search at one offset finds what [scan] describes. *)
Theorem match_at_keyTapPattern (pos : Z) (s : string) :
  match_at keyTapPattern pos s = scan pos s.
Proof.
  unfold match_at, keyTapPattern, expr, NumSubexp.
  destruct s as [|a s1]; [reflexivity |].
  set (cap0 := replicate (2 * (2 + 1)) (-1)).
  set (kf := fun (pos' : Z) (_ : string) (cap' : list Z) =>
               Some (<[1%nat := pos']> (<[0%nat := pos]> cap'))).
  set (tail := Cat (Quest _) (Quest _)).
  set (K := fun (pos' : Z) (s' : string) (cap' : list Z) =>
              exec (Cat (Lit "}") tail) pos' s'
                (<[3%nat := pos']> (<[2%nat := pos + 1]> cap')) kf).
  change (exec (Capture 0 _) pos (String a s1) cap0 _)
    with (if Ascii.eqb a "{"
          then star (exec name_plus) (String.length s1) (pos + 1) s1 cap0
                 (fun pos' s' cap' => exec last_name pos' s' cap' K)
          else None).
  unfold scan. destruct (Ascii.eqb a "{"); [| reflexivity].
  destruct (span_spec not_rbrace s1) as (Es & Hgroup & Hs2).
  destruct (span not_rbrace s1) as [group s2]. simpl in Es, Hgroup, Hs2. simpl fst; simpl snd.
  rewrite Es at 1 2. rewrite star_names; [| exact Hgroup | exact Hs2 | lia |].
  2:{ intros p b s c Hb. unfold K.
      change (exec (Cat (Lit "}") tail) p (String b s) _ kf)
        with (if Ascii.eqb b "}" then exec tail (p + 1) s
                                       (<[3%nat := p]> (<[2%nat := pos + 1]> c)) kf
              else None).
      destruct (Ascii.eqb_spec b "}") as [-> | _]; [discriminate Hb | reflexivity]. }
  destruct group as [|b group]; [reflexivity |].
  destruct s2 as [|c s3]; [reflexivity |].
  simpl in Hs2. apply negb_true_iff, not_rbrace_false in Hs2 as ->.
  unfold K.
  change (exec (Cat (Lit "}") tail) ?p (String "}" s3) ?c kf)
    with (exec tail (p + 1) s3 c kf).
  unfold tail, kf. rewrite exec_key_suffix.
  destruct (key_suffix s3) as [[key s5] |]; unfold cap0; simpl; [| reflexivity].
  now replace (pos + 1 + len (String b group) + 1 + 1)
    with (pos + 1 + len (String b group) + 2) by lia.
Qed.

Lemma search_unfold (pos : Z) (s : string) :
  search keyTapPattern pos s =
    match scan pos s with
    | Some m => Some m
    | None =>
        match s with
        | String _ s' => search keyTapPattern (pos + 1) s'
        | EmptyString => None
        end
    end.
Proof. rewrite <- match_at_keyTapPattern. now destruct s. Qed.

(** Without an opening brace there is nothing to find. *)
Lemma search_no_brace (pos : Z) (s : string) :
  contains "{" s = false -> search keyTapPattern pos s = None.
Proof.
  revert pos; induction s as [|a s IH]; intros pos H; rewrite search_unfold.
  - reflexivity.
  - simpl in H. apply orb_false_iff in H as [Ha Hs].
    simpl. rewrite Ha. now apply IH.
Qed.

Lemma FindAll_unfold (text : string) :
  FindAllStringSubmatchIndex keyTapPattern text =
    match search keyTapPattern 0 text with
    | None => []
    | Some m =>
        let m0 := m !!! 0%nat in
        let m1 := m !!! 1%nat in
        if m1 =? 0 then
          if m0 =? -1
          then allMatches keyTapPattern text (String.length text) 1 m1
          else m :: allMatches keyTapPattern text (String.length text) 1 m1
        else m :: allMatches keyTapPattern text (String.length text) m1 m1
    end.
Proof.
  unfold FindAllStringSubmatchIndex. simpl allMatches.
  replace (0 <=? len text) with true by (symmetry; apply Z.leb_le, len_nonneg).
  reflexivity.
Qed.

Lemma FindAll_no_brace (text : string) :
  contains "{" text = false -> FindAllStringSubmatchIndex keyTapPattern text = [].
Proof. intros H. now rewrite FindAll_unfold, search_no_brace. Qed.

End LexerFacts.

Module SynthFacts.
Import GoString GoStringFacts LexerFacts.

Lemma trace_bind {A B} (m : run A) (f : A -> run B) :
  trace (m ≫= f) = trace m ++ match result m with Some a => trace (f a) | None => [] end.
Proof.
  unfold mbind, run_bind. destruct (result m); simpl; [reflexivity |].
  now rewrite app_nil_r.
Qed.

Lemma result_bind {A B} (m : run A) (f : A -> run B) :
  result (m ≫= f) = match result m with Some a => result (f a) | None => None end.
Proof. unfold mbind, run_bind. now destruct (result m). Qed.

Lemma run_eq {A} (r1 r2 : run A) :
  trace r1 = trace r2 -> result r1 = result r2 -> r1 = r2.
Proof. destruct r1, r2; simpl; congruence. Qed.

Lemma bind_Run {A B} (tr : list event) (a : A) (f : A -> run B) :
  Run tr (Some a) ≫= f = Run (tr ++ trace (f a)) (result (f a)).
Proof. reflexivity. Qed.

Lemma bind_panic {A B} (tr : list event) (f : A -> run B) :
  Run tr None ≫= f = Run tr None.
Proof. reflexivity. Qed.

Lemma bind_ret {A B} (a : A) (f : A -> run B) : mret a ≫= f = f a.
Proof. unfold mret, run_ret. rewrite bind_Run. now destruct (f a). Qed.

Lemma operations_app (l1 l2 : list event) :
  operations (l1 ++ l2) = operations l1 ++ operations l2.
Proof.
  induction l1 as [|e l1 IH]; [reflexivity |].
  destruct e; simpl; now rewrite ?IH.
Qed.

Lemma operations_unknown_logs (names : list string) :
  operations (unknown_logs names) = [].
Proof.
  induction names as [|name names IH]; [reflexivity |].
  simpl. now destruct (modifierMap !! name).
Qed.

Lemma range_modifierKeys_closed (names modifiers : list string) :
  range_modifierKeys names modifiers =
    Run (unknown_logs names) (Some (modifiers ++ known names)).
Proof.
  revert modifiers; induction names as [|name names IH]; intros modifiers; simpl.
  - unfold mret, run_ret. now rewrite app_nil_r.
  - unfold known. simpl. destruct (modifierMap !! name) as [modifierKey |].
    + rewrite IH. unfold known. now rewrite <- app_assoc.
    + rewrite IH. reflexivity.
Qed.

Lemma keyTapWithModifiers_closed (modifiers : list string) (key : string) :
  keyTapWithModifiers modifiers key =
    Run [KeySleep 100; KeyTap key modifiers; KeyTap "shift" []; Sleep 100] (Some tt).
Proof. reflexivity. Qed.

(** With a captured key, every name of the group goes through the table. *)
Lemma extract_with_key (text group key : string) (m0 m1 m2 m3 m4 m5 : Z) :
  slice text m2 m3 = Some group -> m4 <> -1 -> slice text m4 m5 = Some key ->
  extractModifiersAndKeyFromMatch text [m0; m1; m2; m3; m4; m5] =
    Run (unknown_logs (Split group "+")) (Some (known (Split group "+"), key)).
Proof.
  intros Hgroup Hm4 Hkey. unfold extractModifiersAndKeyFromMatch.
  change (index [m0; m1; m2; m3; m4; m5] 2) with (Run [] (Some m2)).
  change (index [m0; m1; m2; m3; m4; m5] 3) with (Run [] (Some m3)).
  change (index [m0; m1; m2; m3; m4; m5] 4) with (Run [] (Some m4)).
  change (index [m0; m1; m2; m3; m4; m5] 5) with (Run [] (Some m5)).
  rewrite !bind_Run. simpl trace. simpl result. rewrite Hgroup.
  unfold lift. rewrite !bind_Run. simpl trace. simpl result.
  apply Z.eqb_neq in Hm4. rewrite Hm4. simpl negb. cbv iota.
  rewrite Hkey. rewrite !bind_Run. simpl trace; simpl result.
  rewrite range_modifierKeys_closed. rewrite !bind_Run. simpl.
  now rewrite app_nil_r.
Qed.

(** Without one, the last name is looked up for the key and the names
    before it go through the table. *)
Lemma extract_without_key (text : string) (names : list string) (name : string)
    (m0 m1 m2 m3 m5 : Z) :
  slice text m2 m3 = Some (Join (names ++ [name]) "+") ->
  Forall (fun n => contains "+" n = false) (names ++ [name]) ->
  extractModifiersAndKeyFromMatch text [m0; m1; m2; m3; -1; m5] =
    Run (unknown_logs names) (Some (known names, default "" (modifierMap !! name))).
Proof.
  intros Hgroup Hnames. unfold extractModifiersAndKeyFromMatch.
  change (index [m0; m1; m2; m3; -1; m5] 2) with (Run [] (Some m2)).
  change (index [m0; m1; m2; m3; -1; m5] 3) with (Run [] (Some m3)).
  change (index [m0; m1; m2; m3; -1; m5] 4) with (Run [] (Some (-1))).
  rewrite !bind_Run. simpl trace. simpl result. rewrite Hgroup.
  unfold lift. rewrite !bind_Run. simpl trace. simpl result.
  rewrite Split_Join by (try exact Hnames; now destruct names).
  change (negb (-1 =? -1)) with false. cbv iota.
  unfold index.
  replace (0 <=? Z.of_nat (length (names ++ [name])) - 1) with true
    by (symmetry; apply Z.leb_le; rewrite length_app; simpl; lia).
  replace (Z.to_nat (Z.of_nat (length (names ++ [name])) - 1)) with (length names)
    by (rewrite length_app; simpl; lia).
  rewrite list_lookup_middle by reflexivity.
  rewrite take_app_length.
  unfold lift. rewrite !bind_Run. simpl trace; simpl result.
  rewrite range_modifierKeys_closed. rewrite !bind_Run. simpl.
  now rewrite app_nil_r.
Qed.

Lemma simulateTyping_unfold (text : string) :
  simulateTyping text =
    range_matches text (FindAllStringSubmatchIndex keyTapPattern text) 0
      ≫= type_remainder text.
Proof. reflexivity. Qed.

Lemma no_rbrace (group : string) :
  contains "}" group = false -> all_bytes not_rbrace group = true.
Proof.
  induction group as [|a group IH]; simpl; [reflexivity |].
  intros H. apply orb_false_iff in H as [Ha Hg]. rewrite (IH Hg), andb_true_r.
  destruct (not_rbrace a) eqn:E; [reflexivity |].
  apply not_rbrace_false in E as ->. discriminate Ha.
Qed.

Lemma after_separator_bounds (pos : Z) (s : string) :
  pos <= after_separator pos s <= pos + len s.
Proof.
  destruct s as [|a s]; simpl; [unfold len; simpl; lia |].
  rewrite len_String. pose proof (len_nonneg s). destruct (separator a); lia.
Qed.

(** The lexer on a combo group. *)
Lemma scan_group (pos : Z) (group after : string) :
  group <> "" -> contains "}" group = false ->
  scan pos ("{" +:+ group +:+ "}" +:+ after) = Some (group_match pos group after).
Proof.
  intros Hne Hgroup.
  change ("{" +:+ group +:+ "}" +:+ after) with (String "{" (group +:+ String "}" after)).
  unfold scan, group_match. cbv beta iota.
  rewrite Ascii.eqb_refl, span_app by (try reflexivity; now apply no_rbrace).
  simpl fst; simpl snd. destruct group as [|b group]; [congruence |].
  now destruct (key_suffix after) as [[key after'] |].
Qed.

Lemma group_match_end (pos : Z) (group after : string) :
  pos + 2 + len group <= group_match pos group after !!! 1%nat.
Proof.
  unfold group_match. destruct (key_suffix after) as [[key after'] |]; simpl.
  - pose proof (after_separator_bounds (pos + 1 + len group + 2 + len key) after').
    pose proof (len_nonneg key).
    set (e := after_separator _ _) in *. lia.
  - pose proof (after_separator_bounds (pos + 1 + len group + 1) after).
    set (e := after_separator _ _) in *. lia.
Qed.

Lemma FindAll_group (group after : string) :
  group <> "" -> contains "}" group = false ->
  let text := "{" +:+ group +:+ "}" +:+ after in
  let m := group_match 0 group after in
  FindAllStringSubmatchIndex keyTapPattern text =
    m :: allMatches keyTapPattern text (String.length text) (m !!! 1%nat) (m !!! 1%nat).
Proof.
  intros Hne Hgroup text m. rewrite FindAll_unfold, search_unfold.
  unfold text at 1. rewrite (scan_group 0 group after Hne Hgroup). fold m.
  cbv zeta. pose proof (group_match_end 0 group after) as H. fold m in H.
  pose proof (len_nonneg group).
  replace (m !!! 1%nat =? 0) with false by (symmetry; apply Z.eqb_neq; lia).
  reflexivity.
Qed.

Lemma range_matches_cons (text : string) (match_ : list Z) (rest : list (list Z))
    (lastIndex : Z) :
  range_matches text (match_ :: rest) lastIndex =
    (m0 ← index match_ 0;
     (if negb (lastIndex =? m0) then
        before ← lift (slice text lastIndex m0);
        emit (Fprintln [Str "righthand: typing text:"; Str before]) ;;
        emit (TypeStr before)
      else mret tt) ;;
     m1 ← index match_ 1;
     '(modifiers, key) ← extractModifiersAndKeyFromMatch text match_;
     keyTapWithModifiers modifiers key ;;
     range_matches text rest (m1 + 1)).
Proof. reflexivity. Qed.

(** The first iteration of the loop on a match at offset 0. *)
Lemma range_matches_first (text : string) (m1 m2 m3 m4 m5 : Z)
    (later : list (list Z)) (logs : list event) (modifiers : list string) (key : string) :
  extractModifiersAndKeyFromMatch text [0; m1; m2; m3; m4; m5]
    = Run logs (Some (modifiers, key)) ->
  range_matches text ([0; m1; m2; m3; m4; m5] :: later) 0 =
    Run (logs ++ [KeySleep 100; KeyTap key modifiers; KeyTap "shift" []; Sleep 100]
           ++ trace (range_matches text later (m1 + 1)))
        (result (range_matches text later (m1 + 1))).
Proof.
  intros Hextract. rewrite range_matches_cons.
  change (index [0; m1; m2; m3; m4; m5] 0) with (Run [] (Some 0)).
  change (index [0; m1; m2; m3; m4; m5] 1) with (Run [] (Some m1)).
  rewrite bind_Run. cbn [trace result app negb Z.eqb]. rewrite bind_ret, bind_Run.
  cbn [trace result app]. rewrite Hextract, bind_Run. cbn [trace result].
  rewrite keyTapWithModifiers_closed, bind_Run. cbn [trace result].
  reflexivity.
Qed.

Lemma key_suffix_Some (s key s' : string) :
  key_suffix s = Some (key, s') ->
  s = "+" +:+ key +:+ s' /\ key <> ""
  /\ all_bytes key_byte key = true /\ stops_at key_byte s' = true.
Proof.
  destruct s as [|a s]; [discriminate |]. unfold key_suffix.
  destruct (Ascii.eqb_spec a "+") as [-> | _]; [| discriminate].
  destruct (span_spec key_byte s) as (Es & Hkey & Hs').
  destruct (span key_byte s) as [[|b k] r]; simpl fst in *; simpl snd in *;
    [discriminate |].
  intros [= <- <-]. repeat split; [| congruence | exact Hkey | exact Hs'].
  now rewrite Es at 1.
Qed.

Lemma key_suffix_intro (key s' : string) :
  key <> "" -> all_bytes key_byte key = true -> stops_at key_byte s' = true ->
  key_suffix ("+" +:+ key +:+ s') = Some (key, s').
Proof.
  intros Hne Hkey Hs'. change ("+" +:+ key +:+ s') with (String "+" (key +:+ s')).
  unfold key_suffix. rewrite Ascii.eqb_refl, (span_app _ _ _ Hkey Hs').
  now destruct key.
Qed.

(** The group of a combo group at the start of the text is what stands
    between the braces. *)
Lemma slice_group (group after : string) :
  slice ("{" +:+ group +:+ "}" +:+ after) (0 + 1) (0 + 1 + len group) = Some group.
Proof. apply (slice_app "{" group ("}" +:+ after)). Qed.

Lemma slice_key (group key after : string) :
  slice ("{" +:+ group +:+ "}" +:+ "+" +:+ key +:+ after)
    (0 + 1 + len group + 2) (0 + 1 + len group + 2 + len key) = Some key.
Proof.
  pose proof (slice_app ("{" +:+ group +:+ "}+") key after) as H.
  rewrite !append_assoc in H. simpl in H.
  replace (len (String "{" (group +:+ "}+"))) with (0 + 1 + len group + 2) in H
    by (rewrite len_String, len_append; change (len "}+") with 2; lia).
  exact H.
Qed.

(** A directive that starts with a combo group: the group is pressed
    first, whatever the text goes on with. *)
Lemma simulateTyping_group (group after : string) (logs : list event)
    (modifiers : list string) (key : string) :
  group <> "" -> contains "}" group = false ->
  let text := "{" +:+ group +:+ "}" +:+ after in
  extractModifiersAndKeyFromMatch text (group_match 0 group after)
    = Run logs (Some (modifiers, key)) ->
  exists next : run unit,
    simulateTyping text =
      Run (logs ++ [KeySleep 100; KeyTap key modifiers; KeyTap "shift" []; Sleep 100]
             ++ trace next)
          (result next).
Proof.
  intros Hne Hgroup text Hextract.
  set (m := group_match 0 group after) in *.
  exists (range_matches text
            (allMatches keyTapPattern text (String.length text) (m !!! 1%nat) (m !!! 1%nat))
            (m !!! 1%nat + 1)
          ≫= type_remainder text).
  rewrite simulateTyping_unfold.
  pose proof (FindAll_group group after Hne Hgroup) as HF. cbv zeta in HF.
  fold text in HF. fold m in HF. rewrite HF. clear HF.
  assert (Hm : exists m1 m2 m3 m4 m5, m = [0; m1; m2; m3; m4; m5]).
  { unfold m, group_match. destruct (key_suffix after) as [[k a'] |]; eauto 6. }
  destruct Hm as (m1 & m2 & m3 & m4 & m5 & Em). rewrite Em in *.
  rewrite (range_matches_first _ _ _ _ _ _ _ _ _ _ Hextract).
  apply run_eq.
  - rewrite !trace_bind. cbn [trace result].
    change (_ !!! 1%nat) with m1. now rewrite <- !app_assoc.
  - rewrite !result_bind. reflexivity.
Qed.

(** The two cases of [extractModifiersAndKeyFromMatch] on such a group. *)
Lemma extract_group_without_key (names : list string) (name after : string) :
  Forall is_name (names ++ [name]) -> key_suffix after = None ->
  let group := Join (names ++ [name]) "+" in
  extractModifiersAndKeyFromMatch ("{" +:+ group +:+ "}" +:+ after)
      (group_match 0 group after)
    = Run (unknown_logs names) (Some (known names, default "" (modifierMap !! name))).
Proof.
  intros Hnames Hafter group. unfold group_match. rewrite Hafter.
  apply extract_without_key; [apply slice_group |].
  eapply Forall_impl; [exact Hnames | now intros n [Hn _]].
Qed.

Lemma extract_group_with_key (names : list string) (key after : string) :
  names <> [] -> Forall is_name names ->
  key <> "" -> all_bytes key_byte key = true -> stops_at key_byte after = true ->
  let group := Join names "+" in
  extractModifiersAndKeyFromMatch ("{" +:+ group +:+ "}" +:+ "+" +:+ key +:+ after)
      (group_match 0 group ("+" +:+ key +:+ after))
    = Run (unknown_logs names) (Some (known names, key)).
Proof.
  intros Hne Hnames Hk Hkey Hafter group. unfold group_match.
  rewrite (key_suffix_intro key after Hk Hkey Hafter).
  pose proof (len_nonneg group).
  rewrite (extract_with_key _ group key);
    [| apply slice_group | lia | apply slice_key].
  unfold group. rewrite Split_Join; [reflexivity | exact Hne |].
  eapply Forall_impl; [exact Hnames | now intros n [Hn _]].
Qed.

Lemma is_name_Join (names : list string) :
  Forall is_name names -> contains "}" (Join names "+") = false.
Proof.
  intros H. apply contains_Join; [discriminate |].
  eapply Forall_impl; [exact H | now intros n [_ Hn]].
Qed.

(** The table, entry by entry. *)
Lemma modifierMap_lookup (name : string) :
  match modifierMap !! name with
  | Some key =>
      (name, key) ∈ [("Command", "command"); ("Shift", "shift"); ("Option", "alt");
                      ("Control", "ctrl"); ("Tab", "tab"); ("Enter", "enter")]
  | None => name ∉ ["Command"; "Shift"; "Option"; "Control"; "Tab"; "Enter"]
  end.
Proof.
  destruct (modifierMap !! name) as [key|] eqn:E; unfold modifierMap in E.
  - repeat (apply lookup_insert_Some in E as [[<- <-] | [_ E]];
              [apply list_elem_of_In; simpl; auto 10 |]).
    now rewrite lookup_empty in E.
  - repeat (apply lookup_insert_None in E as [E ?]).
    intros Hin%list_elem_of_In. simpl in Hin. intuition congruence.
Qed.

End SynthFacts.

(** ** The synthesizer: directives without and with combo groups *)

Section Synthesizer.
Import GoString GoStringFacts LexerFacts SynthFacts.

(** A directive in which the lexer finds no group is typed as it is, and
    an empty one is not typed at all. *)
Lemma simulateTyping_no_match (text : string) :
  FindAllStringSubmatchIndex keyTapPattern text = [] ->
  simulateTyping text =
    match text with
    | "" => Run [] (Some tt)
    | _ => Run [Fprintln [Str "righthand: typing remainder of text:"; Str text];
                Sleep 100; TypeStr text] (Some tt)
    end.
Proof.
  intros H. rewrite simulateTyping_unfold, H. simpl range_matches.
  rewrite bind_ret. unfold type_remainder. destruct text as [|a text]; [reflexivity |].
  replace (0 <? len (String a text)) with true
    by (symmetry; apply Z.ltb_lt; rewrite len_String; pose proof (len_nonneg text); lia).
  now rewrite slice_whole.
Qed.

(** A directive that starts with a combo group without a key after it. *)
Lemma group_without_key (names : list string) (name after : string) :
  Forall is_name (names ++ [name]) ->
  Join (names ++ [name]) "+" <> "" ->
  key_suffix after = None ->
  let group := Join (names ++ [name]) "+" in
  let text := "{" +:+ group +:+ "}" +:+ after in
  let match_ := group_match 0 group after in
  (exists matches, FindAllStringSubmatchIndex keyTapPattern text = match_ :: matches)
  /\ match_ !! 4%nat = Some (-1)
  /\ extractModifiersAndKeyFromMatch text match_
       = Run (unknown_logs names) (Some (known names, default "" (modifierMap !! name)))
  /\ exists next : run unit,
       simulateTyping text =
         Run (unknown_logs names
                ++ [KeySleep 100; KeyTap (default "" (modifierMap !! name)) (known names);
                    KeyTap "shift" []; Sleep 100]
                ++ trace next)
             (result next).
Proof.
  intros Hnames Hne Hafter group text match_.
  pose proof (is_name_Join _ Hnames) as Hgroup.
  pose proof (extract_group_without_key names name after Hnames Hafter) as Hextract.
  cbv zeta in Hextract. repeat split.
  - eexists. apply (FindAll_group group after Hne Hgroup).
  - unfold match_, group_match. now rewrite Hafter.
  - exact Hextract.
  - exact (simulateTyping_group group after _ _ _ Hne Hgroup Hextract).
Qed.

(** A directive that starts with a combo group and a key after it, in
    letters and the digits 1 to 9. *)
Lemma group_with_key (names : list string) (key after : string) :
  Forall is_name names -> Join names "+" <> "" ->
  key <> "" -> all_bytes key_byte key = true -> stops_at key_byte after = true ->
  let group := Join names "+" in
  let text := "{" +:+ group +:+ "}" +:+ "+" +:+ key +:+ after in
  let match_ := group_match 0 group ("+" +:+ key +:+ after) in
  (exists matches, FindAllStringSubmatchIndex keyTapPattern text = match_ :: matches)
  /\ extractModifiersAndKeyFromMatch text match_
       = Run (unknown_logs names) (Some (known names, key))
  /\ exists next : run unit,
       simulateTyping text =
         Run (unknown_logs names
                ++ [KeySleep 100; KeyTap key (known names); KeyTap "shift" []; Sleep 100]
                ++ trace next)
             (result next).
Proof.
  intros Hnames Hne Hk Hkey Hafter group text match_.
  pose proof (is_name_Join _ Hnames) as Hgroup.
  assert (Hnil : names <> []) by (intros ->; now apply Hne).
  pose proof (extract_group_with_key names key after Hnil Hnames Hk Hkey Hafter)
    as Hextract.
  cbv zeta in Hextract. repeat split.
  - eexists. apply (FindAll_group group ("+" +:+ key +:+ after) Hne Hgroup).
  - exact Hextract.
  - exact (simulateTyping_group group _ _ _ _ Hne Hgroup Hextract).
Qed.

Lemma operations_press (logs : list event) (modifiers : list string) (key : string)
    (rest : list event) :
  operations logs = [] ->
  operations (logs ++ [KeySleep 100; KeyTap key modifiers; KeyTap "shift" []; Sleep 100]
                ++ rest)
    = PressCombo modifiers key :: PressCombo [] "shift" :: operations rest.
Proof. intros H. rewrite operations_app, H. reflexivity. Qed.

End Synthesizer.

Module ShiftFacts.
Import GoString GoStringFacts LexerFacts SynthFacts.

Lemma after_separator_shift (pos d : Z) (s : string) :
  after_separator (pos + d) s = after_separator pos s + d.
Proof. destruct s as [|a s]; simpl; [reflexivity |]. destruct (separator a); lia. Qed.

Lemma shift_entry (d x : Z) : 0 <= x -> (if x =? -1 then -1 else x + d) = x + d.
Proof. intros H. now replace (x =? -1) with false by (symmetry; apply Z.eqb_neq; lia). Qed.

(** The shape and the bounds of a match. *)
Lemma scan_Some (pos : Z) (s : string) (m : list Z) :
  scan pos s = Some m ->
  exists m1 m3 m4 m5,
    m = [pos; m1; pos + 1; m3; m4; m5]
    /\ pos + 3 <= m1 <= pos + len s /\ pos + 1 < m3
    /\ (m4 = -1 /\ m5 = -1 \/ pos + 1 < m4 /\ pos + 1 < m5).
Proof.
  unfold scan. destruct s as [|a s1]; [discriminate |].
  destruct (Ascii.eqb a "{"); [| discriminate].
  destruct (span_spec not_rbrace s1) as (Es1 & _ & _).
  destruct (span not_rbrace s1) as [group s2]. simpl fst in *; simpl snd in *.
  destruct group as [|b group]; [discriminate |].
  destruct s2 as [|c s3]; [discriminate |].
  assert (Hlen : len (String a s1) = 1 + len (String b group) + 1 + len s3).
  { rewrite (len_String a), Es1, len_append, (len_String c). lia. }
  pose proof (len_nonneg group) as Hg. pose proof (len_String b group) as Hb.
  destruct (key_suffix s3) as [[key s5] |] eqn:Ekey; intros [= <-].
  - apply key_suffix_Some in Ekey as (Es3 & Hk & _ & _).
    pose proof (after_separator_bounds (pos + 1 + len (String b group) + 2 + len key) s5).
    assert (0 < len key) by (destruct key; [congruence | rewrite len_String;
                                                       pose proof (len_nonneg key); lia]).
    assert (len s3 = 1 + len key + len s5)
      by (rewrite Es3; change ("+" +:+ key +:+ s5) with (String "+" (key +:+ s5));
          rewrite len_String, len_append; lia).
    do 4 eexists. split; [reflexivity |].
    set (e := after_separator _ _) in *. lia.
  - pose proof (after_separator_bounds (pos + 1 + len (String b group) + 1) s3).
    do 4 eexists. split; [reflexivity |].
    set (e := after_separator _ _) in *. lia.
Qed.

Lemma vector_eq (a0 a1 a2 a3 a4 a5 b0 b1 b2 b3 b4 b5 : Z) :
  a0 = b0 -> a1 = b1 -> a2 = b2 -> a3 = b3 -> a4 = b4 -> a5 = b5 ->
  Some [a0; a1; a2; a3; a4; a5] = Some [b0; b1; b2; b3; b4; b5].
Proof. congruence. Qed.

Lemma after_separator_entry (pos d : Z) (s : string) :
  0 <= pos ->
  (if after_separator pos s =? -1 then -1 else after_separator pos s + d)
    = after_separator (pos + d) s.
Proof.
  intros H. pose proof (after_separator_bounds pos s).
  rewrite shift_entry by lia. now rewrite after_separator_shift.
Qed.

Lemma scan_shift (pos d : Z) (s : string) :
  0 <= pos -> scan (pos + d) s = shift d <$> scan pos s.
Proof.
  intros Hpos. unfold scan. destruct s as [|a s1]; [reflexivity |].
  destruct (Ascii.eqb a "{"); [| reflexivity].
  destruct (span not_rbrace s1) as [group s2]. simpl fst; simpl snd.
  destruct group as [|b group]; [reflexivity |].
  destruct s2 as [|c s3]; [reflexivity |].
  pose proof (len_nonneg (String b group)).
  destruct (key_suffix s3) as [[key s5] |]; simpl; unfold shift; simpl map.
  - pose proof (len_nonneg key).
    rewrite after_separator_entry, !shift_entry by lia.
    apply vector_eq; try lia. f_equal. lia.
  - rewrite after_separator_entry, !shift_entry by lia.
    apply vector_eq; try lia. f_equal. lia.
Qed.

Lemma search_shift (pos d : Z) (s : string) :
  0 <= pos -> search keyTapPattern (pos + d) s = shift d <$> search keyTapPattern pos s.
Proof.
  revert pos; induction s as [|a s IH]; intros pos Hpos;
    rewrite (search_unfold (pos + d)), (search_unfold pos), scan_shift by exact Hpos.
  - now destruct (scan pos "").
  - destruct (scan pos (String a s)); [reflexivity |]. simpl.
    replace (pos + d + 1) with (pos + 1 + d) by lia. apply IH. lia.
Qed.

Lemma search_Some (pos : Z) (s : string) (m : list Z) :
  0 <= pos -> search keyTapPattern pos s = Some m ->
  exists m0 m1 m2 m3 m4 m5,
    m = [m0; m1; m2; m3; m4; m5]
    /\ pos <= m0 /\ m0 + 3 <= m1 <= pos + len s /\ 0 <= m2 /\ 0 <= m3
    /\ (m4 = -1 /\ m5 = -1 \/ 0 <= m4 /\ 0 <= m5).
Proof.
  revert pos; induction s as [|a s IH]; intros pos Hpos; rewrite search_unfold.
  - destruct (scan pos "") eqn:E; [| discriminate]. discriminate E.
  - destruct (scan pos (String a s)) as [m' |] eqn:E.
    + intros [= <-].
      destruct (scan_Some _ _ _ E) as (m1 & m3 & m4 & m5 & -> & Hm1 & Hm3 & Hm45).
      exists pos, m1, (pos + 1), m3, m4, m5. repeat split; try lia.
    + intros Hs. destruct (IH (pos + 1) ltac:(lia) Hs)
        as (m0 & m1 & m2 & m3 & m4 & m5 & -> & H0 & H1 & H2 & H3 & H45).
      exists m0, m1, m2, m3, m4, m5. rewrite len_String. repeat split; try lia.
Qed.

Lemma shift_well_formed (d : Z) (m0 m1 m2 m3 m4 m5 : Z) :
  0 <= m0 -> 0 <= m1 -> 0 <= m2 -> 0 <= m3 ->
  m4 = -1 /\ m5 = -1 \/ 0 <= m4 /\ 0 <= m5 ->
  exists s4 s5,
    shift d [m0; m1; m2; m3; m4; m5] = [m0 + d; m1 + d; m2 + d; m3 + d; s4; s5]
    /\ (m4 = -1 /\ m5 = -1 /\ s4 = -1 /\ s5 = -1
        \/ 0 <= m4 /\ 0 <= m5 /\ s4 = m4 + d /\ s5 = m5 + d).
Proof.
  intros H0 H1 H2 H3 H45. unfold shift. simpl map.
  rewrite (shift_entry d m0), (shift_entry d m1), (shift_entry d m2),
    (shift_entry d m3) by lia.
  destruct H45 as [(-> & ->) | (H4 & H5)].
  - do 2 eexists. split; [reflexivity |]. left. auto.
  - do 2 eexists. split; [reflexivity |]. right.
    rewrite (shift_entry d m4), (shift_entry d m5) by lia. auto.
Qed.

Lemma shift_shift (d e : Z) (match_ : list Z) :
  0 <= e -> well_formed match_ -> shift d (shift e match_) = shift (e + d) match_.
Proof.
  intros He (m0 & m1 & m2 & m3 & m4 & m5 & -> & H0 & H1 & H2 & H3 & H45).
  destruct (shift_well_formed e m0 m1 m2 m3 m4 m5 H0 H1 H2 H3 H45)
    as (s4 & s5 & -> & Hs).
  destruct (shift_well_formed (e + d) m0 m1 m2 m3 m4 m5 H0 H1 H2 H3 H45)
    as (t4 & t5 & -> & Ht).
  assert (Hs45 : s4 = -1 /\ s5 = -1 \/ 0 <= s4 /\ 0 <= s5).
  { destruct Hs as [(_ & _ & -> & ->) | (? & ? & -> & ->)]; [now left | right; lia]. }
  destruct (shift_well_formed d (m0 + e) (m1 + e) (m2 + e) (m3 + e) s4 s5
              ltac:(lia) ltac:(lia) ltac:(lia) ltac:(lia) Hs45)
    as (r4 & r5 & -> & Hr).
  assert (r4 = t4 /\ r5 = t5) as [-> ->].
  { destruct Hs as [(-> & -> & -> & ->) | (? & ? & -> & ->)];
      destruct Ht as [(? & ? & -> & ->) | (? & ? & -> & ->)];
      destruct Hr as [(? & ? & -> & ->) | (? & ? & -> & ->)]; lia. }
  now rewrite <- !Z.add_assoc.
Qed.

Lemma allMatches_S (text : string) (n : nat) (pos prevMatchEnd : Z) :
  allMatches keyTapPattern text (S n) pos prevMatchEnd =
    if pos <=? len text then
      match search keyTapPattern pos (skip_bytes (Z.to_nat pos) text) with
      | None => []
      | Some m =>
          if m !!! 1%nat =? pos then
            if m !!! 0%nat =? prevMatchEnd
            then allMatches keyTapPattern text n (pos + 1) (m !!! 1%nat)
            else m :: allMatches keyTapPattern text n (pos + 1) (m !!! 1%nat)
          else m :: allMatches keyTapPattern text n (m !!! 1%nat) (m !!! 1%nat)
      end
    else [].
Proof. reflexivity. Qed.

Lemma allMatches_well_formed (text : string) (n : nat) (pos prevMatchEnd : Z) :
  0 <= pos -> Forall well_formed (allMatches keyTapPattern text n pos prevMatchEnd).
Proof.
  revert pos prevMatchEnd; induction n as [|n IH]; intros pos prev Hpos; [constructor |].
  rewrite allMatches_S. destruct (pos <=? len text); [| constructor].
  destruct (search _ _ _) as [m |] eqn:E; [| constructor].
  destruct (search_Some _ _ _ Hpos E)
    as (m0 & m1 & m2 & m3 & m4 & m5 & -> & H0 & H1 & H2 & H3 & H45).
  assert (Hm : well_formed [m0; m1; m2; m3; m4; m5]).
  { exists m0, m1, m2, m3, m4, m5. split; [reflexivity |].
    split; [lia |]. split; [lia |]. split; [lia |]. split; [lia | exact H45]. }
  change ([m0; m1; m2; m3; m4; m5] !!! 1%nat) with m1.
  change ([m0; m1; m2; m3; m4; m5] !!! 0%nat) with m0.
  destruct (m1 =? pos); [destruct (m0 =? prev) |];
    repeat constructor; try exact Hm; apply IH; lia.
Qed.

Lemma length_first (n : nat) (s : string) :
  (n <= String.length s)%nat -> String.length (first_bytes n s) = n.
Proof.
  revert s; induction n as [|n IH]; intros [|a s] H; simpl in *; try lia.
  now rewrite IH by lia.
Qed.

(** The matches after a prefix are the matches of the rest of the text,
    moved by the length of the prefix. *)
Lemma allMatches_suffix (pre u : string) (n n' : nat) (prev prev' : Z) :
  (String.length u < n)%nat -> (String.length u < n')%nat ->
  allMatches keyTapPattern (pre +:+ u) n (len pre) prev
    = map (shift (len pre)) (allMatches keyTapPattern u n' 0 prev').
Proof.
  remember (String.length u) as k eqn:Ek.
  revert u Ek pre n n' prev prev'.
  induction k as [k IH] using lt_wf_ind. intros u Ek pre n n' prev prev' Hn Hn'.
  destruct n as [|n]; [lia |]. destruct n' as [|n']; [lia |].
  rewrite !allMatches_S.
  pose proof (len_nonneg pre) as Hpre. pose proof (len_nonneg u) as Hu.
  replace (len pre <=? len (pre +:+ u)) with true
    by (symmetry; apply Z.leb_le; rewrite len_append; lia).
  replace (0 <=? len u) with true by (symmetry; apply Z.leb_le; lia).
  replace (Z.to_nat (len pre)) with (String.length pre) by (unfold len; lia).
  rewrite skip_append. change (skip_bytes (Z.to_nat 0) u) with (skip_bytes 0 u).
  rewrite skip_zero.
  replace (len pre) with (0 + len pre) at 1 by lia.
  rewrite search_shift by lia.
  destruct (search keyTapPattern 0 u) as [m |] eqn:E; [| reflexivity].
  destruct (search_Some 0 u _ ltac:(lia) E)
    as (m0 & m1 & m2 & m3 & m4 & m5 & -> & H0 & H1 & H2 & H3 & H45).
  destruct (shift_well_formed (len pre) m0 m1 m2 m3 m4 m5
              ltac:(lia) ltac:(lia) ltac:(lia) ltac:(lia) H45) as (s4 & s5 & Es & _).
  change (shift (len pre) <$> Some [m0; m1; m2; m3; m4; m5])
    with (Some (shift (len pre) [m0; m1; m2; m3; m4; m5])).
  rewrite Es. cbv iota.
  change ([m0; m1; m2; m3; m4; m5] !!! 1%nat) with m1.
  change ([m0 + len pre; m1 + len pre; m2 + len pre; m3 + len pre; s4; s5] !!! 1%nat)
    with (m1 + len pre).
  replace (m1 + len pre =? len pre) with false by (symmetry; apply Z.eqb_neq; lia).
  replace (m1 =? 0) with false by (symmetry; apply Z.eqb_neq; lia).
  change (map (shift (len pre)) (?x :: ?l))
    with (shift (len pre) x :: map (shift (len pre)) l).
  rewrite Es. f_equal.
  set (u1 := first_bytes (Z.to_nat m1) u). set (u' := skip_bytes (Z.to_nat m1) u).
  assert (Eu : u = u1 +:+ u') by (symmetry; apply first_skip).
  assert (Hu1 : len u1 = m1).
  { unfold len, u1. rewrite length_first; unfold len in *; lia. }
  assert (Hu' : (String.length u' < k)%nat).
  { unfold u'. rewrite length_skip. unfold len in *. lia. }
  assert (Hfuel : (String.length u' < n /\ String.length u' < n')%nat) by lia.
  pose proof (IH (String.length u') Hu' u' eq_refl u1 n' (S (String.length u')) m1 (-1)
                ltac:(lia) ltac:(lia)) as HR.
  rewrite <- Eu, Hu1 in HR.
  pose proof (IH (String.length u') Hu' u' eq_refl (pre +:+ u1) n (S (String.length u'))
                (len pre + m1) (-1) ltac:(lia) ltac:(lia)) as HL.
  rewrite append_assoc, <- Eu, len_append, Hu1 in HL.
  rewrite HR. replace (m1 + len pre) with (len pre + m1) by lia. rewrite HL.
  rewrite map_map. apply map_ext_Forall.
  eapply Forall_impl; [apply allMatches_well_formed; lia |].
  intros m Hm. cbv beta. rewrite shift_shift by (lia || exact Hm).
  f_equal. lia.
Qed.

(** A slice behind a prefix is a slice of the rest. *)
Lemma slice_prefix (pre u : string) (x y : Z) :
  0 <= x -> slice (pre +:+ u) (x + len pre) (y + len pre) = slice u x y.
Proof.
  intros Hx. unfold slice. pose proof (len_nonneg pre). rewrite len_append.
  replace (0 <=? x + len pre) with true by (symmetry; apply Z.leb_le; lia).
  replace (0 <=? x) with true by (symmetry; apply Z.leb_le; lia).
  replace (x + len pre <=? y + len pre) with (x <=? y)
    by (destruct (Z.leb_spec x y), (Z.leb_spec (x + len pre) (y + len pre)); lia).
  replace (y + len pre <=? len pre + len u) with (y <=? len u)
    by (destruct (Z.leb_spec y (len u)), (Z.leb_spec (y + len pre) (len pre + len u)); lia).
  destruct (true && (x <=? y) && (y <=? len u)); [| reflexivity].
  replace (y + len pre - (x + len pre)) with (y - x) by lia.
  replace (Z.to_nat (x + len pre)) with (String.length pre + Z.to_nat x)%nat
    by (unfold len; lia).
  now rewrite <- skip_skip, skip_append.
Qed.

Lemma extract_shift (pre u : string) (match_ : list Z) :
  well_formed match_ ->
  extractModifiersAndKeyFromMatch (pre +:+ u) (shift (len pre) match_)
    = extractModifiersAndKeyFromMatch u match_.
Proof.
  intros (m0 & m1 & m2 & m3 & m4 & m5 & -> & H0 & H1 & H2 & H3 & H45).
  destruct (shift_well_formed (len pre) m0 m1 m2 m3 m4 m5 H0 H1 H2 H3 H45)
    as (s4 & s5 & -> & Hs).
  unfold extractModifiersAndKeyFromMatch.
  change (index [?a0; ?a1; ?a2; ?a3; ?a4; ?a5] 2) with (mret a2 : run Z).
  change (index [?a0; ?a1; ?a2; ?a3; ?a4; ?a5] 3) with (mret a3 : run Z).
  change (index [?a0; ?a1; ?a2; ?a3; ?a4; ?a5] 4) with (mret a4 : run Z).
  change (index [?a0; ?a1; ?a2; ?a3; ?a4; ?a5] 5) with (mret a5 : run Z).
  rewrite !bind_ret, (slice_prefix pre u m2 m3 H2).
  destruct Hs as [(-> & -> & -> & ->) | (H4 & H5 & -> & ->)]; [reflexivity |].
  destruct (slice u m2 m3) as [group |]; [| reflexivity].
  change (lift (Some group)) with (mret group : run string).
  rewrite !bind_ret.
  replace (m4 + len pre =? -1) with false
    by (symmetry; apply Z.eqb_neq; pose proof (len_nonneg pre); lia).
  replace (m4 =? -1) with false by (symmetry; apply Z.eqb_neq; lia).
  cbv [negb]. cbv iota.
  now rewrite (slice_prefix pre u m4 m5 H4).
Qed.

Lemma type_before_shift (pre u : string) (lastIndex m0 : Z) :
  0 <= lastIndex ->
  type_before (pre +:+ u) (lastIndex + len pre) (m0 + len pre) = type_before u lastIndex m0.
Proof.
  intros H. unfold type_before. rewrite slice_prefix by exact H.
  now replace (lastIndex + len pre =? m0 + len pre) with (lastIndex =? m0)
    by (destruct (Z.eqb_spec lastIndex m0), (Z.eqb_spec (lastIndex + len pre) (m0 + len pre));
        lia).
Qed.

Lemma type_remainder_shift (pre u : string) (lastIndex : Z) :
  0 <= lastIndex ->
  type_remainder (pre +:+ u) (lastIndex + len pre) = type_remainder u lastIndex.
Proof.
  intros H. unfold type_remainder, slice_from. rewrite len_append.
  replace (len pre + len u) with (len u + len pre) by lia.
  rewrite slice_prefix by exact H.
  now replace (lastIndex + len pre <? len u + len pre) with (lastIndex <? len u)
    by (destruct (Z.ltb_spec lastIndex (len u)),
          (Z.ltb_spec (lastIndex + len pre) (len u + len pre)); lia).
Qed.

(** One iteration of the loop of [simulateTyping], on a capture vector. *)
Lemma range_matches_vector (text : string) (m0 m1 m2 m3 m4 m5 : Z)
    (rest : list (list Z)) (lastIndex : Z) :
  range_matches text ([m0; m1; m2; m3; m4; m5] :: rest) lastIndex =
    (type_before text lastIndex m0 ;;
     '(modifiers, key) ← extractModifiersAndKeyFromMatch text [m0; m1; m2; m3; m4; m5];
     keyTapWithModifiers modifiers key ;;
     range_matches text rest (m1 + 1)).
Proof.
  rewrite range_matches_cons.
  change (index [m0; m1; m2; m3; m4; m5] 0) with (mret m0 : run Z).
  change (index [m0; m1; m2; m3; m4; m5] 1) with (mret m1 : run Z).
  rewrite bind_ret. unfold type_before. f_equal.
Qed.

Lemma moved_bind {A} (d : Z) (m : run A) (f g : A -> run Z) :
  (forall a, moved d (f a) (g a)) -> moved d (m ≫= f) (m ≫= g).
Proof.
  intros H. unfold moved. rewrite !trace_bind, !result_bind.
  destruct (result m) as [a |].
  - destruct (H a) as [-> Hres]. split; [reflexivity | exact Hres].
  - split; [reflexivity | now left].
Qed.

(** The loop behind a prefix does what it does on the rest of the text. *)
Lemma range_matches_shift (pre u : string) (matches : list (list Z)) (lastIndex : Z) :
  Forall well_formed matches -> 0 <= lastIndex ->
  moved (len pre)
    (range_matches (pre +:+ u) (map (shift (len pre)) matches) (lastIndex + len pre))
    (range_matches u matches lastIndex).
Proof.
  intros Hall. revert lastIndex.
  induction Hall as [|match_ rest Hm _ IH]; intros lastIndex Hlast.
  - split; [reflexivity |]. right. exists lastIndex. auto.
  - pose proof (extract_shift pre u match_ Hm) as Hextract.
    destruct Hm as (m0 & m1 & m2 & m3 & m4 & m5 & -> & H0 & H1 & H2 & H3 & H45).
    destruct (shift_well_formed (len pre) m0 m1 m2 m3 m4 m5 H0 H1 H2 H3 H45)
      as (s4 & s5 & Es & _).
    change (map (shift (len pre)) (?x :: ?l))
      with (shift (len pre) x :: map (shift (len pre)) l).
    rewrite Es in *. rewrite !range_matches_vector.
    rewrite Hextract, (type_before_shift pre u lastIndex m0 Hlast).
    apply moved_bind. intros _. apply moved_bind. intros [modifiers key].
    apply moved_bind. intros _.
    replace (m1 + len pre + 1) with (m1 + 1 + len pre) by lia.
    apply IH. lia.
Qed.

Lemma moved_remainder (pre u : string) (r1 r2 : run Z) :
  moved (len pre) r1 r2 ->
  r1 ≫= type_remainder (pre +:+ u) = r2 ≫= type_remainder u.
Proof.
  intros (Htrace & Hres). apply run_eq.
  - rewrite !trace_bind, Htrace.
    destruct Hres as [(-> & ->) | (x & Hx & -> & ->)]; [reflexivity |].
    now rewrite type_remainder_shift.
  - rewrite !result_bind.
    destruct Hres as [(-> & ->) | (x & Hx & -> & ->)]; [reflexivity |].
    now rewrite type_remainder_shift.
Qed.

Lemma match_tail_bounds (after : string) : 0 <= match_tail after <= len after.
Proof.
  unfold match_tail. destruct (key_suffix after) as [[key after'] |] eqn:E.
  - apply key_suffix_Some in E as (-> & _ & _ & _).
    pose proof (after_separator_bounds (1 + len key) after').
    pose proof (len_nonneg key).
    change ("+" +:+ key +:+ after') with (String "+" (key +:+ after')).
    rewrite len_String, len_append. lia.
  - pose proof (after_separator_bounds 0 after). lia.
Qed.

Lemma group_match_1 (pos : Z) (group after : string) :
  group_match pos group after !!! 1%nat = pos + 2 + len group + match_tail after.
Proof.
  unfold group_match, match_tail.
  destruct (key_suffix after) as [[key after'] |].
  - change ([?a0; ?a1; ?a2; ?a3; ?a4; ?a5] !!! 1%nat) with a1.
    rewrite (Z.add_comm (pos + 2 + len group)), <- after_separator_shift. f_equal. lia.
  - change ([?a0; ?a1; ?a2; ?a3; ?a4; ?a5] !!! 1%nat) with a1.
    rewrite (Z.add_comm (pos + 2 + len group)), <- after_separator_shift. f_equal. lia.
Qed.

(** A directive that starts with a combo group: after the press, the
    synthesizer goes on with the rest of the text. *)
Lemma simulateTyping_group_rest (group after : string) (logs : list event)
    (modifiers : list string) (key : string) :
  group <> "" -> contains "}" group = false ->
  let text := "{" +:+ group +:+ "}" +:+ after in
  let rest := skip_bytes (Z.to_nat (match_tail after)) after in
  extractModifiersAndKeyFromMatch text (group_match 0 group after)
    = Run logs (Some (modifiers, key)) ->
  simulateTyping text =
    Run (logs ++ [KeySleep 100; KeyTap key modifiers; KeyTap "shift" []; Sleep 100]
           ++ trace (continue_on rest))
        (result (continue_on rest)).
Proof.
  intros Hne Hgroup text rest Hextract.
  pose proof (match_tail_bounds after) as Htail.
  set (c := Z.to_nat (match_tail after)) in *.
  set (pre := "{" +:+ group +:+ "}" +:+ first_bytes c after).
  assert (Etext : text = pre +:+ rest).
  { unfold text, pre, rest. rewrite !append_assoc. now rewrite first_skip. }
  assert (Hpre : len pre = group_match 0 group after !!! 1%nat).
  { rewrite group_match_1. unfold pre.
    change ("{" +:+ group +:+ "}" +:+ first_bytes c after)
      with (String "{" (group +:+ String "}" (first_bytes c after))).
    rewrite len_String, len_append, len_String.
    replace (len (first_bytes c after)) with (Z.of_nat c)
      by (unfold len; rewrite length_first; unfold c, len in *; lia).
    unfold c. lia. }
  rewrite simulateTyping_unfold.
  pose proof (FindAll_group group after Hne Hgroup) as HF. cbv zeta in HF.
  fold text in HF. rewrite HF, <- Hpre. clear HF.
  assert (Hlater : allMatches keyTapPattern text (String.length text) (len pre) (len pre)
                   = map (shift (len pre)) (FindAllStringSubmatchIndex keyTapPattern rest)).
  { rewrite Etext. apply allMatches_suffix; [| lia].
    rewrite length_append. unfold pre. simpl. lia. }
  rewrite Hlater. clear Hlater.
  assert (Hm : exists m2 m3 m4 m5,
             group_match 0 group after = [0; len pre; m2; m3; m4; m5]).
  { rewrite Hpre. unfold group_match.
    destruct (key_suffix after) as [[k a'] |]; eauto 6. }
  destruct Hm as (m2 & m3 & m4 & m5 & Em). rewrite Em in *.
  apply run_eq.
  - rewrite trace_bind, (range_matches_first _ _ _ _ _ _ _ _ _ _ Hextract).
    cbn [trace result]. rewrite <- !app_assoc. do 2 f_equal.
    pose proof (range_matches_shift pre rest
                  (FindAllStringSubmatchIndex keyTapPattern rest) 1
                  (allMatches_well_formed rest _ 0 (-1) ltac:(lia)) ltac:(lia)) as Hmoved.
    rewrite <- Etext in Hmoved. replace (1 + len pre) with (len pre + 1) in Hmoved by lia.
    pose proof (moved_remainder pre rest _ _ Hmoved) as Hrun.
    rewrite <- Etext in Hrun.
    unfold continue_on. rewrite <- Hrun, trace_bind. reflexivity.
  - rewrite result_bind, (range_matches_first _ _ _ _ _ _ _ _ _ _ Hextract).
    cbn [trace result].
    pose proof (range_matches_shift pre rest
                  (FindAllStringSubmatchIndex keyTapPattern rest) 1
                  (allMatches_well_formed rest _ 0 (-1) ltac:(lia)) ltac:(lia)) as Hmoved.
    rewrite <- Etext in Hmoved. replace (1 + len pre) with (len pre + 1) in Hmoved by lia.
    pose proof (moved_remainder pre rest _ _ Hmoved) as Hrun.
    rewrite <- Etext in Hrun.
    unfold continue_on. rewrite <- Hrun, result_bind. reflexivity.
Qed.

Lemma known_app (l1 l2 : list string) : known (l1 ++ l2) = known l1 ++ known l2.
Proof. unfold known. apply omap_app. Qed.

Lemma unknown_logs_app (l1 l2 : list string) :
  unknown_logs (l1 ++ l2) = unknown_logs l1 ++ unknown_logs l2.
Proof.
  induction l1 as [|name l1 IH]; [reflexivity |].
  simpl. destruct (modifierMap !! name); now rewrite IH.
Qed.

End ShiftFacts.

Section UnknownModifier.
Import GoString GoStringFacts LexerFacts SynthFacts ShiftFacts.

Lemma Join_two (names : list string) (sep : ascii) :
  (2 <= length names)%nat -> Join names sep <> "".
Proof.
  destruct names as [|a [|b l]]; simpl length; try lia. intros _.
  change (Join (a :: b :: l) sep) with (a +:+ String sep (Join (b :: l) sep)).
  now destruct a.
Qed.

Lemma known_unknown (before later : list string) (unknown : string) :
  modifierMap !! unknown = None ->
  known (before ++ unknown :: later) = known (before ++ later).
Proof.
  intros H. rewrite !known_app. f_equal. unfold known. simpl. now rewrite H.
Qed.

Lemma unknown_logs_unknown (before later : list string) (unknown : string) :
  modifierMap !! unknown = None ->
  unknown_logs (before ++ unknown :: later)
    = unknown_logs before
        ++ LogPrintf "Unknown modifier: %s" [Str unknown] :: unknown_logs later.
Proof. intros H. rewrite unknown_logs_app. simpl. now rewrite H. Qed.

(** Two directives that start with a combo group and go on alike, pressed
    with the same key and modifiers: the traces differ by the logs only. *)
Lemma same_press (group1 group2 after : string) (logs1 logs2 : list event)
    (modifiers : list string) (key : string) :
  group1 <> "" -> contains "}" group1 = false ->
  group2 <> "" -> contains "}" group2 = false ->
  extractModifiersAndKeyFromMatch ("{" +:+ group1 +:+ "}" +:+ after)
      (group_match 0 group1 after) = Run logs1 (Some (modifiers, key)) ->
  extractModifiersAndKeyFromMatch ("{" +:+ group2 +:+ "}" +:+ after)
      (group_match 0 group2 after) = Run logs2 (Some (modifiers, key)) ->
  exists rest : list event,
    trace (simulateTyping ("{" +:+ group1 +:+ "}" +:+ after)) = logs1 ++ rest
    /\ trace (simulateTyping ("{" +:+ group2 +:+ "}" +:+ after)) = logs2 ++ rest
    /\ result (simulateTyping ("{" +:+ group1 +:+ "}" +:+ after))
       = result (simulateTyping ("{" +:+ group2 +:+ "}" +:+ after))
    /\ exists later_ops,
         operations rest = PressCombo modifiers key :: PressCombo [] "shift" :: later_ops.
Proof.
  intros Hne1 Hg1 Hne2 Hg2 He1 He2.
  rewrite (simulateTyping_group_rest group1 after _ _ _ Hne1 Hg1 He1).
  rewrite (simulateTyping_group_rest group2 after _ _ _ Hne2 Hg2 He2).
  eexists. repeat split. eexists. reflexivity.
Qed.

End UnknownModifier.

Module DispatchFacts.
Import SynthFacts.

Lemma calls_app (l1 l2 : list event) : calls (l1 ++ l2) = calls l1 ++ calls l2.
Proof.
  induction l1 as [|e l1 IH]; [reflexivity |].
  destruct e; simpl; now rewrite ?IH.
Qed.

Lemma quiet_bind {A B} (m : run A) (f : A -> run B) :
  quiet m -> (forall a, quiet (f a)) -> quiet (m ≫= f).
Proof.
  unfold quiet. intros Hm Hf. rewrite trace_bind, calls_app, Hm.
  destruct (result m); [apply Hf | reflexivity].
Qed.

Lemma quiet_index {A} (l : list A) (i : Z) : quiet (index l i).
Proof. unfold quiet, index. now destruct (0 <=? i). Qed.

Lemma quiet_lift {A} (o : option A) : quiet (lift o).
Proof. reflexivity. Qed.

Lemma quiet_ret {A} (a : A) : quiet (mret a).
Proof. reflexivity. Qed.

Lemma quiet_extract (text : string) (match_ : list Z) :
  quiet (extractModifiersAndKeyFromMatch text match_).
Proof.
  unfold extractModifiersAndKeyFromMatch.
  repeat (apply quiet_bind; [first [apply quiet_index | apply quiet_lift] | intros ?]).
  apply quiet_bind.
  - destruct (negb _);
      repeat (apply quiet_bind; [first [apply quiet_index | apply quiet_lift] | intros ?]);
      apply quiet_ret.
  - intros [key modifierKeys]. apply quiet_bind; [| intros; apply quiet_ret].
    rewrite range_modifierKeys_closed. unfold quiet. simpl.
    induction modifierKeys as [|name names IH]; [reflexivity |].
    simpl. now destruct (modifierMap !! name).
Qed.

Lemma quiet_range_matches (text : string) (matches : list (list Z)) (lastIndex : Z) :
  quiet (range_matches text matches lastIndex).
Proof.
  revert lastIndex; induction matches as [|match_ rest IH]; intros lastIndex.
  - apply quiet_ret.
  - rewrite range_matches_cons.
    apply quiet_bind; [apply quiet_index | intros m0].
    apply quiet_bind.
    { destruct (negb _); [| apply quiet_ret].
      apply quiet_bind; [apply quiet_lift | intros before]. reflexivity. }
    intros _. apply quiet_bind; [apply quiet_index | intros m1].
    apply quiet_bind; [apply quiet_extract | intros [modifiers key]].
    apply quiet_bind; [reflexivity | intros _; apply IH].
Qed.

Lemma quiet_simulateTyping (text : string) : quiet (simulateTyping text).
Proof.
  rewrite simulateTyping_unfold.
  apply quiet_bind; [apply quiet_range_matches | intros lastIndex].
  unfold type_remainder. destruct (lastIndex <? _); [| apply quiet_ret].
  apply quiet_bind; [apply quiet_lift | intros remainder]. reflexivity.
Qed.

Lemma range_Examples_closed (examples : list FewShotExample) (messages : list ChatMessage) :
  range_Examples examples messages = messages ++ few_shot examples.
Proof.
  unfold range_Examples, few_shot.
  revert messages; induction examples as [|example rest IH]; intros messages; simpl.
  - now rewrite app_nil_r.
  - rewrite IH. now rewrite <- !app_assoc.
Qed.

Lemma few_shot_app (l1 l2 : list FewShotExample) :
  few_shot (l1 ++ l2) = few_shot l1 ++ few_shot l2.
Proof. unfold few_shot. apply flat_map_app. Qed.

Lemma range_Programs_closed (programs : list ProgramFewShotExamples)
    (activeApp : string) (messages : list ChatMessage) (nExamples : Z) :
  fst (range_Programs programs activeApp messages nExamples)
    = messages ++ few_shot (examples_for programs activeApp).
Proof.
  unfold range_Programs, examples_for.
  revert messages nExamples;
    induction programs as [|prog rest IH]; intros messages nExamples; simpl.
  - now rewrite app_nil_r.
  - destruct (String.eqb (Program prog) activeApp); simpl.
    + rewrite IH, range_Examples_closed, few_shot_app. now rewrite <- app_assoc.
    + apply IH.
Qed.

Lemma examples_for_none (programs : list ProgramFewShotExamples) (activeApp : string) :
  Forall (fun prog => Program prog <> activeApp) programs ->
  examples_for programs activeApp = [].
Proof.
  induction 1 as [|prog rest Hprog _ IH]; [reflexivity |].
  unfold examples_for in *. simpl.
  apply String.eqb_neq in Hprog. now rewrite Hprog, IH.
Qed.

Lemma examples_for_app (l1 l2 : list ProgramFewShotExamples) (activeApp : string) :
  examples_for (l1 ++ l2) activeApp = examples_for l1 activeApp ++ examples_for l2 activeApp.
Proof. unfold examples_for. apply flat_map_app. Qed.

(** The same examples, through the entries with that name. *)
Lemma examples_for_filter (programs : list ProgramFewShotExamples) (activeApp : string) :
  examples_for programs activeApp
    = flat_map Examples (filter (fun prog => Program prog = activeApp) programs).
Proof.
  unfold examples_for. induction programs as [|prog rest IH]; [reflexivity |].
  cbn [flat_map]. rewrite filter_cons, IH.
  destruct (String.eqb_spec (Program prog) activeApp) as [E | E].
  - now rewrite decide_True by exact E.
  - now rewrite decide_False by exact E.
Qed.

(** The one call of the language model in a dispatch. *)
Lemma handleText_calls (cfg : RightHandConfig) (activeApp : string)
    (reply : list ChatMessage -> string + error) (text : string) :
  calls (trace (handleText cfg activeApp reply text))
    = [SystemChatMessage (Sprintf systemPrompt [activeApp])
         :: few_shot (examples_for (Programs cfg) activeApp)
         ++ [HumanChatMessage text]].
Proof.
  unfold handleText.
  pose proof (range_Programs_closed (Programs cfg) activeApp
                [SystemChatMessage (Sprintf systemPrompt [activeApp])] 0) as Hm.
  destruct (range_Programs _ _ _ _) as [messages nExamples]. simpl in Hm. subst messages.
  rewrite !trace_bind. cbn [trace result emit].
  rewrite !calls_app.
  assert (Hn : calls (trace (if 0 <? nExamples
                             then emit (Printf "ℹ️  Using %d custom commands for %s
" [Int nExamples; Str activeApp])
                             else mret tt)) = [])
    by now destruct (0 <? nExamples).
  rewrite Hn.
  assert (Hr : result (if 0 <? nExamples
                       then emit (Printf "ℹ️  Using %d custom commands for %s
" [Int nExamples; Str activeApp])
                       else mret tt) = Some tt)
    by now destruct (0 <? nExamples).
  rewrite Hr. rewrite !calls_app. cbn [calls app].
  destruct (reply _) as [llmText | err]; [| reflexivity].
  rewrite trace_bind, calls_app. cbn [trace result emit calls app].
  now rewrite (quiet_simulateTyping llmText).
Qed.

(** The system instruction names the active application. *)
Lemma systemPrompt_names_app (activeApp : string) :
  Sprintf systemPrompt [activeApp] =
    "You are an AI assistant that interprets transcribed voice input
and translates it into commands or text inputs for various applications. 

Your current active program is " +:+ activeApp +:+ ". Adjust your interpretation based on this context.

When interpreting commands, please indicate modifier keys such as Command, Option, Shift, 
or Control using curly braces. For instance, use '{Command}+t' for opening a new tab.

When outputting a command with a modifier key, use Shift as a modifier instead of including an uppercase character.

Your output will be used as keyboard input for the active application.
Return the input exactly as provided if you aren't confident in your answer.".
Proof. reflexivity. Qed.

End DispatchFacts.

(** ** The listening loop: buffer and inactivity timer *)

Section LoopFacts.
Context {float32 : Type}.
Implicit Types (s : loop_state float32) (w : world float32).

Lemma deliver_hotkey_same s w :
  listening (deliver_hotkey s w) = listening s
  /\ audioBuffer (deliver_hotkey s w) = audioBuffer s
  /\ listeningTimeout (deliver_hotkey s w) = listeningTimeout s.
Proof. unfold deliver_hotkey. now destruct (hotkey w && negb (listeningToggle s)). Qed.

Lemma deliver_no_hotkey s w : hotkey w = false -> deliver_hotkey s w = s.
Proof. intros H. unfold deliver_hotkey. now rewrite H. Qed.

(** What one iteration does to the buffer. *)
Lemma loop_body_buffer (cfg : RightHandConfig) s w s' :
  snd (loop_body cfg s w) = Continue s' ->
  audioBuffer s' = audioBuffer s /\ (listening s = true \/ listening s' = false)
  \/ listening s = false /\ listening s' = true /\ audioBuffer s' = []
  \/ listening s = true /\ listening s' = true
     /\ audioBuffer s' = audioBuffer s ++ fst (CollectAudioData w).
Proof.
  unfold loop_body.
  destruct (deliver_hotkey_same s w) as (Hl & Hb & _).
  set (s1 := deliver_hotkey s w) in *. rewrite <- Hl, <- Hb.
  destruct (select s1 w).
  - destruct (listening s1) eqn:El; simpl.
    + destruct (Transcribe w (audioBuffer s1)) as [text err]. simpl.
      intros [= <-]. simpl. tauto.
    + intros [= <-]. simpl. tauto.
  - destruct (listening s1) eqn:El; [destruct (listeningToggle s1) |]; simpl;
      intros [= <-]; simpl; tauto.
  - discriminate.
  - destruct (listening s1) eqn:El; simpl.
    + destruct (CollectAudioData w) as [buf [e |]]; simpl; intros [= <-]; simpl; tauto.
    + intros [= <-]. rewrite El. tauto.
Qed.

(** Before the timer is due and without a signal, a listening loop goes
    on listening. *)
Lemma armed_step (cfg : RightHandConfig) (d : Z) s w :
  armed d s -> no_signal w -> now w < d ->
  exists s', snd (loop_body cfg s w) = Continue s' /\ armed d s'.
Proof.
  intros (Hl & Ht & Hg) (Hh & Hc) Hnow.
  destruct s as [l t b g], w as [nw hk cd ch st sp tr [buf err]]; simpl in *; subst.
  unfold loop_body, deliver_hotkey, select, ready; simpl.
  replace (d <=? nw) with false by (symmetry; apply Z.leb_gt; lia). simpl.
  destruct err as [e |]; simpl; eexists; (split; [reflexivity |]); now repeat split.
Qed.

(** When the timer is due, the loop sends itself a toggle. *)
Lemma armed_timeout (cfg : RightHandConfig) (d : Z) s w :
  armed d s -> no_signal w -> d <= now w ->
  snd (loop_body cfg s w) = Continue (LoopState true None (audioBuffer s) true).
Proof.
  intros (Hl & Ht & Hg) (Hh & Hc) Hnow.
  destruct s as [l t b g], w as [nw hk cd ch st sp tr col]; simpl in *; subst.
  unfold loop_body, deliver_hotkey, select, ready; simpl.
  replace (d <=? nw) with true by (symmetry; apply Z.leb_le; lia). reflexivity.
Qed.

(** That toggle ends the listening. *)
Lemma self_toggle_step (cfg : RightHandConfig) (buffer : list float32) w :
  no_signal w ->
  snd (loop_body cfg (LoopState true None buffer true) w)
    = Continue (LoopState false None buffer false).
Proof.
  intros (Hh & Hc).
  destruct w as [nw hk cd ch st sp tr col]; simpl in *; subst.
  unfold loop_body, deliver_hotkey, select, ready; simpl.
  now destruct (tr buffer) as [text err].
Qed.

Lemma at_rest_step (cfg : RightHandConfig) s w :
  at_rest s -> no_signal w -> snd (loop_body cfg s w) = Continue s.
Proof.
  intros (Hl & Ht & Hg) (Hh & Hc).
  destruct s as [l t b g], w as [nw hk cd ch st sp tr col]; simpl in *; subst.
  reflexivity.
Qed.

Lemma at_rest_run (cfg : RightHandConfig) s (ws : list (world float32)) :
  at_rest s -> Forall no_signal ws ->
  map listening (runMainLoop cfg s ws) = replicate (S (length ws)) false.
Proof.
  intros Hs Hws. induction Hws as [|w ws Hw _ IH]; simpl.
  - now destruct Hs as (-> & _).
  - rewrite (at_rest_step cfg s w Hs Hw). simpl. rewrite IH.
    now destruct Hs as (-> & _).
Qed.

Lemma armed_run (cfg : RightHandConfig) (d : Z) s (early rest : list (world float32)) :
  armed d s -> Forall no_signal early -> Forall (fun w => now w < d) early ->
  exists s', armed d s'
    /\ map listening (runMainLoop cfg s (early ++ rest))
       = replicate (length early) true ++ map listening (runMainLoop cfg s' rest).
Proof.
  intros Hs Hsig. revert s Hs. induction Hsig as [|w early Hw _ IH]; intros s Hs Hnow.
  - now exists s.
  - inversion Hnow as [|? ? Hw' Hnow']; subst.
    destruct (armed_step cfg d s w Hs Hw Hw') as (s1 & Hstep & Hs1).
    destruct (IH s1 Hs1 Hnow') as (s' & Hs' & Hrun).
    exists s'. split; [exact Hs' |].
    simpl. rewrite Hstep. simpl. rewrite Hrun.
    now destruct Hs as (-> & _).
Qed.

Lemma stops_once (n k : nat) :
  stops (false :: replicate (S n) true ++ replicate (S k) false) = 1%nat.
Proof.
  assert (Hfalse : forall j, stops (replicate j false) = 0%nat).
  { induction j as [|[|j] IH]; try reflexivity. exact IH. }
  assert (Htrue : forall i, stops (replicate (S i) true ++ replicate (S k) false) = 1%nat).
  { induction i as [|i IH].
    - simpl replicate. simpl app. change (stops (true :: false :: replicate k false))
        with (1 + stops (replicate (S k) false))%nat. now rewrite Hfalse.
    - exact IH. }
  exact (Htrue n).
Qed.

End LoopFacts.

(** ** After a combo group: the byte that is skipped *)

Section AfterGroup.
Import GoString GoStringFacts LexerFacts SynthFacts ShiftFacts.

(** When the rest of the text has no combo group, its first byte is not
    typed: [lastIndex] is one past the end of the match. *)
Lemma continue_on_literal (rest : string) :
  contains "{" rest = false ->
  continue_on rest =
    if 1 <? len rest
    then Run [Fprintln [Str "righthand: typing remainder of text:"; Str (skip_bytes 1 rest)];
              Sleep 100; TypeStr (skip_bytes 1 rest)] (Some tt)
    else Run [] (Some tt).
Proof.
  intros H. unfold continue_on. rewrite (FindAll_no_brace rest H).
  change (range_matches rest [] 1) with (mret 1 : run Z). rewrite bind_ret.
  unfold type_remainder. destruct (Z.ltb_spec 1 (len rest)) as [Hlen | Hlen]; [| reflexivity].
  unfold slice_from, slice.
  replace ((0 <=? 1) && (1 <=? len rest) && (len rest <=? len rest)) with true
    by (symmetry; rewrite !andb_true_iff, !Z.leb_le; lia).
  change (Z.to_nat 1) with 1%nat.
  replace (Z.to_nat (len rest - 1)) with (String.length (skip_bytes 1 rest))
    by (rewrite length_skip; unfold len; lia).
  now rewrite first_all.
Qed.

(** When the rest of the text starts with a combo group, the slice
    [text[lastIndex:match[0]]] has its bounds reversed: a panic. *)
Lemma continue_on_group (rest : string) (m : list Z) :
  scan 0 rest = Some m -> continue_on rest = Run [] None.
Proof.
  intros Hscan. unfold continue_on. rewrite FindAll_unfold, search_unfold, Hscan.
  destruct (scan_Some 0 rest m Hscan) as (m1 & m3 & m4 & m5 & -> & Hm1 & _).
  cbv zeta. change ([0; m1; 0 + 1; m3; m4; m5] !!! 1%nat) with m1.
  replace (m1 =? 0) with false by (symmetry; apply Z.eqb_neq; lia).
  rewrite range_matches_vector. unfold type_before.
  change (negb (1 =? 0)) with true. cbv iota.
  now rewrite (slice_reversed rest 1 0).
Qed.

(** A combo group directly followed by another one: the first is pressed,
    then [simulateTyping] panics. *)
Lemma adjacent_groups (group after : string) (logs : list event)
    (modifiers : list string) (key : string) (m : list Z) :
  group <> "" -> contains "}" group = false ->
  extractModifiersAndKeyFromMatch ("{" +:+ group +:+ "}" +:+ after)
      (group_match 0 group after) = Run logs (Some (modifiers, key)) ->
  scan 0 (skip_bytes (Z.to_nat (match_tail after)) after) = Some m ->
  simulateTyping ("{" +:+ group +:+ "}" +:+ after) =
    Run (logs ++ [KeySleep 100; KeyTap key modifiers; KeyTap "shift" []; Sleep 100]) None.
Proof.
  intros Hne Hgroup Hextract Hscan.
  rewrite (simulateTyping_group_rest group after _ _ _ Hne Hgroup Hextract).
  now rewrite (continue_on_group _ m Hscan).
Qed.

End AfterGroup.

(** ** The scenarios of the specification and the default configuration *)

Example scenario_cd : operations (trace (simulateTyping "cd ~")) = [TypeLiteral "cd ~"].
Proof. vm_compute. reflexivity. Qed.

Example scenario_new_tab :
  operations (trace (simulateTyping "{Command}+t"))
    = [PressCombo ["command"] "t"; PressCombo [] "shift"].
Proof. vm_compute. reflexivity. Qed.

Example scenario_split :
  operations (trace (simulateTyping "{Command+Shift}+d"))
    = [PressCombo ["command"; "shift"] "d"; PressCombo [] "shift"].
Proof. vm_compute. reflexivity. Qed.

Example scenario_visit :
  simulateTyping "{Command}+t
https://cnn.com{Enter}"
    = Run [KeySleep 100; KeyTap "t" ["command"]; KeyTap "shift" []; Sleep 100;
           Fprintln [Str "righthand: typing text:"; Str "https://cnn.com"];
           TypeStr "https://cnn.com";
           KeySleep 100; KeyTap "enter" []; KeyTap "shift" []; Sleep 100]
          (Some tt).
Proof. vm_compute. reflexivity. Qed.

Example scenario_rebase :
  operations (trace (simulateTyping "git rebase -i HEAD~3"))
    = [TypeLiteral "git rebase -i HEAD~3"].
Proof. vm_compute. reflexivity. Qed.

(** * Part 4: the properties of the specification *)

(** ** The lexer and the synthesizer *)

Section SynthesizerProperties.
Import GoString GoStringFacts LexerFacts SynthFacts.

(** C1 (fails on the code). The property: the literal spans and the texts
    of the combo groups, with their consumed separators, make up the
    directive again; nothing but one separator per group is dropped.
    On ["{Command}+t abc"] the match takes the twelve bytes
    ["{Command}+t "], separator included, and [lastIndex = match[1] + 1]
    then skips the letter [a]: only ["bc"] is typed. *)
Theorem literal_after_separator_is_dropped :
  let text := "{Command}+t abc" in
  FindAllStringSubmatchIndex keyTapPattern text = [[0; 12; 1; 8; 10; 11]]
  /\ slice text 0 12 = Some "{Command}+t "
  /\ result (simulateTyping text) = Some tt
  /\ operations (trace (simulateTyping text))
       = [PressCombo ["command"] "t"; PressCombo [] "shift"; TypeLiteral "bc"]
  /\ "{Command}+t " +:+ "bc" <> text.
Proof. repeat split; try (vm_compute; reflexivity). discriminate. Qed.

(** C2. For the directive ["{Command}+t{Enter}"], in which a combo group
    directly follows another, the first match ends at offset 11, so
    [lastIndex] is 12, and the second match starts at 11: the slice
    [text[12:11]] is out of range and [simulateTyping] panics after the
    first press, without a completed sequence of operations. *)
Theorem adjacent_groups_panic :
  let text := "{Command}+t{Enter}" in
  FindAllStringSubmatchIndex keyTapPattern text
    = [[0; 11; 1; 8; 10; 11]; [11; 18; 12; 17; -1; -1]]
  /\ result (range_matches text [[0; 11; 1; 8; 10; 11]] 0) = Some 12
  /\ 11 < 12
  /\ slice text 12 11 = None
  /\ simulateTyping text
       = Run [KeySleep 100; KeyTap "t" ["command"]; KeyTap "shift" []; Sleep 100] None.
Proof. repeat split; vm_compute; reflexivity. Qed.

(** C3 (fails on the code). The property: after a combo group, [+key]
    with any alphanumeric key, every digit included, is the key to press
    and the names in the braces are modifiers.  The class of the pattern is
    [[A-Za-z1-9]]: on ["{Command}+0"] no key is captured, [Command] is
    pressed as the key with no modifier, and ["0"] is typed as text. *)
Theorem digit_zero_is_not_captured :
  let text := "{Command}+0" in
  FindAllStringSubmatchIndex keyTapPattern text = [[0; 9; 1; 8; -1; -1]]
  /\ result (simulateTyping text) = Some tt
  /\ operations (trace (simulateTyping text))
       = [PressCombo [] "command"; PressCombo [] "shift"; TypeLiteral "0"].
Proof. repeat split; vm_compute; reflexivity. Qed.

(** C4 (amended). For a combo group [{names+name}] with no [+key] after
    it, the last name [name] is never passed as a modifier, the modifiers
    being the recognized names before it, and it selects the key of the
    press through the table: [Command] presses ["command"], [Shift]
    ["shift"], [Option] ["alt"], [Control] ["ctrl"], [Tab] ["tab"] and
    [Enter] ["enter"]; any other name presses the empty key name.  First for
    a match without captured key at any place of a directive, then for a
    directive that starts with the group: the lexer captures no key and the
    first operations are the press with that key and those modifiers and
    the press that undoes the modifiers. *)
Theorem last_name_selects_key_from_table (names : list string) (name : string) :
  Forall is_name (names ++ [name]) ->
  exists key : string,
    (((name, key) ∈ [("Command", "command"); ("Shift", "shift"); ("Option", "alt");
                      ("Control", "ctrl"); ("Tab", "tab"); ("Enter", "enter")])
     \/ (name ∉ ["Command"; "Shift"; "Option"; "Control"; "Tab"; "Enter"]) /\ key = "")
    /\ (forall text m0 m1 m2 m3 m5,
          slice text m2 m3 = Some (Join (names ++ [name]) "+") ->
          extractModifiersAndKeyFromMatch text [m0; m1; m2; m3; -1; m5]
            = Run (unknown_logs names) (Some (known names, key)))
    /\ (forall after,
          Join (names ++ [name]) "+" <> "" ->
          key_suffix after = None ->
          let text := "{" +:+ Join (names ++ [name]) "+" +:+ "}" +:+ after in
          exists (match_ : list Z) (matches : list (list Z)) (later : list KeyOperation),
            FindAllStringSubmatchIndex keyTapPattern text = match_ :: matches
            /\ match_ !! 4%nat = Some (-1)
            /\ operations (trace (simulateTyping text))
                 = PressCombo (known names) key :: PressCombo [] "shift" :: later).
Proof.
  intros Hnames. exists (default "" (modifierMap !! name)). split; [| split].
  - pose proof (modifierMap_lookup name) as H.
    destruct (modifierMap !! name) as [key|]; [now left | now right].
  - intros text m0 m1 m2 m3 m5 Hgroup.
    apply extract_without_key; [exact Hgroup |].
    eapply Forall_impl; [exact Hnames | now intros n [Hn _]].
  - intros after Hne Hafter text.
    destruct (group_without_key names name after Hnames Hne Hafter)
      as ((matches & HF) & H4 & _ & next & Hsim).
    exists (group_match 0 (Join (names ++ [name]) "+") after), matches,
      (operations (trace next)).
    fold text in HF, Hsim.
    repeat split; [exact HF | exact H4 |].
    rewrite Hsim. apply operations_press, operations_unknown_logs.
Qed.

(** With [Command] before it, the recognized last name [Shift] presses
    ["shift"] and the unrecognized last name [t] presses the empty key
    name; [Command] is the only modifier in both. *)
Lemma last_name_selects_key_from_table_witness :
  Forall is_name (["Command"] ++ ["Shift"])
  /\ extractModifiersAndKeyFromMatch "ls {Command+Shift} -l" [3; 19; 4; 17; -1; -1]
       = Run [] (Some (["command"], "shift"))
  /\ Forall is_name (["Command"] ++ ["t"])
  /\ extractModifiersAndKeyFromMatch "ls {Command+t} -l" [3; 15; 4; 13; -1; -1]
       = Run [] (Some (["command"], "")).
Proof.
  assert (H1 : Forall is_name (["Command"] ++ ["Shift"])) by (repeat constructor).
  assert (H2 : Forall is_name (["Command"] ++ ["t"])) by (repeat constructor).
  destruct (last_name_selects_key_from_table ["Command"] "Shift" H1)
    as (key1 & Hkey1 & Hany1 & _).
  destruct (last_name_selects_key_from_table ["Command"] "t" H2)
    as (key2 & Hkey2 & Hany2 & _).
  assert (E1 : key1 = "shift").
  { destruct Hkey1 as [Hkey%list_elem_of_In | [Hname _]].
    - simpl in Hkey. intuition congruence.
    - exfalso. apply Hname, list_elem_of_In. simpl. auto 10. }
  assert (E2 : key2 = "").
  { destruct Hkey2 as [Hkey%list_elem_of_In | [_ Hkey]].
    - simpl in Hkey. intuition congruence.
    - exact Hkey. }
  split; [exact H1 |]. split; [| split; [exact H2 |]].
  - subst key1. exact (Hany1 "ls {Command+Shift} -l" 3 19 4 17 (-1) eq_refl).
  - subst key2. exact (Hany2 "ls {Command+t} -l" 3 15 4 13 (-1) eq_refl).
Defined.

(** C4 as stated fails on ["{Command+t}"]: the group is well formed and
    no key is captured after it, its last name is [t], and the key of the
    press is the empty string, not [t]. *)
Lemma unrecognized_last_name_is_not_pressed :
  FindAllStringSubmatchIndex keyTapPattern "{Command+t}" = [[0; 11; 1; 10; -1; -1]]
  /\ slice "{Command+t}" 1 10 = Some (Join (["Command"] ++ ["t"]) "+")
  /\ Forall is_name (["Command"] ++ ["t"])
  /\ simulateTyping "{Command+t}"
       = Run [KeySleep 100; KeyTap "" ["command"]; KeyTap "shift" []; Sleep 100] (Some tt)
  /\ operations (trace (simulateTyping "{Command+t}"))
       <> [PressCombo ["command"] "t"; PressCombo [] "shift"].
Proof.
  repeat split; try (vm_compute; reflexivity).
  - repeat constructor.
  - vm_compute. discriminate.
Qed.

(** C5 (amended). A directive in which the lexer finds no combo group
    gives, when it is not empty, exactly one [TypeLiteral] with the whole
    text and no press; the empty directive gives no operation at all. *)
Theorem no_group_types_whole_text (text : string) :
  FindAllStringSubmatchIndex keyTapPattern text = [] ->
  result (simulateTyping text) = Some tt
  /\ operations (trace (simulateTyping text))
       = match text with "" => [] | _ => [TypeLiteral text] end.
Proof.
  intros H. rewrite (simulateTyping_no_match text H). now destruct text.
Qed.

Lemma no_group_types_whole_text_witness :
  FindAllStringSubmatchIndex keyTapPattern "cd ~" = []
  /\ result (simulateTyping "cd ~") = Some tt
  /\ operations (trace (simulateTyping "cd ~")) = [TypeLiteral "cd ~"].
Proof.
  assert (H : FindAllStringSubmatchIndex keyTapPattern "cd ~" = [])
    by (vm_compute; reflexivity).
  exact (conj H (no_group_types_whole_text "cd ~" H)).
Defined.

(** C5 as stated fails on the empty directive: it has no combo group, and
    [simulateTyping] emits no [TypeLiteral] for it. *)
Lemma empty_directive_types_nothing :
  FindAllStringSubmatchIndex keyTapPattern "" = []
  /\ operations (trace (simulateTyping "")) <> [TypeLiteral ""].
Proof. split; [vm_compute; reflexivity | vm_compute; discriminate]. Qed.

(** C10. For a combo group with no [+key] after it whose last name is not
    in the table, the key of the press is the empty string, the zero
    value of the map lookup: neither the name itself nor an error.  First
    for a match without captured key at any place of a directive, then
    for a directive that starts with the group. *)
Theorem unrecognized_last_name_presses_empty_key (names : list string) (name : string) :
  Forall is_name (names ++ [name]) ->
  modifierMap !! name = None ->
  (forall text m0 m1 m2 m3 m5,
      slice text m2 m3 = Some (Join (names ++ [name]) "+") ->
      extractModifiersAndKeyFromMatch text [m0; m1; m2; m3; -1; m5]
        = Run (unknown_logs names) (Some (known names, "")))
  /\ (forall after,
        Join (names ++ [name]) "+" <> "" ->
        key_suffix after = None ->
        let text := "{" +:+ Join (names ++ [name]) "+" +:+ "}" +:+ after in
        exists (next : run unit),
          simulateTyping text
            = Run (unknown_logs names
                     ++ [KeySleep 100; KeyTap "" (known names); KeyTap "shift" []; Sleep 100]
                     ++ trace next)
                  (result next)
          /\ operations (trace (simulateTyping text))
               = PressCombo (known names) "" :: PressCombo [] "shift"
                   :: operations (trace next)).
Proof.
  intros Hnames Hname. split.
  - intros text m0 m1 m2 m3 m5 Hgroup.
    rewrite (extract_without_key text names name m0 m1 m2 m3 m5 Hgroup).
    + now rewrite Hname.
    + eapply Forall_impl; [exact Hnames | now intros n [Hn _]].
  - intros after Hne Hafter text.
    destruct (group_without_key names name after Hnames Hne Hafter)
      as (_ & _ & _ & next & Hsim).
    fold text in Hsim. rewrite Hname in Hsim. simpl default in Hsim.
    exists next. split; [exact Hsim |].
    rewrite Hsim. apply operations_press, operations_unknown_logs.
Qed.

Lemma unrecognized_last_name_presses_empty_key_witness :
  Forall is_name ([] ++ ["Foo"])
  /\ modifierMap !! "Foo" = None
  /\ exists (next : run unit),
       simulateTyping "{Foo}"
         = Run (unknown_logs []
                  ++ [KeySleep 100; KeyTap "" (known []); KeyTap "shift" []; Sleep 100]
                  ++ trace next)
               (result next)
       /\ operations (trace (simulateTyping "{Foo}"))
            = PressCombo (known []) "" :: PressCombo [] "shift"
                :: operations (trace next).
Proof.
  assert (H1 : Forall is_name ([] ++ ["Foo"])) by (repeat constructor).
  assert (H2 : modifierMap !! "Foo" = None) by (vm_compute; reflexivity).
  split; [exact H1 |]. split; [exact H2 |].
  apply (proj2 (unrecognized_last_name_presses_empty_key [] "Foo" H1 H2) "");
    [discriminate | reflexivity].
Defined.

End SynthesizerProperties.

Section UnknownModifierProperty.
Import GoString GoStringFacts LexerFacts SynthFacts ShiftFacts.

(** C6. A name of a combo group that is not in the table, standing where a
    modifier stands (before the last name, or anywhere in the braces when a
    key follows them), is logged and dropped, and nothing else changes.
    For a match at any place of a directive, with or without a captured
    key: the log line is written, no panic occurs, and the modifiers are
    the recognized names before and after it, in order.  For a directive
    that starts with the group: it runs as the same directive without that
    name does, with one more log line; the same key is pressed with the
    same modifiers, the same operations follow in the same order, and the
    run ends the same way. *)
Theorem unknown_modifier_is_dropped (before later : list string) (unknown : string) :
  Forall is_name (before ++ unknown :: later) ->
  modifierMap !! unknown = None ->
  let logs := unknown_logs before
                ++ LogPrintf "Unknown modifier: %s" [Str unknown] :: unknown_logs later in
  (forall text m0 m1 m2 m3 m4 m5 key,
      slice text m2 m3 = Some (Join (before ++ unknown :: later) "+") ->
      m4 <> -1 -> slice text m4 m5 = Some key ->
      extractModifiersAndKeyFromMatch text [m0; m1; m2; m3; m4; m5]
        = Run logs (Some (known before ++ known later, key)))
  /\ (forall text m0 m1 m2 m3 m5 name,
        is_name name ->
        slice text m2 m3 = Some (Join ((before ++ unknown :: later) ++ [name]) "+") ->
        extractModifiersAndKeyFromMatch text [m0; m1; m2; m3; -1; m5]
          = Run logs (Some (known before ++ known later, default "" (modifierMap !! name))))
  /\ (forall after,
        Join (before ++ later) "+" <> "" ->
        later <> [] \/ key_suffix after <> None ->
        let with_unknown :=
          "{" +:+ Join (before ++ unknown :: later) "+" +:+ "}" +:+ after in
        let without := "{" +:+ Join (before ++ later) "+" +:+ "}" +:+ after in
        exists (modifiers : list string) (key : string) (tail : list event),
          trace (simulateTyping without) = unknown_logs before ++ tail
          /\ trace (simulateTyping with_unknown)
             = unknown_logs before
                 ++ LogPrintf "Unknown modifier: %s" [Str unknown] :: tail
          /\ result (simulateTyping with_unknown) = result (simulateTyping without)
          /\ operations (trace (simulateTyping with_unknown))
             = operations (trace (simulateTyping without))
          /\ exists later_ops,
               operations (trace (simulateTyping with_unknown))
                 = PressCombo modifiers key :: PressCombo [] "shift" :: later_ops).
Proof.
  intros Hnames Hunknown logs.
  assert (Hplus : Forall (fun n => contains "+" n = false) (before ++ unknown :: later))
    by (eapply Forall_impl; [exact Hnames | now intros n [Hn _]]).
  split; [| split].
  - intros text m0 m1 m2 m3 m4 m5 key Hgroup Hm4 Hkey.
    rewrite (extract_with_key text _ key m0 m1 m2 m3 m4 m5 Hgroup Hm4 Hkey).
    rewrite Split_Join by (try exact Hplus; now destruct before).
    rewrite known_unknown, unknown_logs_unknown, known_app by exact Hunknown.
    reflexivity.
  - intros text m0 m1 m2 m3 m5 name [Hname _] Hgroup.
    rewrite (extract_without_key text _ name m0 m1 m2 m3 m5 Hgroup).
    + rewrite known_unknown, unknown_logs_unknown, known_app by exact Hunknown.
      reflexivity.
    + apply Forall_app. split; [exact Hplus | now constructor].
  - intros after Hne Hposition with_unknown without.
    assert (Hnames2 : Forall is_name (before ++ later)).
    { apply Forall_app in Hnames as [Hb Hl]. apply Forall_app. split; [exact Hb |].
      now inversion Hl. }
    assert (Hne1 : Join (before ++ unknown :: later) "+" <> "").
    { apply Join_two. rewrite length_app. simpl.
      destruct before, later; simpl in *; try lia. congruence. }
    pose proof (is_name_Join _ Hnames) as Hg1.
    pose proof (is_name_Join _ Hnames2) as Hg2.
    assert (Hpress : exists logs1 logs2 modifiers key,
               extractModifiersAndKeyFromMatch with_unknown
                 (group_match 0 (Join (before ++ unknown :: later) "+") after)
                 = Run (unknown_logs before
                          ++ LogPrintf "Unknown modifier: %s" [Str unknown] :: logs1)
                       (Some (modifiers, key))
               /\ extractModifiersAndKeyFromMatch without
                    (group_match 0 (Join (before ++ later) "+") after)
                    = Run (unknown_logs before ++ logs2) (Some (modifiers, key))
               /\ logs1 = logs2 /\ operations logs2 = []).
    { destruct (key_suffix after) as [[key after'] |] eqn:Ekey.
      - apply key_suffix_Some in Ekey as (Eafter & Hk & Hkey & Hafter').
        exists (unknown_logs later), (unknown_logs later),
          (known (before ++ later)), key.
        unfold with_unknown, without. rewrite Eafter.
        rewrite (extract_group_with_key (before ++ unknown :: later) key after');
          try assumption; [| now destruct before].
        rewrite (extract_group_with_key (before ++ later) key after');
          try assumption; [| intros E; rewrite E in Hne; now apply Hne].
        rewrite known_unknown, unknown_logs_unknown, unknown_logs_app by exact Hunknown.
        auto using operations_unknown_logs.
      - destruct Hposition as [Hlater | Hkey]; [| congruence].
        destruct (exists_last Hlater) as (later' & name & ->).
        exists (unknown_logs later'), (unknown_logs later'),
          (known (before ++ later')), (default "" (modifierMap !! name)).
        unfold with_unknown, without.
        replace (before ++ unknown :: later' ++ [name])
          with ((before ++ unknown :: later') ++ [name]) in * by now rewrite <- app_assoc.
        replace (before ++ later' ++ [name])
          with ((before ++ later') ++ [name]) in * by now rewrite <- app_assoc.
        rewrite (extract_group_without_key (before ++ unknown :: later') name after
                   Hnames Ekey).
        rewrite (extract_group_without_key (before ++ later') name after Hnames2 Ekey).
        rewrite known_unknown, unknown_logs_unknown, unknown_logs_app by exact Hunknown.
        auto using operations_unknown_logs. }
    destruct Hpress as (logs1 & logs' & modifiers & key & He1 & He2 & -> & Hl).
    destruct (same_press _ _ after _ _ modifiers key Hne1 Hg1 Hne Hg2 He1 He2)
      as (rest & Ht1 & Ht2 & Hres & later_ops & Hops).
    fold with_unknown in Ht1, Hres. fold without in Ht2, Hres.
    exists modifiers, key, (logs' ++ rest).
    assert (Hlogs : operations (unknown_logs before) = [])
      by apply operations_unknown_logs.
    assert (Hsame : operations (trace (simulateTyping with_unknown))
                    = operations (trace (simulateTyping without))).
    { rewrite Ht1, Ht2, !operations_app.
      change (operations (LogPrintf ?f ?a :: ?l)) with (operations l).
      reflexivity. }
    repeat split.
    + now rewrite Ht2, <- app_assoc.
    + now rewrite Ht1, <- app_assoc.
    + exact Hres.
    + exact Hsame.
    + exists later_ops. rewrite Hsame, Ht2, !operations_app, Hlogs, Hl. exact Hops.
Qed.

End UnknownModifierProperty.

Lemma unknown_modifier_is_dropped_witness :
  Forall is_name (["Command"] ++ "Foo" :: ["Shift"])
  /\ modifierMap !! "Foo" = None
  /\ extractModifiersAndKeyFromMatch "ls {Command+Foo+Shift}+d" [3; 24; 4; 21; 23; 24]
       = Run [LogPrintf "Unknown modifier: %s" [Str "Foo"]]
             (Some (["command"; "shift"], "d"))
  /\ exists (modifiers : list string) (key : string) (tail : list event),
       trace (simulateTyping "{Command+Shift}+d ls") = unknown_logs ["Command"] ++ tail
       /\ trace (simulateTyping "{Command+Foo+Shift}+d ls")
          = unknown_logs ["Command"] ++ LogPrintf "Unknown modifier: %s" [Str "Foo"] :: tail
       /\ result (simulateTyping "{Command+Foo+Shift}+d ls")
          = result (simulateTyping "{Command+Shift}+d ls")
       /\ operations (trace (simulateTyping "{Command+Foo+Shift}+d ls"))
          = operations (trace (simulateTyping "{Command+Shift}+d ls"))
       /\ exists later_ops,
            operations (trace (simulateTyping "{Command+Foo+Shift}+d ls"))
              = PressCombo modifiers key :: PressCombo [] "shift" :: later_ops.
Proof.
  assert (H1 : Forall is_name (["Command"] ++ "Foo" :: ["Shift"])) by (repeat constructor).
  assert (H2 : modifierMap !! "Foo" = None) by (vm_compute; reflexivity).
  pose proof (unknown_modifier_is_dropped ["Command"] ["Shift"] "Foo" H1 H2)
    as (Hkey & _ & Hstart).
  split; [exact H1 |]. split; [exact H2 |]. split.
  - refine (Hkey "ls {Command+Foo+Shift}+d" 3 24 4 21 23 24 "d" eq_refl _ eq_refl).
    discriminate.
  - apply (Hstart "+d ls"); [discriminate | left; discriminate].
Defined.

(** ** The dispatcher *)

Section DispatcherProperties.
Import DispatchFacts.

(** C9. Every dispatch calls the language model once.  The first message
    is the system instruction, whose text names the active application:
    [Your current active program is <activeApp>.]  Then come the few-shot
    pairs of the configured entries whose name is equal, byte for byte, to
    the name of the active application, each pair as a human and an AI
    message, in the order of the configuration: no pair when no entry has
    that name, the pairs of the entry when one has it, and the pairs of
    all of them when several entries carry it.  The transcribed text is
    the last, human message. *)
Theorem handleText_messages (cfg : RightHandConfig) (activeApp : string)
    (reply : list ChatMessage -> string + error) (text : string) :
  let system := SystemChatMessage (
    "You are an AI assistant that interprets transcribed voice input
and translates it into commands or text inputs for various applications. 

Your current active program is " +:+ activeApp +:+ ". Adjust your interpretation based on this context.

When interpreting commands, please indicate modifier keys such as Command, Option, Shift, 
or Control using curly braces. For instance, use '{Command}+t' for opening a new tab.

When outputting a command with a modifier key, use Shift as a modifier instead of including an uppercase character.

Your output will be used as keyboard input for the active application.
Return the input exactly as provided if you aren't confident in your answer.") in
  let named := filter (fun prog => Program prog = activeApp) (Programs cfg) in
  let sent := calls (trace (handleText cfg activeApp reply text)) in
  sent = [system :: few_shot (flat_map Examples named) ++ [HumanChatMessage text]]
  /\ (Forall (fun prog => Program prog <> activeApp) (Programs cfg) ->
        sent = [[system; HumanChatMessage text]])
  /\ (forall before prog after,
        Programs cfg = before ++ prog :: after ->
        Program prog = activeApp ->
        Forall (fun other => Program other <> activeApp) (before ++ after) ->
        sent = [system :: few_shot (Examples prog) ++ [HumanChatMessage text]]).
Proof.
  intros system named sent. unfold sent. rewrite handleText_calls.
  rewrite systemPrompt_names_app. fold system. split; [| split].
  - unfold named. now rewrite examples_for_filter.
  - intros Hnone. now rewrite examples_for_none.
  - intros before prog after Hcfg Hprog Hothers.
    apply Forall_app in Hothers as [Hbefore Hafter].
    rewrite Hcfg, examples_for_app, (examples_for_none before _ Hbefore).
    change (examples_for (prog :: after) activeApp)
      with ((if String.eqb (Program prog) activeApp then Examples prog else [])
              ++ examples_for after activeApp).
    apply String.eqb_eq in Hprog. rewrite Hprog.
    now rewrite (examples_for_none after _ Hafter), app_nil_r.
Qed.

(** With the default configuration: the four pairs of [iTerm2] when it is
    the active application, and none for [iterm2], which differs by case.
    With two entries named [Finder]: the pairs of both, in the order of the
    configuration, and not those of the entry between them. *)
Lemma handleText_messages_witness :
  let reply := fun _ : list ChatMessage => inl "cd ~" : string + error in
  let twice :=
    {| LLMModel := "gpt-4";
       WhisperModel := "base.en";
       Programs :=
         [ {| Program := "Finder";
              Examples := [ {| Input := "new window"; Output := "{Command}+n" |} ] |};
           {| Program := "Mail";
              Examples := [ {| Input := "send"; Output := "{Command+Shift}+d" |} ] |};
           {| Program := "Finder";
              Examples := [ {| Input := "search"; Output := "{Command}+f" |} ] |} ];
       DumpWAVFile := false |} in
  calls (trace (handleText defaultConfig "iTerm2" reply "go home"))
    = [SystemChatMessage (Sprintf systemPrompt ["iTerm2"])
         :: [HumanChatMessage "change to my home directory"; AIChatMessage "cd ~";
             HumanChatMessage "new tab"; AIChatMessage "{Command}+t";
             HumanChatMessage "Interactively rebase the last 3 commits";
             AIChatMessage "git rebase -i HEAD~3";
             HumanChatMessage "split horizontally"; AIChatMessage "{Command+Shift}+d"]
         ++ [HumanChatMessage "go home"]]
  /\ calls (trace (handleText defaultConfig "iterm2" reply "go home"))
       = [[SystemChatMessage (Sprintf systemPrompt ["iterm2"]); HumanChatMessage "go home"]]
  /\ calls (trace (handleText twice "Finder" reply "find it"))
       = [[SystemChatMessage (Sprintf systemPrompt ["Finder"]);
           HumanChatMessage "new window"; AIChatMessage "{Command}+n";
           HumanChatMessage "search"; AIChatMessage "{Command}+f";
           HumanChatMessage "find it"]].
Proof.
  intros reply twice. split; [| split].
  - refine (proj2 (proj2 (handleText_messages defaultConfig "iTerm2" reply "go home"))
              [] (Build_ProgramFewShotExamples "iTerm2" _) [_] eq_refl eq_refl _).
    repeat constructor. discriminate.
  - apply (proj1 (proj2 (handleText_messages defaultConfig "iterm2" reply "go home"))).
    repeat constructor; discriminate.
  - exact (proj1 (handleText_messages twice "Finder" reply "find it")).
Defined.

End DispatcherProperties.

(** ** The listening loop *)

Section LoopProperties.
Context {float32 : Type}.
Implicit Types (s : loop_state float32) (w : world float32).

(** C7. In one iteration of the loop, from any state (so from every
    reachable one): while Idle the buffer is left as it is or, on the
    transition to Listening, reset to empty; samples are appended only
    when the state is Listening before and after; and right after an
    Idle-to-Listening transition the buffer is empty. *)
Theorem buffer_appended_only_while_listening (cfg : RightHandConfig) s w s' :
  snd (loop_body cfg s w) = Continue s' ->
  (listening s = false -> listening s' = false -> audioBuffer s' = audioBuffer s)
  /\ (listening s = false -> listening s' = true -> audioBuffer s' = [])
  /\ (audioBuffer s' <> audioBuffer s ->
        listening s = false /\ listening s' = true /\ audioBuffer s' = []
        \/ listening s = true /\ listening s' = true
           /\ audioBuffer s' = audioBuffer s ++ fst (CollectAudioData w)).
Proof.
  intros Hstep.
  destruct (loop_body_buffer cfg s w s' Hstep)
    as [(Hsame & Hl) | [(Hl & Hl' & Hb) | (Hl & Hl' & Hb)]].
  - repeat split; [auto | | congruence].
    intros H H'. destruct Hl; congruence.
  - repeat split; [congruence | auto | auto].
  - repeat split; [congruence | congruence | auto].
Qed.

(** C8. Once the loop has entered Listening at the time [now w0], from
    any Idle state, whatever timer that state still holds, and as long as
    no toggle is sent: the loop keeps listening while the clock is before
    [now w0 + DefaultTimeout]; the first iteration at or after that time
    receives from the timer and sends the toggle, the next one receives
    it and ends the listening; nothing changes afterwards.  So there is
    exactly one Listening-to-Idle transition.  An iteration that receives
    from the timer while Idle does nothing but drop the timer: it prints
    and calls nothing, stays Idle, keeps the buffer and puts no toggle in
    the channel, which holds what it held or what the hotkey sent; with
    an empty channel and no signal the loop then stays Idle for good.
    [DefaultTimeout] is 30 seconds. *)
Theorem inactivity_timer_stops_listening_once (cfg : RightHandConfig) :
  (forall s w0 (early : list (world float32)) w1 w2 (late : list (world float32)),
      listening s = false ->
      select (deliver_hotkey s w0) w0 = case_listeningToggle ->
      Forall no_signal (early ++ w1 :: w2 :: late) ->
      Forall (fun w => now w < now w0 + DefaultTimeout) early ->
      now w0 + DefaultTimeout <= now w1 ->
      let flags := map listening (runMainLoop cfg s (w0 :: early ++ w1 :: w2 :: late)) in
      flags = false :: replicate (length early + 2) true
                ++ replicate (length late + 1) false
      /\ stops flags = 1%nat)
  /\ (forall s w,
        listening s = false ->
        select (deliver_hotkey s w) w = case_listeningTimeout ->
        loop_body cfg s w
          = ([], Continue (LoopState false None (audioBuffer s)
                             (listeningToggle s || hotkey w)))
        /\ (listeningToggle s = false ->
            forall later : list (world float32),
              Forall no_signal (w :: later) ->
              let flags := map listening (runMainLoop cfg s (w :: later)) in
              flags = replicate (length later + 2) false /\ stops flags = 0%nat))
  /\ DefaultTimeout = 30 * 1000000000.
Proof.
  split; [| split; [| reflexivity]].
  - intros s w0 early w1 w2 late Hidle Hselect Hsig Hearly Hdue flags.
    assert (Hflags : flags = false :: replicate (length early + 2) true
                               ++ replicate (length late + 1) false).
    { unfold flags. clear flags.
      apply Forall_app in Hsig as [Hsig_early Hsig].
      inversion Hsig as [|? ? Hw1 Hsig']; subst.
      inversion Hsig' as [|? ? Hw2 Hlate]; subst.
      destruct (deliver_hotkey_same s w0) as (Hl & _ & _).
      assert (Hstep : snd (loop_body cfg s w0)
                      = Continue (LoopState true (Some (now w0 + DefaultTimeout)) [] false)).
      { unfold loop_body. cbv zeta. now rewrite Hselect, Hl, Hidle. }
      simpl runMainLoop. rewrite Hstep. simpl map. rewrite Hidle. f_equal.
      assert (Harmed : armed (now w0 + DefaultTimeout)
                         (LoopState (float32 := float32) true
                            (Some (now w0 + DefaultTimeout)) [] false))
        by now repeat split.
      destruct (armed_run cfg (now w0 + DefaultTimeout) _ early (w1 :: w2 :: late)
                  Harmed Hsig_early Hearly)
        as (s1 & Hs1 & ->).
      simpl runMainLoop.
      rewrite (armed_timeout cfg _ s1 w1 Hs1 Hw1 Hdue).
      rewrite (self_toggle_step cfg _ w2 Hw2).
      simpl map. rewrite at_rest_run by (try exact Hlate; now repeat split).
      destruct Hs1 as (-> & _).
      rewrite (replicate_add (length early) 2 true).
      replace (length late + 1)%nat with (S (length late)) by lia.
      now rewrite <- app_assoc. }
    split; [exact Hflags |]. rewrite Hflags.
    replace (length early + 2)%nat with (S (length early + 1)) by lia.
    replace (length late + 1)%nat with (S (length late)) by lia.
    apply stops_once.
  - intros s w Hidle Hselect.
    destruct (deliver_hotkey_same s w) as (Hl & Hb & _).
    assert (Hg : listeningToggle (deliver_hotkey s w) = (listeningToggle s || hotkey w)).
    { unfold deliver_hotkey. destruct s as [l t b [|]], (hotkey w); reflexivity. }
    assert (Hstep : loop_body cfg s w
                    = ([], Continue (LoopState false None (audioBuffer s)
                                       (listeningToggle s || hotkey w)))).
    { unfold loop_body. cbv zeta. now rewrite Hselect, Hl, Hidle, Hb, Hg. }
    split; [exact Hstep |].
    intros Hempty later Hsig flags.
    inversion Hsig as [|? ? Hw Hlater]; subst.
    assert (Hflags : flags = replicate (length later + 2) false).
    { unfold flags. simpl runMainLoop. rewrite Hstep. cbn [snd]. simpl map.
      rewrite Hidle, Hempty. destruct Hw as (-> & _). cbn [orb].
      rewrite at_rest_run by (try exact Hlater; now repeat split).
      replace (length later + 2)%nat with (S (S (length later))) by lia.
      reflexivity. }
    split; [exact Hflags |]. rewrite Hflags.
    generalize (length later + 2)%nat as n.
    induction n as [|[|n] IH]; try reflexivity. exact IH.
Qed.

End LoopProperties.

Lemma buffer_appended_only_while_listening_witness :
  let s := LoopState true (Some DefaultTimeout) [1] false in
  let s' := LoopState true (Some DefaultTimeout) [1; 2] false in
  snd (loop_body defaultConfig s (world_at 2 false)) = Continue s'
  /\ (listening s = false -> listening s' = false -> audioBuffer s' = audioBuffer s)
  /\ (listening s = false -> listening s' = true -> audioBuffer s' = [])
  /\ (audioBuffer s' <> audioBuffer s ->
        listening s = false /\ listening s' = true /\ audioBuffer s' = []
        \/ listening s = true /\ listening s' = true
           /\ audioBuffer s' = audioBuffer s ++ fst (CollectAudioData (world_at 2 false))).
Proof.
  intros s s'.
  assert (H : snd (loop_body defaultConfig s (world_at 2 false)) = Continue s')
    by reflexivity.
  exact (conj H (buffer_appended_only_while_listening defaultConfig s (world_at 2 false) s' H)).
Defined.

Lemma inactivity_timer_stops_listening_once_witness :
  let worlds := [world_at 0 true; world_at 1 false; world_at 29 false;
                 world_at 30 false; world_at 31 false; world_at 32 false] in
  let flags := map listening (runMainLoop defaultConfig (LoopState false (Some 5) [] false) worlds) in
  (flags = [false; true; true; true; true; false; false] /\ stops flags = 1%nat)
  /\ loop_body defaultConfig (LoopState false (Some 5) [7] false) (world_at 1 false)
     = ([], Continue (LoopState false None [7] false)).
Proof.
  intros worlds flags. split.
  - refine (proj1 (inactivity_timer_stops_listening_once defaultConfig)
              (LoopState false (Some 5) [] false) (world_at 0 true)
              [world_at 1 false; world_at 29 false] (world_at 30 false) (world_at 31 false)
              [world_at 32 false] eq_refl eq_refl _ _ _).
    + repeat constructor.
    + repeat constructor.
    + vm_compute. discriminate.
  - exact (proj1 (proj1 (proj2 (inactivity_timer_stops_listening_once defaultConfig))
                    (LoopState false (Some 5) [7] false) (world_at 1 false)
                    eq_refl eq_refl)).
Defined.

(** * Part 5: further properties of the program

    Properties of the code beyond the specification: the lexer and the
    synthesizer on a whole directive, the effects of a dispatch, the
    listening loop over a session, the global key events, the log filter
    and the loading of the configuration. *)

(** ** The lexer and the synthesizer on a whole directive *)

Section WholeDirective.
Import GoString GoStringFacts LexerFacts SynthFacts ShiftFacts.

(** *** Strings *)
Lemma Split_nonempty (s : string) (sep : ascii) : Split s sep <> [].
Proof.
  destruct s as [|a s]; simpl; [discriminate |].
  destruct (Ascii.eqb a sep); [discriminate |]. now destruct (Split s sep).
Qed.

Lemma Join_cons (name : string) (rest : list string) (sep : ascii) :
  rest <> [] -> Join (name :: rest) sep = name +:+ String sep (Join rest sep).
Proof. now destruct rest. Qed.

(** [strings.Split] and [strings.Join] are inverse to each other on a string. *)
Lemma Join_Split (s : string) (sep : ascii) : Join (Split s sep) sep = s.
Proof.
  induction s as [|a s IH]; [reflexivity |]. simpl Split.
  destruct (Ascii.eqb_spec a sep) as [-> | _].
  - rewrite Join_cons by apply Split_nonempty. now rewrite IH.
  - pose proof (Split_nonempty s sep) as Hne.
    destruct (Split s sep) as [|piece pieces]; [congruence |].
    destruct pieces as [|p pieces]; [simpl in *; congruence |].
    rewrite Join_cons by discriminate. rewrite Join_cons in IH by discriminate.
    now rewrite <- IH.
Qed.

Lemma Split_pieces (s : string) (sep : ascii) :
  Forall (fun piece => contains sep piece = false) (Split s sep).
Proof.
  induction s as [|a s IH]; [repeat constructor |]. simpl Split.
  destruct (Ascii.eqb_spec a sep) as [-> | Hne]; [now constructor |].
  destruct (Split s sep) as [|piece pieces]; [repeat constructor; simpl |].
  - apply orb_false_iff. split; [now apply Ascii.eqb_neq | reflexivity].
  - inversion IH; subst. constructor; [| assumption].
    simpl. apply orb_false_iff. split; [now apply Ascii.eqb_neq | assumption].
Qed.

Lemma slice_valid (s : string) (lo hi : Z) :
  0 <= lo <= hi -> hi <= len s -> is_Some (slice s lo hi).
Proof.
  intros H1 H2. unfold slice.
  replace ((0 <=? lo) && (lo <=? hi) && (hi <=? len s)) with true
    by (symmetry; rewrite !andb_true_iff, !Z.leb_le; lia).
  eauto.
Qed.

Lemma slice_bounds (s : string) (lo hi : Z) (x : string) :
  slice s lo hi = Some x -> 0 <= lo <= hi /\ hi <= len s.
Proof.
  unfold slice. destruct (Z.leb_spec 0 lo), (Z.leb_spec lo hi), (Z.leb_spec hi (len s));
    simpl; try discriminate. lia.
Qed.

Lemma slice_first (s t : string) : slice (s +:+ t) 0 (len s) = Some s.
Proof. apply (slice_app "" s t). Qed.

(** *** The matches of the lexer are the combo groups, from left to right *)
Lemma all_bytes_contains (group : string) :
  all_bytes not_rbrace group = true -> contains "}" group = false.
Proof.
  induction group as [|a group IH]; simpl; [reflexivity |].
  intros H. apply andb_true_iff in H as [Ha Hg]. rewrite (IH Hg), orb_false_r.
  destruct (Ascii.eqb_spec a "}") as [-> | _]; [discriminate Ha | reflexivity].
Qed.

(** A match is the match of a combo group at its place. *)
Lemma scan_decompose (pos : Z) (s : string) (m : list Z) :
  scan pos s = Some m ->
  exists group after,
    s = "{" +:+ group +:+ "}" +:+ after
    /\ group <> "" /\ contains "}" group = false
    /\ m = group_match pos group after.
Proof.
  unfold scan. destruct s as [|a s1]; [discriminate |].
  destruct (Ascii.eqb_spec a "{") as [-> | _]; [| discriminate].
  destruct (span_spec not_rbrace s1) as (Es1 & Hgroup & Hs2).
  destruct (span not_rbrace s1) as [group s2]. simpl fst in *; simpl snd in *.
  destruct group as [|b group]; [discriminate |].
  destruct s2 as [|c s3]; [discriminate |].
  simpl in Hs2. apply negb_true_iff, not_rbrace_false in Hs2 as ->.
  intros H. exists (String b group), s3.
  split; [now rewrite Es1 |]. split; [discriminate |].
  split; [now apply all_bytes_contains |].
  unfold group_match. destruct (key_suffix s3) as [[key s5] |]; congruence.
Qed.

Lemma search_decompose (pos : Z) (s : string) (m : list Z) :
  search keyTapPattern pos s = Some m ->
  exists lit group after,
    s = lit +:+ "{" +:+ group +:+ "}" +:+ after
    /\ group <> "" /\ contains "}" group = false
    /\ m = group_match (pos + len lit) group after.
Proof.
  revert pos; induction s as [|a s IH]; intros pos; rewrite search_unfold.
  - destruct (scan pos "") eqn:E; [discriminate E | discriminate].
  - destruct (scan pos (String a s)) as [m' |] eqn:E.
    + intros [= <-]. destruct (scan_decompose _ _ _ E) as (g & after & Es & Hne & Hg & ->).
      exists "", g, after. change (len "") with 0. rewrite Z.add_0_r. auto.
    + intros Hs. destruct (IH _ Hs) as (lit & g & after & -> & Hne & Hg & ->).
      exists (String a lit), g, after. rewrite len_String.
      repeat split; try assumption. f_equal. lia.
Qed.

Lemma allMatches_in_order (text : string) (n : nat) (pos prevMatchEnd : Z) :
  0 <= pos -> in_order text pos (allMatches keyTapPattern text n pos prevMatchEnd).
Proof.
  revert pos prevMatchEnd; induction n as [|n IH]; intros pos prev Hpos; [exact I |].
  rewrite allMatches_S. destruct (Z.leb_spec pos (len text)) as [Hle |]; [| exact I].
  destruct (search _ _ _) as [m |] eqn:E; [| exact I].
  destruct (search_Some _ _ _ Hpos E)
    as (m0 & m1 & m2 & m3 & m4 & m5 & Em & H0 & H1 & _).
  destruct (search_decompose _ _ _ E) as (lit & g & after & Es & Hne & Hg & Egm).
  assert (Hat : group_at text pos m).
  { exists (first_bytes (Z.to_nat pos) text +:+ lit), g, after.
    assert (Hl : len (first_bytes (Z.to_nat pos) text) = pos)
      by (unfold len; rewrite length_first; unfold len in *; lia).
    repeat split; try assumption.
    - rewrite append_assoc, <- Es. symmetry. apply first_skip.
    - rewrite len_append, Hl. pose proof (len_nonneg lit). lia.
    - rewrite len_append, Hl. exact Egm. }
  rewrite Em in *.
  change ([m0; m1; m2; m3; m4; m5] !!! 1%nat) with m1.
  change ([m0; m1; m2; m3; m4; m5] !!! 0%nat) with m0.
  replace (m1 =? pos) with false by (symmetry; apply Z.eqb_neq; lia).
  split; [exact Hat |]. apply IH. lia.
Qed.

Lemma group_match_vector (pos : Z) (group after : string) :
  group <> "" -> contains "}" group = false ->
  exists m1 m3 m4 m5,
    group_match pos group after = [pos; m1; pos + 1; m3; m4; m5]
    /\ pos + 3 <= m1 <= pos + 2 + len group + len after.
Proof.
  intros Hne Hg. pose proof (scan_group pos group after Hne Hg) as Hscan.
  destruct (scan_Some _ _ _ Hscan) as (m1 & m3 & m4 & m5 & E & Hm1 & _).
  exists m1, m3, m4, m5. split; [exact E |].
  change ("{" +:+ group +:+ "}" +:+ after) with (String "{" (group +:+ String "}" after))
    in Hm1.
  rewrite len_String, len_append, len_String in Hm1. lia.
Qed.

Lemma group_match_shift (d : Z) (group after : string) :
  group <> "" -> contains "}" group = false ->
  group_match d group after = shift d (group_match 0 group after).
Proof.
  intros Hne Hg.
  pose proof (scan_group d group after Hne Hg) as H1.
  pose proof (scan_shift 0 d ("{" +:+ group +:+ "}" +:+ after) ltac:(lia)) as H2.
  rewrite Z.add_0_l, H1, (scan_group 0 group after Hne Hg) in H2.
  now injection H2.
Qed.

Lemma group_match_well_formed (group after : string) :
  group <> "" -> contains "}" group = false -> well_formed (group_match 0 group after).
Proof.
  intros Hne Hg. pose proof (scan_group 0 group after Hne Hg) as Hscan.
  destruct (scan_Some _ _ _ Hscan) as (m1 & m3 & m4 & m5 & E & Hm1 & Hm3 & Hm45).
  rewrite E. exists 0, m1, (0 + 1), m3, m4, m5. repeat split; try lia.
Qed.

Lemma group_at_vector (text : string) (lo : Z) (m : list Z) :
  group_at text lo m ->
  exists m0 m1 m2 m3 m4 m5,
    m = [m0; m1; m2; m3; m4; m5] /\ lo <= m0 /\ m0 + 3 <= m1 <= len text.
Proof.
  intros (pre & g & after & -> & Hne & Hg & Hlo & ->).
  destruct (group_match_vector (len pre) g after Hne Hg) as (m1 & m3 & m4 & m5 & E & Hm1).
  exists (len pre), m1, (len pre + 1), m3, m4, m5. split; [exact E |].
  split; [exact Hlo |].
  rewrite len_append.
  change ("{" +:+ g +:+ "}" +:+ after) with (String "{" (g +:+ String "}" after)).
  rewrite len_String, len_append, len_String. lia.
Qed.




Lemma in_order_bounds (text : string) (lo : Z) (matches : list (list Z)) :
  in_order text lo matches ->
  Forall (fun m => lo <= m !!! 0%nat /\ m !!! 0%nat < m !!! 1%nat) matches.
Proof.
  revert lo; induction matches as [|m rest IH]; intros lo Hin; [constructor |].
  destruct Hin as (Hat & Hrest).
  destruct (group_at_vector _ _ _ Hat) as (m0 & m1 & m2 & m3 & m4 & m5 & -> & Hm0 & Hm1).
  change ([m0; m1; m2; m3; m4; m5] !!! 1%nat) with m1 in *.
  constructor.
  - change ([m0; m1; m2; m3; m4; m5] !!! 0%nat) with m0.
    change ([m0; m1; m2; m3; m4; m5] !!! 1%nat) with m1. lia.
  - eapply Forall_impl; [apply (IH m1 Hrest) |]. intros m. cbv beta. lia.
Qed.

Lemma touching_cons (m : list Z) (rest : list (list Z)) :
  touching (m :: rest) = touches (m !!! 1%nat) rest.
Proof.
  revert m; induction rest as [|m' rest IH]; intros m; [reflexivity |].
  change (touching (m :: m' :: rest))
    with ((m' !!! 0%nat =? m !!! 1%nat) || touching (m' :: rest)).
  now rewrite IH.
Qed.

Lemma touches_first (text : string) (matches : list (list Z)) :
  in_order text 0 matches -> touches (-1) matches = touching matches.
Proof.
  destruct matches as [|m rest]; [reflexivity |]. intros (Hat & _).
  rewrite touching_cons. simpl touches.
  destruct (group_at_vector _ _ _ Hat) as (m0 & m1 & m2 & m3 & m4 & m5 & -> & Hm0 & _).
  change ([m0; m1; m2; m3; m4; m5] !!! 0%nat) with m0.
  now replace (m0 =? -1) with false by (symmetry; apply Z.eqb_neq; lia).
Qed.

(** *** The lexer behind a prefix *)
Lemma allMatches_behind (pre u : string) (n n' : nat) (pos prev prev' : Z) :
  0 <= pos <= len u ->
  (String.length u < Z.to_nat pos + n)%nat -> (String.length u < Z.to_nat pos + n')%nat ->
  allMatches keyTapPattern (pre +:+ u) n (pos + len pre) prev
    = map (shift (len pre)) (allMatches keyTapPattern u n' pos prev').
Proof.
  intros Hpos Hn Hn'.
  set (u1 := first_bytes (Z.to_nat pos) u). set (u2 := skip_bytes (Z.to_nat pos) u).
  assert (Eu : u = u1 +:+ u2) by (symmetry; apply first_skip).
  assert (Hu1 : len u1 = pos)
    by (unfold len, u1; rewrite length_first; unfold len in *; lia).
  assert (Hu2 : String.length u2 = (String.length u - Z.to_nat pos)%nat)
    by apply length_skip.
  assert (Hle : (Z.to_nat pos <= String.length u)%nat) by (unfold len in Hpos; lia).
  pose proof (allMatches_suffix u1 u2 n' (S (String.length u2)) prev' (-1)
                ltac:(lia) ltac:(lia)) as H1.
  pose proof (allMatches_suffix (pre +:+ u1) u2 n (S (String.length u2)) prev (-1)
                ltac:(lia) ltac:(lia)) as H2.
  rewrite append_assoc, <- Eu, len_append, Hu1 in H2.
  rewrite <- Eu, Hu1 in H1.
  rewrite (Z.add_comm pos), H2, H1, map_map. apply map_ext_Forall.
  eapply Forall_impl; [apply allMatches_well_formed; lia |].
  intros m Hm. cbv beta. rewrite shift_shift by (lia || exact Hm). f_equal. lia.
Qed.

(** When the first match of a text is the first match of its rest, moved, so are all of them. *)
Lemma FindAll_behind (pre s : string) :
  search keyTapPattern 0 (pre +:+ s) = shift (len pre) <$> search keyTapPattern 0 s ->
  FindAllStringSubmatchIndex keyTapPattern (pre +:+ s)
    = map (shift (len pre)) (FindAllStringSubmatchIndex keyTapPattern s).
Proof.
  intros Hsearch. rewrite !FindAll_unfold, Hsearch.
  destruct (search keyTapPattern 0 s) as [m |] eqn:E; [| reflexivity].
  destruct (search_Some 0 s _ ltac:(lia) E)
    as (m0 & m1 & m2 & m3 & m4 & m5 & -> & H0 & H1 & H2 & H3 & H45).
  pose proof (len_nonneg pre) as Hpre.
  destruct (shift_well_formed (len pre) m0 m1 m2 m3 m4 m5
              ltac:(lia) ltac:(lia) ltac:(lia) ltac:(lia) H45) as (s4 & s5 & Es & _).
  change (shift (len pre) <$> Some [m0; m1; m2; m3; m4; m5])
    with (Some (shift (len pre) [m0; m1; m2; m3; m4; m5])).
  rewrite Es. cbv zeta.
  change ([m0; m1; m2; m3; m4; m5] !!! 1%nat) with m1.
  change ([m0 + len pre; m1 + len pre; m2 + len pre; m3 + len pre; s4; s5] !!! 1%nat)
    with (m1 + len pre).
  replace (m1 + len pre =? 0) with false by (symmetry; apply Z.eqb_neq; lia).
  replace (m1 =? 0) with false by (symmetry; apply Z.eqb_neq; lia).
  change (map (shift (len pre)) (?x :: ?l))
    with (shift (len pre) x :: map (shift (len pre)) l).
  rewrite Es. f_equal.
  apply allMatches_behind; [lia | |]; rewrite ?length_append; unfold len in *; lia.
Qed.

Lemma search_literal (lit s : string) (pos : Z) :
  contains "{" lit = false ->
  search keyTapPattern pos (lit +:+ s) = search keyTapPattern (pos + len lit) s.
Proof.
  revert pos; induction lit as [|a lit IH]; intros pos H.
  - change (len "") with 0. now rewrite Z.add_0_r.
  - simpl in H. apply orb_false_iff in H as [Ha Hlit].
    change (String a lit +:+ s) with (String a (lit +:+ s)).
    rewrite search_unfold. simpl scan. rewrite Ha.
    rewrite IH by exact Hlit. rewrite len_String. f_equal. lia.
Qed.

Lemma FindAll_literal (lit s : string) :
  contains "{" lit = false ->
  FindAllStringSubmatchIndex keyTapPattern (lit +:+ s)
    = map (shift (len lit)) (FindAllStringSubmatchIndex keyTapPattern s).
Proof.
  intros H. apply FindAll_behind.
  rewrite search_literal by exact H. apply search_shift. lia.
Qed.

Lemma FindAll_skip (b : ascii) (s : string) :
  match_at keyTapPattern 0 (String b s) = None ->
  FindAllStringSubmatchIndex keyTapPattern (String b s)
    = map (shift 1) (FindAllStringSubmatchIndex keyTapPattern s).
Proof.
  intros H. rewrite match_at_keyTapPattern in H.
  apply (FindAll_behind (String b "") s).
  change (String b "" +:+ s) with (String b s).
  rewrite search_unfold, H. apply (search_shift 0 1). lia.
Qed.

Lemma scan_no_rbrace (pos : Z) (s : string) :
  contains "}" s = false -> scan pos s = None.
Proof.
  intros H. unfold scan. destruct s as [|a s1]; [reflexivity |].
  destruct (Ascii.eqb a "{"); [| reflexivity].
  simpl in H. apply orb_false_iff in H as [_ H].
  pose proof (span_app not_rbrace s1 "" (no_rbrace _ H) eq_refl) as E.
  rewrite append_nil_r in E. rewrite E. simpl. now destruct s1.
Qed.

Lemma search_no_rbrace (pos : Z) (s : string) :
  contains "}" s = false -> search keyTapPattern pos s = None.
Proof.
  revert pos; induction s as [|a s IH]; intros pos H; rewrite search_unfold.
  - reflexivity.
  - rewrite scan_no_rbrace by exact H. simpl in H.
    apply orb_false_iff in H as [_ H]. now apply IH.
Qed.

(** *** The press of a combo group *)
Lemma modifierMap_values (name x : string) :
  modifierMap !! name = Some x -> x ∈ robotgo_names.
Proof.
  unfold modifierMap, robotgo_names. intros H.
  repeat (apply lookup_insert_Some in H as [[_ <-] | [_ H]]; [set_solver |]).
  now rewrite lookup_empty in H.
Qed.

Lemma known_values (names : list string) : Forall (fun x => x ∈ robotgo_names) (known names).
Proof.
  apply Forall_forall. intros x Hx. unfold known in Hx.
  apply list_elem_of_omap in Hx as (name & _ & Hname).
  exact (modifierMap_values name x Hname).
Qed.

(** The press of a combo group never panics. *)
Lemma extract_group_key (group after : string) :
  group <> "" -> contains "}" group = false ->
  exists names key,
    extractModifiersAndKeyFromMatch ("{" +:+ group +:+ "}" +:+ after)
        (group_match 0 group after)
      = Run (unknown_logs names) (Some (known names, key))
    /\ pressed_key key.
Proof.
  intros Hne Hg. unfold group_match.
  destruct (key_suffix after) as [[key after'] |] eqn:Ekey.
  - apply key_suffix_Some in Ekey as (-> & Hk & Hkey & _).
    exists (Split group "+"), key. pose proof (len_nonneg group).
    split; [| now left].
    apply extract_with_key; [apply slice_group | lia | apply slice_key].
  - destruct (exists_last (Split_nonempty group "+")) as (names & name & E).
    exists names, (default "" (modifierMap !! name)). split.
    + apply extract_without_key.
      * rewrite <- E, Join_Split. apply slice_group.
      * rewrite <- E. apply Split_pieces.
    + right. destruct (modifierMap !! name) as [x |] eqn:Ex; [right | now left].
      exact (modifierMap_values name x Ex).
Qed.

Lemma extract_group (group after : string) :
  group <> "" -> contains "}" group = false ->
  exists names key,
    extractModifiersAndKeyFromMatch ("{" +:+ group +:+ "}" +:+ after)
        (group_match 0 group after)
      = Run (unknown_logs names) (Some (known names, key)).
Proof.
  intros Hne Hg. destruct (extract_group_key group after Hne Hg) as (names & key & E & _).
  eauto.
Qed.

Lemma group_at_extract_key (text : string) (lo : Z) (m : list Z) :
  group_at text lo m ->
  exists names key,
    extractModifiersAndKeyFromMatch text m = Run (unknown_logs names) (Some (known names, key))
    /\ pressed_key key.
Proof.
  intros (pre & g & after & -> & Hne & Hg & _ & ->).
  destruct (extract_group_key g after Hne Hg) as (names & key & E & Hkey).
  exists names, key. split; [| exact Hkey]. rewrite group_match_shift by assumption.
  rewrite extract_shift by now apply group_match_well_formed.
  exact E.
Qed.

Lemma group_at_extract (text : string) (lo : Z) (m : list Z) :
  group_at text lo m ->
  exists names key,
    extractModifiersAndKeyFromMatch text m = Run (unknown_logs names) (Some (known names, key)).
Proof.
  intros (pre & g & after & -> & Hne & Hg & _ & ->).
  destruct (extract_group g after Hne Hg) as (names & key & E).
  exists names, key. rewrite group_match_shift by assumption.
  rewrite extract_shift by now apply group_match_well_formed.
  exact E.
Qed.

Lemma slice_after_group (group after : string) :
  slice_from ("{" +:+ group +:+ "}" +:+ after) (group_match 0 group after !!! 1%nat)
    = Some (skip_bytes (Z.to_nat (match_tail after)) after).
Proof.
  rewrite group_match_1. pose proof (match_tail_bounds after) as Htail.
  set (c := Z.to_nat (match_tail after)) in *.
  set (pre := "{" +:+ group +:+ "}" +:+ first_bytes c after).
  assert (E : "{" +:+ group +:+ "}" +:+ after = pre +:+ skip_bytes c after).
  { unfold pre. rewrite !append_assoc. now rewrite first_skip. }
  assert (Hpre : 0 + 2 + len group + match_tail after = len pre).
  { unfold pre.
    change ("{" +:+ group +:+ "}" +:+ first_bytes c after)
      with (String "{" (group +:+ String "}" (first_bytes c after))).
    rewrite len_String, len_append, len_String.
    replace (len (first_bytes c after)) with (Z.of_nat c)
      by (unfold len; rewrite length_first; unfold c, len in *; lia).
    unfold c. lia. }
  rewrite E, Hpre. apply slice_from_app.
Qed.

Lemma key_suffix_brace (sep s : string) :
  sep = "" \/ sep = " " \/ sep = ";" ->
  key_suffix (sep +:+ String "{" s) = None
  /\ after_separator 0 (sep +:+ String "{" s) = len sep
  /\ stops_at key_byte (sep +:+ String "{" s) = true.
Proof. intros [-> | [-> | ->]]; repeat split. Qed.

(** *** The loop of [simulateTyping] over the matches *)

(** One iteration of the loop that types and presses. *)
Lemma range_matches_step (text : string) (m0 m1 m2 m3 m4 m5 : Z) (rest : list (list Z))
    (lastIndex : Z) (typed logs : list event) (modifiers : list string) (key : string) :
  type_before text lastIndex m0 = Run typed (Some tt) ->
  extractModifiersAndKeyFromMatch text [m0; m1; m2; m3; m4; m5]
    = Run logs (Some (modifiers, key)) ->
  range_matches text ([m0; m1; m2; m3; m4; m5] :: rest) lastIndex =
    Run (typed ++ logs
           ++ [KeySleep 100; KeyTap key modifiers; KeyTap "shift" []; Sleep 100]
           ++ trace (range_matches text rest (m1 + 1)))
        (result (range_matches text rest (m1 + 1))).
Proof.
  intros Htyped Hextract. rewrite range_matches_vector, Htyped, bind_Run, Hextract, bind_Run.
  cbn [trace result]. rewrite keyTapWithModifiers_closed, bind_Run. reflexivity.
Qed.

Lemma type_before_result (text : string) (lastIndex m0 : Z) :
  0 <= lastIndex <= m0 -> m0 <= len text -> result (type_before text lastIndex m0) = Some tt.
Proof.
  intros H1 H2. unfold type_before. destruct (negb (lastIndex =? m0)); [| reflexivity].
  destruct (slice_valid text lastIndex m0 H1 H2) as [before ->]. reflexivity.
Qed.

Lemma type_before_cases (text : string) (lastIndex m0 : Z) :
  type_before text lastIndex m0 = Run [] None
  \/ exists typed,
       type_before text lastIndex m0 = Run typed (Some tt)
       /\ List.filter is_press (operations typed) = [].
Proof.
  unfold type_before. destruct (negb _); [| right; now exists []].
  destruct (slice text lastIndex m0) as [before |]; [right | now left].
  eexists. split; reflexivity.
Qed.

Lemma type_before_typed (text : string) (lastIndex m0 : Z) :
  type_before text lastIndex m0 = Run [] None
  \/ lastIndex = m0 /\ type_before text lastIndex m0 = Run [] (Some tt)
  \/ exists before,
       lastIndex < m0 /\ slice text lastIndex m0 = Some before
       /\ type_before text lastIndex m0
          = Run [Fprintln [Str "righthand: typing text:"; Str before]; TypeStr before]
                (Some tt).
Proof.
  unfold type_before. destruct (Z.eqb_spec lastIndex m0) as [-> | Hne]; simpl negb.
  - right. now left.
  - destruct (slice text lastIndex m0) as [before |] eqn:E; [| now left].
    right. right. exists before. apply slice_bounds in E as Hb.
    split; [lia |]. split; reflexivity.
Qed.

Lemma type_before_taps (text : string) (lastIndex m0 : Z) :
  Forall tap_ok (trace (type_before text lastIndex m0)).
Proof.
  unfold type_before. destruct (negb _); [| constructor].
  destruct (slice text lastIndex m0); repeat constructor.
Qed.

Lemma unknown_logs_taps (names : list string) : Forall tap_ok (unknown_logs names).
Proof.
  induction names as [|name names IH]; [constructor |]. simpl.
  destruct (modifierMap !! name); [exact IH | now constructor].
Qed.

(** The loop panics exactly at a match that starts where the match before it ends. *)
Lemma range_matches_result (text : string) (matches : list (list Z)) (lo e : Z) :
  in_order text lo matches -> -1 <= e <= lo ->
  if touches e matches
  then result (range_matches text matches (e + 1)) = None
  else exists lastIndex,
         result (range_matches text matches (e + 1)) = Some lastIndex /\ 0 <= lastIndex.
Proof.
  revert lo e; induction matches as [|m rest IH]; intros lo e Hin He.
  - simpl. exists (e + 1). split; [reflexivity | lia].
  - destruct Hin as (Hat & Hrest).
    destruct (group_at_extract _ _ _ Hat) as (names & key & Hextract).
    destruct (group_at_vector _ _ _ Hat) as (m0 & m1 & m2 & m3 & m4 & m5 & -> & Hm0 & Hm1).
    simpl touches.
    change ([m0; m1; m2; m3; m4; m5] !!! 1%nat) with m1 in *.
    change ([m0; m1; m2; m3; m4; m5] !!! 0%nat) with m0.
    rewrite range_matches_vector, result_bind.
    destruct (Z.eqb_spec m0 e) as [-> | Hne]; simpl orb.
    + unfold type_before.
      replace (e + 1 =? e) with false by (symmetry; apply Z.eqb_neq; lia).
      simpl negb. cbv iota. now rewrite slice_reversed by lia.
    + rewrite type_before_result by lia.
      rewrite result_bind, Hextract. cbn [result].
      rewrite result_bind. cbn [result keyTapWithModifiers].
      rewrite keyTapWithModifiers_closed. cbn [result].
      apply (IH m1 m1 Hrest). lia.
Qed.

Lemma range_matches_taps (text : string) (matches : list (list Z)) (lo lastIndex : Z) :
  in_order text lo matches -> Forall tap_ok (trace (range_matches text matches lastIndex)).
Proof.
  revert lo lastIndex; induction matches as [|m rest IH]; intros lo lastIndex Hin.
  - constructor.
  - destruct Hin as (Hat & Hrest).
    destruct (group_at_extract_key _ _ _ Hat) as (names & key & Hextract & Hkey).
    destruct (group_at_vector _ _ _ Hat) as (m0 & m1 & m2 & m3 & m4 & m5 & -> & _).
    change ([m0; m1; m2; m3; m4; m5] !!! 1%nat) with m1 in *.
    rewrite range_matches_vector, trace_bind. apply Forall_app.
    split; [apply type_before_taps |].
    destruct (result (type_before text lastIndex m0)); [| constructor].
    rewrite Hextract, bind_Run. cbn [trace result]. apply Forall_app.
    split; [apply unknown_logs_taps |].
    rewrite keyTapWithModifiers_closed, bind_Run. cbn [trace result].
    constructor; [exact I |].
    constructor; [right; split; [exact Hkey | apply known_values] |].
    constructor; [now left |].
    constructor; [exact I |]. apply (IH m1 _ Hrest).
Qed.

Lemma range_matches_presses (text : string) (matches : list (list Z)) (lo lastIndex : Z) :
  in_order text lo matches ->
  exists combos,
    List.filter is_press (operations (trace (range_matches text matches lastIndex)))
      = presses combos
    /\ Forall2 (pressed_as text) (take (length combos) matches) combos
    /\ (result (range_matches text matches lastIndex) <> None ->
        length combos = length matches).
Proof.
  revert lo lastIndex; induction matches as [|m rest IH]; intros lo lastIndex Hin.
  - exists []. repeat split. constructor.
  - destruct Hin as (Hat & Hrest).
    destruct (group_at_extract _ _ _ Hat) as (names & key & Hextract).
    destruct (group_at_vector _ _ _ Hat) as (m0 & m1 & m2 & m3 & m4 & m5 & -> & _).
    change ([m0; m1; m2; m3; m4; m5] !!! 1%nat) with m1 in *.
    destruct (type_before_cases text lastIndex m0) as [Hpanic | (typed & Htyped & Hops)].
    + exists []. rewrite range_matches_vector, Hpanic, bind_panic.
      split; [reflexivity |]. split; [constructor |]. intros H. now destruct H.
    + destruct (IH m1 (m1 + 1) Hrest) as (combos & Hc & Hall & Hres).
      exists ((known names, key) :: combos).
      rewrite (range_matches_step _ _ _ _ _ _ _ _ _ _ _ _ _ Htyped Hextract).
      cbn [trace result]. rewrite !operations_app, operations_unknown_logs.
      rewrite !List.filter_app, Hops. cbn [app operations List.filter is_press].
      rewrite Hc. split; [reflexivity |]. split.
      * cbn [length take]. constructor; [now exists (unknown_logs names) | exact Hall].
      * intros H. cbn [length]. now rewrite (Hres H).
Qed.

Lemma range_matches_typed (text : string) (matches : list (list Z)) (lo e : Z) :
  in_order text lo matches -> -1 <= e <= lo ->
  Forall (typed_between text matches (e + 1)) (trace (range_matches text matches (e + 1)))
  /\ (forall x, result (range_matches text matches (e + 1)) = Some x ->
        e + 1 <= x /\ Forall (fun m => m !!! 1%nat < x) matches).
Proof.
  revert lo e; induction matches as [|m rest IH]; intros lo e Hin He.
  - split; [constructor |]. intros x [= <-]. split; [lia | constructor].
  - destruct Hin as (Hat & Hrest).
    destruct (group_at_extract _ _ _ Hat) as (names & key & Hextract).
    destruct (group_at_vector _ _ _ Hat) as (m0 & m1 & m2 & m3 & m4 & m5 & -> & Hm0 & Hm1).
    change ([m0; m1; m2; m3; m4; m5] !!! 1%nat) with m1 in *.
    pose proof (in_order_bounds _ _ _ Hrest) as Hrb.
    destruct (IH m1 m1 Hrest ltac:(lia)) as (IHt & IHr).
    assert (Hlater : Forall (typed_between text ([m0; m1; m2; m3; m4; m5] :: rest) (e + 1))
                       (trace (range_matches text rest (m1 + 1)))).
    { eapply Forall_impl; [exact IHt |]. intros ev.
      destruct ev; try exact id. intros (a & b & Hs & Hab & Hall).
      exists a, b. split; [exact Hs |]. split; [lia |].
      constructor; [right | exact Hall].
      change ([m0; m1; m2; m3; m4; m5] !!! 1%nat) with m1. lia. }
    assert (Hlogs : Forall (typed_between text ([m0; m1; m2; m3; m4; m5] :: rest) (e + 1))
                      (unknown_logs names)).
    { clear. induction names as [|n names IH]; [constructor |]. simpl.
      destruct (modifierMap !! n); [exact IH | now constructor]. }
    assert (Hres : forall x, result (range_matches text rest (m1 + 1)) = Some x ->
                     e + 1 <= x
                     /\ Forall (fun m => m !!! 1%nat < x) ([m0; m1; m2; m3; m4; m5] :: rest)).
    { intros x Hx. destruct (IHr x Hx) as (Hle & Hall). split; [lia |].
      constructor; [| exact Hall].
      change ([m0; m1; m2; m3; m4; m5] !!! 1%nat) with m1. lia. }
    destruct (type_before_typed text (e + 1) m0)
      as [Hpanic | [(Heq & Htyped) | (before & Hlt & Hslice & Htyped)]].
    + rewrite range_matches_vector, Hpanic, bind_panic. split; [constructor | discriminate].
    + rewrite (range_matches_step _ _ _ _ _ _ _ _ _ _ _ _ _ Htyped Hextract).
      cbn [trace result app]. split; [| exact Hres].
      apply Forall_app. split; [exact Hlogs |]. repeat (constructor; [exact I |]).
      exact Hlater.
    + rewrite (range_matches_step _ _ _ _ _ _ _ _ _ _ _ _ _ Htyped Hextract).
      cbn [trace result app]. split; [| exact Hres].
      constructor; [exact I |]. constructor.
      * exists (e + 1), m0. split; [exact Hslice |]. split; [lia |].
        constructor; [left; change ([m0; m1; m2; m3; m4; m5] !!! 0%nat) with m0; lia |].
        eapply Forall_impl; [exact Hrb |]. intros m. cbv beta. lia.
      * apply Forall_app. split; [exact Hlogs |]. repeat (constructor; [exact I |]).
        exact Hlater.
Qed.

(** After a combo group: one byte is skipped, and the synthesizer goes on
    as on a directive of its own. *)
Lemma continue_on_skip (b : ascii) (s : string) :
  match_at keyTapPattern 0 (String b s) = None ->
  continue_on (String b s) = simulateTyping s.
Proof.
  intros H. unfold continue_on. rewrite (FindAll_skip b s H), simulateTyping_unfold.
  pose proof (range_matches_shift (String b "") s
                (FindAllStringSubmatchIndex keyTapPattern s) 0
                (allMatches_well_formed s _ 0 (-1) ltac:(lia)) ltac:(lia)) as Hmoved.
  exact (moved_remainder (String b "") s _ _ Hmoved).
Qed.

Lemma continue_on_empty : continue_on "" = Run [] (Some tt).
Proof. reflexivity. Qed.

(** *** Properties *)

(** X1. A directive that is not empty and has no opening brace, or no
    closing brace, is typed as it is: one line on standard error, a pause
    of 100 ms and one call of [robotgo.TypeStr] with the whole text; no key
    is tapped and the run ends normally. *)
Theorem text_without_braces_is_typed (text : string) :
  text <> "" ->
  contains "{" text = false \/ contains "}" text = false ->
  simulateTyping text =
    Run [Fprintln [Str "righthand: typing remainder of text:"; Str text];
         Sleep 100; TypeStr text] (Some tt).
Proof.
  intros Hne H.
  assert (HF : FindAllStringSubmatchIndex keyTapPattern text = []).
  { destruct H as [H | H]; [now apply FindAll_no_brace |].
    now rewrite FindAll_unfold, search_no_rbrace. }
  rewrite (simulateTyping_no_match text HF). now destruct text.
Qed.

Lemma text_without_braces_is_typed_witness :
  simulateTyping "echo }"
    = Run [Fprintln [Str "righthand: typing remainder of text:"; Str "echo }"];
           Sleep 100; TypeStr "echo }"] (Some tt).
Proof.
  apply text_without_braces_is_typed; [discriminate | left; reflexivity].
Defined.


(** X3. [simulateTyping] ends in a panic exactly when two successive
    matches touch, the second starting where the first ends: [lastIndex]
    is then one past the start of the second match and the slice
    [text[lastIndex:match[0]]] has its bounds reversed.  On every other
    directive it ends normally. *)
Theorem simulateTyping_panics_iff_matches_touch (text : string) :
  result (simulateTyping text)
    = if touching (FindAllStringSubmatchIndex keyTapPattern text) then None else Some tt.
Proof.
  rewrite simulateTyping_unfold, result_bind.
  pose proof (range_matches_result text _ 0 (-1)
                (allMatches_in_order text (S (String.length text)) 0 (-1) ltac:(lia))
                ltac:(lia)) as H.
  change (-1 + 1) with 0 in H.
  fold (FindAllStringSubmatchIndex keyTapPattern text) in H.
  rewrite (touches_first text) in H by apply allMatches_in_order, Z.le_refl.
  destruct (touching _).
  - now rewrite H.
  - destruct H as (lastIndex & -> & Hl). unfold type_remainder.
    destruct (Z.ltb_spec lastIndex (len text)) as [Hlt |]; [| reflexivity].
    unfold slice_from.
    destruct (slice_valid text lastIndex (len text) ltac:(lia) ltac:(lia)) as [r ->].
    reflexivity.
Qed.

(** X4. Two combo groups with nothing between them but the key of the
    first and at most one space or semicolon: the first group is pressed,
    then [simulateTyping] panics; the second group is never pressed and
    nothing after it is typed. *)
Theorem groups_one_separator_apart_panic (group1 key sep group2 after : string) :
  group1 <> "" -> contains "}" group1 = false ->
  group2 <> "" -> contains "}" group2 = false ->
  all_bytes key_byte key = true ->
  sep = "" \/ sep = " " \/ sep = ";" ->
  let suffix := match key with "" => "" | _ => "+" +:+ key end in
  let text := "{" +:+ group1 +:+ "}" +:+ suffix +:+ sep
                +:+ "{" +:+ group2 +:+ "}" +:+ after in
  exists (names : list string) (pressed : string),
    simulateTyping text
      = Run (unknown_logs names
               ++ [KeySleep 100; KeyTap pressed (known names); KeyTap "shift" []; Sleep 100])
            None
    /\ operations (trace (simulateTyping text))
       = [PressCombo (known names) pressed; PressCombo [] "shift"].
Proof.
  intros Hne1 Hg1 Hne2 Hg2 Hkey Hsep suffix text.
  set (next := "{" +:+ group2 +:+ "}" +:+ after).
  assert (Etext : text = "{" +:+ group1 +:+ "}" +:+ (suffix +:+ sep +:+ next)).
  { reflexivity. }
  destruct (extract_group group1 (suffix +:+ sep +:+ next) Hne1 Hg1)
    as (names & pressed & Hextract).
  assert (Htail : skip_bytes (Z.to_nat (match_tail (suffix +:+ sep +:+ next)))
                    (suffix +:+ sep +:+ next) = next).
  { destruct (key_suffix_brace sep (group2 +:+ String "}" after) Hsep) as (Hk & Ha & Hs).
    change (String "{" (group2 +:+ String "}" after)) with next in Hk, Ha, Hs.
    unfold match_tail. destruct key as [|a key].
    - unfold suffix. change ("" +:+ sep +:+ next) with (sep +:+ next).
      rewrite Hk, Ha. replace (Z.to_nat (len sep)) with (String.length sep)
        by (unfold len; lia).
      apply skip_append.
    - assert (E : suffix +:+ sep +:+ next = (suffix +:+ sep) +:+ next)
        by now rewrite append_assoc.
      assert (Hm : (match key_suffix (suffix +:+ sep +:+ next) with
                    | Some (key, after') => after_separator (1 + len key) after'
                    | None => after_separator 0 (suffix +:+ sep +:+ next)
                    end) = len (suffix +:+ sep)).
      { unfold suffix. rewrite append_assoc.
        rewrite (key_suffix_intro (String a key) (sep +:+ next))
          by (assumption || discriminate).
        rewrite <- (Z.add_0_l (1 + len (String a key))), after_separator_shift, Ha.
        rewrite !len_append. change (len "+") with 1. lia. }
      rewrite Hm, E. replace (Z.to_nat (len (suffix +:+ sep)))
        with (String.length (suffix +:+ sep)) by (unfold len; lia).
      apply skip_append. }
  exists names, pressed.
  assert (Hsim : simulateTyping text
                 = Run (unknown_logs names
                          ++ [KeySleep 100; KeyTap pressed (known names); KeyTap "shift" [];
                              Sleep 100]) None).
  { rewrite Etext.
    apply (adjacent_groups group1 (suffix +:+ sep +:+ next) _ _ _
             (group_match 0 group2 after) Hne1 Hg1 Hextract).
    rewrite Htail. apply (scan_group 0 group2 after Hne2 Hg2). }
  split; [exact Hsim |]. rewrite Hsim. cbn [trace].
  rewrite operations_app, operations_unknown_logs. reflexivity.
Qed.

Lemma groups_one_separator_apart_panic_witness :
  exists (names : list string) (pressed : string),
    simulateTyping "{Command}+a {Command}+c"
      = Run (unknown_logs names
               ++ [KeySleep 100; KeyTap pressed (known names); KeyTap "shift" []; Sleep 100])
            None
    /\ operations (trace (simulateTyping "{Command}+a {Command}+c"))
       = [PressCombo (known names) pressed; PressCombo [] "shift"].
Proof.
  refine (groups_one_separator_apart_panic "Command" "a" " " "Command" "+c" _ _ _ _ _ _).
  - discriminate.
  - reflexivity.
  - discriminate.
  - reflexivity.
  - reflexivity.
  - right. left. reflexivity.
Defined.

(** X5. A directive that starts with a combo group: the group is the
    first match, and it is pressed; [rest] is the text behind the match.
    When [rest] is empty the run ends there.  When [rest] does not start
    with a match, its first byte is skipped, whatever it is, and the
    synthesizer goes on exactly as [simulateTyping] does on the bytes
    after it. *)
Theorem byte_after_group_is_skipped (group after : string) :
  group <> "" -> contains "}" group = false ->
  let text := "{" +:+ group +:+ "}" +:+ after in
  let rest := skip_bytes (Z.to_nat (match_tail after)) after in
  exists (names : list string) (key : string) (later : list (list Z)),
    let press := unknown_logs names
                   ++ [KeySleep 100; KeyTap key (known names); KeyTap "shift" []; Sleep 100] in
    FindAllStringSubmatchIndex keyTapPattern text
      = group_match 0 group after :: later
    /\ slice_from text (group_match 0 group after !!! 1%nat) = Some rest
    /\ (rest = "" -> simulateTyping text = Run press (Some tt))
    /\ (forall b rest',
          rest = String b rest' -> match_at keyTapPattern 0 rest = None ->
          simulateTyping text
            = Run (press ++ trace (simulateTyping rest')) (result (simulateTyping rest'))).
Proof.
  intros Hne Hg text rest.
  destruct (extract_group group after Hne Hg) as (names & key & Hextract).
  pose proof (simulateTyping_group_rest group after _ _ _ Hne Hg Hextract) as Hsim.
  cbv zeta in Hsim. fold text rest in Hsim.
  exists names, key. eexists. intros press. split; [apply (FindAll_group group after Hne Hg) |].
  split; [| split].
  - apply slice_after_group.
  - intros E. rewrite Hsim, E, continue_on_empty. unfold press. cbn [trace result].
    now rewrite app_nil_r.
  - intros b rest' E Hno. rewrite Hsim, E, continue_on_skip by (rewrite <- E; exact Hno).
    unfold press. now rewrite <- app_assoc.
Qed.

Lemma byte_after_group_is_skipped_witness :
  exists (names : list string) (key : string),
    simulateTyping "{Command}+t abc"
      = Run ((unknown_logs names
                ++ [KeySleep 100; KeyTap key (known names); KeyTap "shift" []; Sleep 100])
               ++ trace (simulateTyping "bc"))
            (result (simulateTyping "bc")).
Proof.
  destruct (byte_after_group_is_skipped "Command" "+t abc" ltac:(discriminate) eq_refl)
    as (names & key & later & _ & _ & _ & H).
  exists names, key. exact (H "a"%char "bc" eq_refl eq_refl).
Defined.

(** X6. Literal text without an opening brace in front of a combo group
    is typed first, as it is; the rest of the directive is then replayed
    exactly as [simulateTyping] replays it alone. *)
Theorem literal_before_first_group (lit group after : string) :
  lit <> "" -> contains "{" lit = false ->
  group <> "" -> contains "}" group = false ->
  let text := "{" +:+ group +:+ "}" +:+ after in
  simulateTyping (lit +:+ text) =
    Run ([Fprintln [Str "righthand: typing text:"; Str lit]; TypeStr lit]
           ++ trace (simulateTyping text))
        (result (simulateTyping text)).
Proof.
  intros Hlit Hbrace Hne Hg text.
  pose proof (len_nonneg lit) as Hlen.
  assert (Hpos : 0 < len lit).
  { destruct lit; [congruence |]. rewrite len_String. pose proof (len_nonneg lit). lia. }
  rewrite !simulateTyping_unfold, (FindAll_literal lit text Hbrace).
  pose proof (FindAll_group group after Hne Hg) as HF. cbv zeta in HF. fold text in HF.
  pose proof (allMatches_well_formed text (String.length text)
                (group_match 0 group after !!! 1%nat) (group_match 0 group after !!! 1%nat))
    as Hlater.
  rewrite HF. clear HF. set (later := allMatches _ _ _ _ _) in *.
  destruct (extract_group group after Hne Hg) as (names & key & Hextract). fold text in Hextract.
  pose proof (extract_shift lit text _ (group_match_well_formed group after Hne Hg)) as Hshift.
  rewrite Hextract in Hshift.
  destruct (group_match_vector 0 group after Hne Hg) as (m1 & m3 & m4 & m5 & Em & Hm1).
  rewrite Em in *. change ([0; m1; 0 + 1; m3; m4; m5] !!! 1%nat) with m1 in *.
  specialize (Hlater ltac:(lia)).
  assert (H45 : exists s4 s5,
             shift (len lit) [0; m1; 0 + 1; m3; m4; m5]
             = [len lit; m1 + len lit; 0 + 1 + len lit; m3 + len lit; s4; s5]).
  { unfold shift. simpl map.
    pose proof (scan_group 0 group after Hne Hg) as Hscan. fold text in Hscan.
    destruct (scan_Some _ _ _ Hscan) as (n1 & n3 & n4 & n5 & E & _ & Hn3 & _).
    rewrite Em in E. injection E as -> -> -> ->.
    rewrite (shift_entry (len lit) n1), (shift_entry (len lit) n3) by lia. eauto. }
  destruct H45 as (s4 & s5 & Es).
  change (map (shift (len lit)) (?x :: ?l))
    with (shift (len lit) x :: map (shift (len lit)) l).
  rewrite Es in *.
  rewrite (range_matches_step (lit +:+ text) _ _ _ _ _ _ _ 0
             [Fprintln [Str "righthand: typing text:"; Str lit]; TypeStr lit]
             _ _ _ ltac:(unfold type_before;
                         replace (0 =? len lit) with false
                           by (symmetry; apply Z.eqb_neq; lia);
                         cbn [negb]; now rewrite slice_first) Hshift).
  rewrite (range_matches_step text 0 m1 (0 + 1) m3 m4 m5 later 0 [] _ _ _ eq_refl Hextract).
  pose proof (range_matches_shift lit text later (m1 + 1) Hlater ltac:(lia)) as Hmoved.
  replace (m1 + 1 + len lit) with (m1 + len lit + 1) in Hmoved by lia.
  pose proof (moved_remainder lit text _ _ Hmoved) as Hrun.
  destruct Hmoved as (Htrace & _).
  apply (f_equal trace) in Hrun as Ht. apply (f_equal result) in Hrun as Hr.
  rewrite !trace_bind in Ht. rewrite !result_bind in Hr.
  apply run_eq.
  - rewrite !trace_bind. cbn [trace result]. rewrite app_nil_l, <- !app_assoc.
    do 3 f_equal. exact Ht.
  - rewrite !result_bind. cbn [result]. exact Hr.
Qed.

Lemma literal_before_first_group_witness :
  simulateTyping "ls{Enter}"
    = Run ([Fprintln [Str "righthand: typing text:"; Str "ls"]; TypeStr "ls"]
             ++ trace (simulateTyping "{Enter}"))
          (result (simulateTyping "{Enter}")).
Proof.
  refine (literal_before_first_group "ls" "Enter" "" _ _ _ _).
  - discriminate.
  - reflexivity.
  - discriminate.
  - reflexivity.
Defined.

(** X7. The key presses of a directive are those of its matches, in
    order from the first: each match is pressed with the modifiers and the
    key that [extractModifiersAndKeyFromMatch] returns for it, and each
    press is followed by the tap of shift that undoes the modifiers; no
    match is pressed twice; and when the run ends normally every match has
    been pressed. *)
Theorem every_group_is_pressed_once (text : string) :
  let matches := FindAllStringSubmatchIndex keyTapPattern text in
  exists combos,
    List.filter is_press (operations (trace (simulateTyping text))) = presses combos
    /\ Forall2 (pressed_as text) (take (length combos) matches) combos
    /\ (result (simulateTyping text) = Some tt -> length combos = length matches).
Proof.
  intros matches.
  destruct (range_matches_presses text matches 0 0 (allMatches_in_order text _ 0 (-1) ltac:(lia)))
    as (combos & Hc & Hall & Hres).
  exists combos. rewrite simulateTyping_unfold, trace_bind, result_bind.
  fold matches. rewrite operations_app, List.filter_app, Hc.
  assert (Hrem : List.filter is_press
                   (operations match result (range_matches text matches 0) with
                               | Some a => trace (type_remainder text a)
                               | None => []
                               end) = []).
  { destruct (result _) as [lastIndex |]; [| reflexivity].
    unfold type_remainder. destruct (lastIndex <? len text); [| reflexivity].
    now destruct (slice_from text lastIndex). }
  rewrite Hrem, app_nil_r. split; [reflexivity |]. split; [exact Hall |].
  intros H. apply Hres. destruct (result (range_matches text matches 0)); [discriminate |].
  discriminate H.
Qed.

Lemma every_group_is_pressed_once_witness :
  exists combos,
    List.filter is_press (operations (trace (simulateTyping "ls{Enter}")))
      = presses combos
    /\ length combos = 1%nat.
Proof.
  destruct (every_group_is_pressed_once "ls{Enter}") as (combos & H & _ & Hall).
  exists combos. split; [exact H | exact (Hall eq_refl)].
Defined.

(** X8. Every literal that [simulateTyping] types is a piece of the
    directive of one byte at least, outside the combo groups: it ends at
    or before the start of every match after it, and it starts after the
    byte that follows the end of every match before it.  So no byte of a
    combo group is ever typed, and no empty string. *)
Theorem typed_literals_lie_between_groups (text str : string) :
  TypeStr str ∈ trace (simulateTyping text) ->
  exists a b,
    slice text a b = Some str /\ 0 <= a < b
    /\ Forall (fun m => b <= m !!! 0%nat \/ m !!! 1%nat < a)
         (FindAllStringSubmatchIndex keyTapPattern text).
Proof.
  intros H. set (matches := FindAllStringSubmatchIndex keyTapPattern text) in *.
  destruct (range_matches_typed text matches 0 (-1)
              (allMatches_in_order text _ 0 (-1) ltac:(lia)) ltac:(lia)) as (Ht & Hr).
  change (-1 + 1) with 0 in Ht, Hr.
  rewrite simulateTyping_unfold, trace_bind in H. fold matches in H.
  apply elem_of_app in H as [H | H].
  - rewrite Forall_forall in Ht. exact (Ht _ H).
  - destruct (result (range_matches text matches 0)) as [x |] eqn:Ex;
      [| now apply elem_of_nil in H].
    destruct (Hr x eq_refl) as (Hx & Hall).
    unfold type_remainder in H. destruct (Z.ltb_spec x (len text)) as [Hlt |];
      [| now apply elem_of_nil in H].
    unfold slice_from in H. destruct (slice text x (len text)) as [r |] eqn:Er;
      [| now apply elem_of_nil in H].
    cbn in H. apply elem_of_cons in H as [H | H]; [discriminate |].
    apply elem_of_cons in H as [H | H]; [discriminate |].
    apply list_elem_of_singleton in H. injection H as ->.
    exists x, (len text). split; [exact Er |]. split; [lia |].
    eapply Forall_impl; [exact Hall |]. intros m. cbv beta. auto.
Qed.

Lemma typed_literals_lie_between_groups_witness :
  exists a b,
    slice "{Command}+t abc" a b = Some "bc" /\ 0 <= a < b
    /\ Forall (fun m => b <= m !!! 0%nat \/ m !!! 1%nat < a)
         (FindAllStringSubmatchIndex keyTapPattern "{Command}+t abc").
Proof.
  apply typed_literals_lie_between_groups.
  apply list_elem_of_In. vm_compute. auto 10.
Defined.

(** X9. Whatever the directive, [robotgo.KeyTap] is called in two ways
    only: as the tap of shift without modifiers, or as the press of a combo
    group, with modifiers among the names command, shift, alt, ctrl, tab
    and enter of the table, and a key that is a captured run of letters and
    digits 1 to 9, a name of the table, or the empty string.  A name that
    the table does not know never reaches the injector. *)
Theorem injector_receives_table_names (text key : string) (modifiers : list string) :
  KeyTap key modifiers ∈ trace (simulateTyping text) ->
  key = "shift" /\ modifiers = []
  \/ pressed_key key /\ Forall (fun x => x ∈ robotgo_names) modifiers.
Proof.
  intros H.
  assert (Hall : Forall tap_ok (trace (simulateTyping text))).
  { rewrite simulateTyping_unfold, trace_bind. apply Forall_app. split.
    - apply (range_matches_taps text _ 0). apply allMatches_in_order. lia.
    - destruct (result _) as [lastIndex |]; [| constructor].
      unfold type_remainder. destruct (lastIndex <? len text); [| constructor].
      destruct (slice_from text lastIndex); repeat constructor. }
  rewrite Forall_forall in Hall. exact (Hall _ H).
Qed.

Lemma injector_receives_table_names_witness :
  "t" = "shift" /\ ["command"] = []
  \/ pressed_key "t" /\ Forall (fun x => x ∈ robotgo_names) ["command"].
Proof.
  apply (injector_receives_table_names "{Command}+t").
  apply list_elem_of_In. vm_compute. auto 10.
Defined.

Lemma length_known_logs (names : list string) :
  (length (known names) + length (unknown_logs names) = length names)%nat.
Proof.
  induction names as [|name names IH]; [reflexivity |].
  unfold known in *. unfold omap in *. simpl.
  destruct (modifierMap !! name); simpl; lia.
Qed.

(** X10. [extractModifiersAndKeyFromMatch] accounts for the names
    between the braces, the pieces of the group between its plus signs.
    With a captured key, every name is either passed on as a modifier or
    logged as unknown: the modifiers and the log lines together are as
    many as the names.  Without one, this holds for the names before the
    last; the last name is looked up for the key, and when the table does
    not know it the key is the empty string and nothing is logged.  No key
    operation is performed by the extraction itself. *)
Theorem every_name_is_passed_or_logged (text group : string) (m0 m1 m2 m3 m4 m5 : Z) :
  slice text m2 m3 = Some group ->
  let names := Split group "+" in
  (forall key,
      m4 <> -1 -> slice text m4 m5 = Some key ->
      exists logs modifiers,
        extractModifiersAndKeyFromMatch text [m0; m1; m2; m3; m4; m5]
          = Run logs (Some (modifiers, key))
        /\ (length modifiers + length logs = length names)%nat
        /\ operations logs = [])
  /\ (m4 = -1 ->
      exists logs modifiers key,
        extractModifiersAndKeyFromMatch text [m0; m1; m2; m3; m4; m5]
          = Run logs (Some (modifiers, key))
        /\ (length modifiers + length logs + 1 = length names)%nat
        /\ key = default "" (modifierMap !! default "" (last names))
        /\ operations logs = []).
Proof.
  intros Hgroup names. split.
  - intros key Hm4 Hkey.
    exists (unknown_logs names), (known names).
    split; [apply extract_with_key; assumption |].
    split; [apply length_known_logs | apply operations_unknown_logs].
  - intros ->.
    destruct (exists_last (Split_nonempty group "+")) as (init & name & E).
    fold names in E. exists (unknown_logs init), (known init), (default "" (modifierMap !! name)).
    split; [| split; [| split]].
    + apply extract_without_key.
      * rewrite <- E. unfold names. now rewrite Join_Split.
      * rewrite <- E. apply Split_pieces.
    + rewrite E, length_app. cbn [length]. pose proof (length_known_logs init). lia.
    + now rewrite E, last_snoc.
    + apply operations_unknown_logs.
Qed.

Lemma every_name_is_passed_or_logged_witness :
  exists logs modifiers,
    extractModifiersAndKeyFromMatch "{Foo+Command+Bar}+t" [0; 19; 1; 16; 18; 19]
      = Run logs (Some (modifiers, "t"))
    /\ (length modifiers + length logs = 3)%nat
    /\ operations logs = [].
Proof.
  exact (proj1 (every_name_is_passed_or_logged "{Foo+Command+Bar}+t" "Foo+Command+Bar"
                  0 19 1 16 18 19 eq_refl)
           "t" ltac:(discriminate) eq_refl).
Defined.

End WholeDirective.

(** ** The effects of a dispatch *)

Section Dispatch.
Import SynthFacts DispatchFacts.

(** [nExamples] is overwritten by each entry for the program: its final
    value is the number of examples of the last one. *)
Lemma range_Programs_count (programs : list ProgramFewShotExamples) (activeApp : string)
    (messages : list ChatMessage) (nExamples : Z) :
  snd (range_Programs programs activeApp messages nExamples)
    = from_option (fun prog => Z.of_nat (length (Examples prog))) nExamples
        (entry_for programs activeApp).
Proof.
  unfold range_Programs, entry_for.
  revert messages nExamples;
    induction programs as [|prog rest IH]; intros messages nExamples; [reflexivity |].
  simpl foldl. rewrite filter_cons.
  destruct (String.eqb_spec (Program prog) activeApp) as [E | E]; simpl negb; cbv iota.
  - rewrite decide_True by exact E. rewrite IH, last_cons.
    now destruct (last _).
  - rewrite decide_False by exact E. apply IH.
Qed.

(** Everything [handleText] does, in order. *)
Lemma handleText_unfold (cfg : RightHandConfig) (activeApp : string)
    (reply : list ChatMessage -> string + error) (text : string) :
  let messages := SystemChatMessage (Sprintf systemPrompt [activeApp])
                    :: few_shot (examples_for (Programs cfg) activeApp)
                    ++ [HumanChatMessage text] in
  let n := announced (Programs cfg) activeApp in
  handleText cfg activeApp reply text =
    Run (Printf "📱 Active app: %s
" [Str activeApp]
           :: (if 0 <? n
               then [Printf "ℹ️  Using %d custom commands for %s
" [Int n; Str activeApp]]
               else [])
           ++ Call messages
           :: match reply messages with
              | inr err => [LogPrintf "❌ Error processing command: %v" [Err err]]
              | inl llmText =>
                  Printf "🤖 Executing: %s
" [Str llmText] :: trace (simulateTyping llmText)
              end)
        (match reply messages with
         | inr _ => Some tt
         | inl llmText => result (simulateTyping llmText)
         end).
Proof.
  intros messages n. unfold handleText.
  set (sys := SystemChatMessage (Sprintf systemPrompt [activeApp])) in *.
  pose proof (range_Programs_closed (Programs cfg) activeApp [sys] 0) as Hm.
  pose proof (range_Programs_count (Programs cfg) activeApp [sys] 0) as Hn.
  clearbody sys.
  destruct (range_Programs _ _ _ _) as [messages' nExamples]. simpl in Hm, Hn.
  fold (announced (Programs cfg) activeApp) in Hn. fold n in Hn. subst messages' nExamples.
  change ((sys :: few_shot (examples_for (Programs cfg) activeApp))
            ++ [HumanChatMessage text]) with messages.
  clearbody messages n.
  destruct (0 <? n), (reply messages) as [llmText | err]; apply run_eq;
    rewrite ?trace_bind, ?result_bind; cbn [trace result emit mret run_ret app];
    rewrite ?trace_bind, ?result_bind; cbn [trace result emit mret run_ret app];
    reflexivity.
Qed.

Lemma length_few_shot (examples : list FewShotExample) :
  length (few_shot examples) = (2 * length examples)%nat.
Proof.
  induction examples as [|e l IH]; [reflexivity |].
  change (few_shot (e :: l))
    with (HumanChatMessage (Input e) :: AIChatMessage (Output e) :: few_shot l).
  cbn [length]. lia.
Qed.

(** X11. What a dispatch types is what [simulateTyping] types on the
    reply of the language model, and it ends as [simulateTyping] does; the
    transcribed text and the configuration act through the reply only.
    When the call of the model fails, nothing is typed and no key is
    pressed: the error is logged and [handleText] returns normally. *)
Theorem dispatch_types_the_reply (cfg : RightHandConfig) (activeApp : string)
    (reply : list ChatMessage -> string + error) (text : string) :
  let messages := SystemChatMessage (Sprintf systemPrompt [activeApp])
                    :: few_shot (examples_for (Programs cfg) activeApp)
                    ++ [HumanChatMessage text] in
  let dispatch := handleText cfg activeApp reply text in
  match reply messages with
  | inl llmText =>
      operations (trace dispatch) = operations (trace (simulateTyping llmText))
      /\ result dispatch = result (simulateTyping llmText)
  | inr err =>
      operations (trace dispatch) = []
      /\ result dispatch = Some tt
      /\ last (trace dispatch) = Some (LogPrintf "❌ Error processing command: %v" [Err err])
  end.
Proof.
  intros messages dispatch. unfold dispatch.
  pose proof (handleText_unfold cfg activeApp reply text) as H. cbv zeta in H.
  fold messages in H. rewrite H. clear H. cbn [trace result].
  destruct (reply messages) as [llmText | err].
  - split; [| reflexivity]. cbn [operations].
    rewrite operations_app. now destruct (0 <? _).
  - split; [| split; [reflexivity |]].
    + cbn [operations]. rewrite operations_app. now destruct (0 <? _).
    + now destruct (0 <? _).
Qed.

(** X12. A dispatch prints the active application, then announces the
    custom commands, then calls the model.  The number announced is the
    number of examples of the last entry of the configuration for the
    program, and the announcement is left out when that number is zero;
    the messages sent hold the examples of every entry for the program.
    With one entry for the program the two numbers agree; with two, the
    number announced counts the second entry only. *)
Theorem announced_examples (cfg : RightHandConfig) (activeApp : string)
    (reply : list ChatMessage -> string + error) (text : string) :
  let n := announced (Programs cfg) activeApp in
  (exists messages rest,
      trace (handleText cfg activeApp reply text)
        = Printf "📱 Active app: %s
" [Str activeApp]
            :: (if 0 <? n
                then [Printf "ℹ️  Using %d custom commands for %s
" [Int n; Str activeApp]]
                else [])
            ++ Call messages :: rest
      /\ length messages
         = (2 + 2 * length (examples_for (Programs cfg) activeApp))%nat)
  /\ (forall prog,
        filter (fun prog => Program prog = activeApp) (Programs cfg) = [prog] ->
        n = Z.of_nat (length (examples_for (Programs cfg) activeApp)))
  /\ (forall prog prog' : ProgramFewShotExamples,
        Program prog = activeApp -> Program prog' = activeApp ->
        Programs cfg = [prog; prog'] ->
        n = Z.of_nat (length (Examples prog'))
        /\ length (examples_for (Programs cfg) activeApp)
           = (length (Examples prog) + length (Examples prog'))%nat).
Proof.
  intros n. split; [| split].
  - pose proof (handleText_unfold cfg activeApp reply text) as H. cbv zeta in H.
    rewrite H. cbn [trace]. do 2 eexists. split; [reflexivity |].
    cbn [length]. rewrite length_app, length_few_shot. cbn [length]. lia.
  - intros prog H. unfold n, announced, entry_for.
    rewrite examples_for_filter, H. cbn [last from_option flat_map].
    now rewrite app_nil_r.
  - intros prog prog' E E' H. unfold n, announced, entry_for.
    rewrite examples_for_filter, H, !filter_cons, !decide_True, filter_nil by assumption.
    cbn [last from_option flat_map]. now rewrite app_nil_r, length_app.
Qed.

Lemma announced_examples_witness :
  announced (Programs defaultConfig) "iTerm2"
    = Z.of_nat (length (examples_for (Programs defaultConfig) "iTerm2")).
Proof.
  refine (proj1 (proj2 (announced_examples defaultConfig "iTerm2" (fun _ => inl "") ""))
            {| Program := "iTerm2";
               Examples :=
                 [ {| Input := "change to my home directory"; Output := "cd ~" |};
                   {| Input := "new tab"; Output := "{Command}+t" |};
                   {| Input := "Interactively rebase the last 3 commits";
                      Output := "git rebase -i HEAD~3" |};
                   {| Input := "split horizontally"; Output := "{Command+Shift}+d" |} ] |}
            _).
  vm_compute. reflexivity.
Defined.

End Dispatch.

(** ** The listening loop over a session *)

Section Session.
Context {float32 : Type}.
Implicit Types (s : loop_state float32) (w : world float32).

Lemma log_error_other (format : string) (err : option error) (e : loop_event float32) :
  e ∈ log_error (float32 := float32) format err -> exists args, e = LoopLogPrintf format args.
Proof.
  unfold log_error. destruct err as [x |]; [| now intros H%elem_of_nil].
  intros H%list_elem_of_singleton. eauto.
Qed.

Ltac members :=
  repeat match goal with
  | H : _ ∈ _ ++ _ |- _ => apply elem_of_app in H as [H | H]
  | H : _ ∈ _ :: _ |- _ => apply elem_of_cons in H as [H | H]
  | H : _ ∈ [] |- _ => now apply elem_of_nil in H
  | H : _ ∈ log_error _ _ |- _ => apply log_error_other in H as [? H]
  | H : _ ∈ (if ?c then _ else _) |- _ => destruct c eqn:?
  | H : _ ∈ match ?c with Some _ => _ | None => _ end |- _ => destruct c eqn:?
  | H : @eq (loop_event _) _ _ |- _ => first [discriminate H | injection H as ->]
  end.

(** [select] picks a case that is ready, or the default case. *)
Lemma select_ready s w : select s w ∈ case_default :: ready s w.
Proof.
  unfold select. destruct (ready s w) as [|c cs]; [left |]. right.
  apply list_elem_of_In, nth_In, Nat.mod_upper_bound. discriminate.
Qed.

Lemma select_timeout s w :
  select s w = case_listeningTimeout ->
  exists d, listeningTimeout s = Some d /\ d <= now w.
Proof.
  intros H. pose proof (select_ready s w) as Hin. rewrite H in Hin. unfold ready in Hin.
  apply elem_of_cons in Hin as [Hin | Hin]; [discriminate |].
  apply elem_of_app in Hin as [Hin | Hin].
  { destruct (listeningToggle s); [apply list_elem_of_singleton in Hin; discriminate |].
    now apply elem_of_nil in Hin. }
  apply elem_of_app in Hin as [Hin | Hin].
  - destruct (listeningTimeout s) as [d |]; [| now apply elem_of_nil in Hin].
    destruct (Z.leb_spec d (now w)); [eauto | now apply elem_of_nil in Hin].
  - destruct (ctx_done w); [apply list_elem_of_singleton in Hin; discriminate |].
    now apply elem_of_nil in Hin.
Qed.

Lemma select_Done s w : select s w = case_Done -> ctx_done w = true.
Proof.
  intros H. pose proof (select_ready s w) as Hin. rewrite H in Hin. unfold ready in Hin.
  apply elem_of_cons in Hin as [Hin | Hin]; [discriminate |].
  apply elem_of_app in Hin as [Hin | Hin].
  { destruct (listeningToggle s); [apply list_elem_of_singleton in Hin; discriminate |].
    now apply elem_of_nil in Hin. }
  apply elem_of_app in Hin as [Hin | Hin].
  - destruct (listeningTimeout s) as [d |]; [| now apply elem_of_nil in Hin].
    destruct (d <=? now w); [apply list_elem_of_singleton in Hin; discriminate |].
    now apply elem_of_nil in Hin.
  - destruct (ctx_done w); [reflexivity | now apply elem_of_nil in Hin].
Qed.

(** While it listens, before the timer is due and without a signal, the
    loop collects: a chunk is appended unless its collection failed. *)
Lemma armed_collect (cfg : RightHandConfig) (d : Z) s w :
  armed d s -> no_signal w -> now w < d ->
  exists s', snd (loop_body cfg s w) = Continue s' /\ armed d s'
             /\ audioBuffer s' = audioBuffer s ++ collected w.
Proof.
  intros (Hl & Ht & Hg) (Hh & Hc) Hnow. unfold collected.
  destruct s as [l t b g], w as [nw hk cd ch st sp tr [buf err]]; simpl in *; subst.
  unfold loop_body, deliver_hotkey, select, ready; simpl.
  replace (d <=? nw) with false by (symmetry; apply Z.leb_gt; lia). simpl.
  destruct err as [e |]; simpl; eexists; (split; [reflexivity |]);
    (split; [now repeat split |]); simpl; now rewrite ?app_nil_r.
Qed.

Lemma armed_collect_run (cfg : RightHandConfig) (d : Z) s (ws : list (world float32)) :
  armed d s -> Forall no_signal ws -> Forall (fun w => now w < d) ws ->
  exists s', last (runMainLoop cfg s ws) = Some s' /\ armed d s'
             /\ audioBuffer s' = audioBuffer s ++ flat_map collected ws
             /\ length (runMainLoop cfg s ws) = S (length ws).
Proof.
  intros Hs Hsig. revert s Hs. induction Hsig as [|w ws Hw _ IH]; intros s Hs Hnow.
  - exists s. simpl. now rewrite app_nil_r.
  - inversion Hnow as [|? ? Hw' Hnow']; subst.
    destruct (armed_collect cfg d s w Hs Hw Hw') as (s1 & Hstep & Hs1 & Hb1).
    destruct (IH s1 Hs1 Hnow') as (s' & Hlast & Hs' & Hb & Hlen).
    exists s'. simpl runMainLoop. rewrite Hstep.
    split; [| split; [exact Hs' | split]].
    + rewrite last_cons, Hlast. reflexivity.
    + rewrite Hb, Hb1. simpl flat_map. now rewrite app_assoc.
    + simpl. now rewrite Hlen.
Qed.

(** X13. One iteration of the loop launches [handleText] in one case
    only: the toggle is received while listening, and the transcription of
    the buffer returns a text that is not empty, without an error; the
    text launched is that text.  A failed or an empty transcription, the
    timer, the cancellation and the collection of audio launch nothing. *)
Theorem handleText_launched_on_transcription (cfg : RightHandConfig) s w (text : string) :
  go_handleText text ∈ fst (loop_body cfg s w) <->
    select (deliver_hotkey s w) w = case_listeningToggle
    /\ listening s = true
    /\ Transcribe w (audioBuffer s) = (text, None)
    /\ text <> "".
Proof.
  unfold loop_body.
  destruct (deliver_hotkey_same s w) as (Hl & Hb & _).
  set (s1 := deliver_hotkey s w) in *. rewrite <- Hl, <- Hb. clearbody s1. clear Hl Hb.
  destruct (select s1 w).
  - destruct (listening s1) eqn:El; cbn [negb fst].
    + destruct (Transcribe w (audioBuffer s1)) as [text' err] eqn:Et. cbn [fst]. split.
      * intros H. members.
        match goal with E : negb (String.eqb ?t "") = true |- _ =>
          apply negb_true_iff, String.eqb_neq in E end.
        auto.
      * intros (_ & _ & [= -> ->] & Hne).
        apply String.eqb_neq in Hne. rewrite Hne. cbn [negb]. set_solver.
    + split; [intros H; members | intros (_ & H & _); discriminate].
  - split; [| intros (H & _); discriminate].
    destruct (listening s1); [destruct (listeningToggle s1) |]; cbn [fst];
      intros H; members.
  - split; [| intros (H & _); discriminate]. cbn [fst]. intros H; members.
  - split; [| intros (H & _); discriminate].
    destruct (listening s1); cbn [negb fst]; [| intros H; members].
    destruct (CollectAudioData w) as [buf [e |]]; cbn [fst]; intros H; members.
Qed.

(** X14. A session: listening starts on a toggle, the loop then runs
    before the timer is due and without a signal, and a second toggle
    arrives.  The first iteration announces the listening, starts the
    audio engine and logs its error, if any.  The buffer then holds the
    chunks collected during the session, in order, without those whose
    collection reported an error and without anything collected before the
    session.  The iteration of the second toggle does this and nothing
    else: it prints [Processing...], stops the engine and logs the error
    of that, if any; starts [wavutil.SaveWAV] on the buffer exactly when
    [DumpWAVFile] is set; passes the buffer to [app.wa.Transcribe]; and
    logs the error of the transcription, or prints the text and launches
    [handleText] on it when it is not empty.  The loop is Idle afterwards.
    This holds whether or not [app.wa.Start] and [app.wa.Stop] report an
    error. *)
Theorem session_audio_is_transcribed (cfg : RightHandConfig) s w0 (ws : list (world float32)) w1 :
  listening s = false ->
  select (deliver_hotkey s w0) w0 = case_listeningToggle ->
  Forall no_signal ws ->
  Forall (fun w => now w < now w0 + DefaultTimeout) ws ->
  hotkey w1 = true -> ctx_done w1 = false -> now w1 < now w0 + DefaultTimeout ->
  let samples := flat_map collected ws in
  loop_body cfg s w0
    = ([Println "🎤 Listening..."; wa_Start]
         ++ match Start w0 with
            | Some e => [LoopLogPrintf "Error starting audio: %v" [Err e]]
            | None => []
            end,
       Continue (LoopState true (Some (now w0 + DefaultTimeout)) [] false))
  /\ exists s',
       last (runMainLoop cfg s (w0 :: ws)) = Some s'
       /\ audioBuffer s' = samples
       /\ loop_body cfg s' w1
          = ([Println "Processing..."; wa_Stop]
               ++ match Stop w1 with
                  | Some e => [LoopLogPrintf "Error stopping audio: %v" [Err e]]
                  | None => []
                  end
               ++ (if DumpWAVFile cfg then [go_SaveWAV "output.wav" samples] else [])
               ++ [wa_Transcribe samples]
               ++ match Transcribe w1 samples with
                  | (_, Some e) => [LoopLogPrintf "Error transcribing: %v" [Err e]]
                  | (text, None) =>
                      if String.eqb text "" then []
                      else [LoopPrintf "💬 You said: %q
" [Str text]; go_handleText text]
                  end,
             Continue (LoopState false (Some (now w0 + DefaultTimeout)) samples false)).
Proof.
  intros Hidle Hselect Hsig Hearly Hh Hc Hnow samples.
  destruct (deliver_hotkey_same s w0) as (Hl & _ & _).
  assert (Hstep : loop_body cfg s w0
                  = ([Println "🎤 Listening..."; wa_Start]
                       ++ log_error "Error starting audio: %v" (Start w0),
                     Continue (LoopState true (Some (now w0 + DefaultTimeout)) [] false))).
  { unfold loop_body. cbv zeta. now rewrite Hselect, Hl, Hidle. }
  split; [exact Hstep |].
  assert (Harmed : armed (now w0 + DefaultTimeout)
                     (LoopState (float32 := float32) true
                        (Some (now w0 + DefaultTimeout)) [] false))
    by now repeat split.
  destruct (armed_collect_run cfg _ _ ws Harmed Hsig Hearly)
    as (s' & Hlast & (Hl' & Ht' & Hg') & Hb & Hlen).
  exists s'. simpl runMainLoop. rewrite Hstep. cbn [snd].
  split; [| split; [exact Hb |]].
  - rewrite last_cons, Hlast. reflexivity.
  - simpl in Hb. fold samples in Hb.
    destruct s' as [l t b g], w1 as [nw hk cd ch st sp tr col]; simpl in *; subst.
    unfold loop_body, deliver_hotkey, select, ready; simpl.
    replace (now w0 + DefaultTimeout <=? nw) with false by (symmetry; apply Z.leb_gt; lia).
    simpl. destruct (tr samples) as [text [e |]]; [reflexivity |].
    now destruct (String.eqb text "").
Qed.

(** X15. The send of the timer case and a toggle of the user.  The loop
    can block only in the timer case, while listening, when the channel
    already holds a toggle.  When the hotkey arrives in the iteration in
    which the timer is due, both cases are ready and the pick of the
    runtime decides: the timer case blocks for ever on its send, which no
    other goroutine receives; the toggle case ends the listening. *)
Theorem timer_races_with_hotkey (cfg : RightHandConfig) :
  (forall s w,
      snd (loop_body cfg s w) = Blocked ->
      listening s = true
      /\ (listeningToggle s = true \/ hotkey w = true)
      /\ exists d, listeningTimeout s = Some d /\ d <= now w)
  /\ (forall (d : Z) s w,
        armed d s -> hotkey w = true -> ctx_done w = false -> d <= now w ->
        (choice w mod 2 = 1)%nat ->
        loop_body cfg s w = ([], Blocked))
  /\ (forall (d : Z) s w,
        armed d s -> hotkey w = true -> ctx_done w = false -> d <= now w ->
        (choice w mod 2 = 0)%nat ->
        exists s', snd (loop_body cfg s w) = Continue s' /\ listening s' = false).
Proof.
  split; [| split].
  - intros s w. unfold loop_body.
    destruct (deliver_hotkey_same s w) as (Hl & _ & Ht).
    assert (Hg : listeningToggle (deliver_hotkey s w) = true ->
                 listeningToggle s = true \/ hotkey w = true).
    { unfold deliver_hotkey. destruct (hotkey w); [auto |]. simpl. auto. }
    assert (Hsel : select (deliver_hotkey s w) w = case_listeningTimeout ->
                   exists d, listeningTimeout s = Some d /\ d <= now w).
    { rewrite <- Ht. apply select_timeout. }
    set (s1 := deliver_hotkey s w) in *. rewrite <- Hl.
    destruct (select s1 w).
    + destruct (listening s1); simpl; [| discriminate].
      destruct (Transcribe w (audioBuffer s1)). discriminate.
    + destruct (listening s1); [| discriminate].
      destruct (listeningToggle s1); [| discriminate]. auto.
    + discriminate.
    + destruct (listening s1); simpl; [| discriminate].
      destruct (CollectAudioData w) as [buf [e |]]; discriminate.
  - intros d s w (Hl & Ht & Hg) Hh Hc Hnow Hchoice.
    destruct s as [l t b g], w as [nw hk cd ch st sp tr col]; simpl in *; subst.
    unfold loop_body, deliver_hotkey, select, ready; simpl.
    replace (d <=? nw) with true by (symmetry; apply Z.leb_le; lia). simpl.
    now rewrite Hchoice.
  - intros d s w (Hl & Ht & Hg) Hh Hc Hnow Hchoice.
    destruct s as [l t b g], w as [nw hk cd ch st sp tr col]; simpl in *; subst.
    unfold loop_body, deliver_hotkey, select, ready; simpl.
    replace (d <=? nw) with true by (symmetry; apply Z.leb_le; lia). simpl.
    rewrite Hchoice. simpl. destruct (tr b) as [text err]. simpl. eauto.
Qed.

(** X16. [runMainLoop] returns only when the context is cancelled, and
    then it only prints [done]: while listening too, the audio engine is
    not stopped and the buffer is neither transcribed nor saved.  When the
    context is cancelled and neither a toggle nor the timer is ready, the
    loop returns in that iteration. *)
Theorem loop_returns_only_on_cancellation (cfg : RightHandConfig) s w :
  (snd (loop_body cfg s w) = Return ->
     ctx_done w = true /\ fst (loop_body cfg s w) = [Println "done"])
  /\ (ctx_done w = true -> hotkey w = false -> listeningToggle s = false ->
      match listeningTimeout s with Some d => now w < d | None => True end ->
      loop_body cfg s w = ([Println "done"], Return)).
Proof.
  split.
  - unfold loop_body. set (s1 := deliver_hotkey s w).
    assert (Hsel : select s1 w = case_Done -> ctx_done w = true)
      by apply select_Done.
    destruct (select s1 w).
    + destruct (negb (listening s1)); simpl; [discriminate |].
      destruct (Transcribe w (audioBuffer s1)). discriminate.
    + destruct (listening s1); [destruct (listeningToggle s1) |]; discriminate.
    + auto.
    + destruct (negb (listening s1)); simpl; [discriminate |].
      destruct (CollectAudioData w) as [buf [e |]]; discriminate.
  - intros Hc Hh Hg Ht.
    destruct s as [l t b g], w as [nw hk cd ch st sp tr col]; simpl in *; subst.
    unfold loop_body, deliver_hotkey, select, ready; simpl.
    destruct t as [d |]; [| reflexivity].
    now replace (d <=? nw) with false by (symmetry; apply Z.leb_gt; lia).
Qed.

End Session.

Lemma handleText_launched_on_transcription_witness :
  go_handleText "new tab"
    ∈ fst (loop_body defaultConfig (LoopState true (Some DefaultTimeout) [1] false)
             (world_of 1 true false 0 "new tab")).
Proof.
  apply (proj2 (handleText_launched_on_transcription defaultConfig
                  (LoopState true (Some DefaultTimeout) [1] false)
                  (world_of 1 true false 0 "new tab") "new tab")).
  repeat split. discriminate.
Defined.

Lemma session_audio_is_transcribed_witness :
  exists s',
    last (runMainLoop defaultConfig (LoopState false None [7] false)
            [world_of 0 true false 0 ""; world_of 1 false false 0 "";
             world_of 2 false false 0 ""]) = Some s'
    /\ audioBuffer s' = [1; 2]
    /\ loop_body defaultConfig s' (world_of 3 true false 0 "new tab")
       = ([Println "Processing..."; wa_Stop; wa_Transcribe [1; 2];
           LoopPrintf "💬 You said: %q
" [Str "new tab"]; go_handleText "new tab"],
          Continue (LoopState false (Some (30 * Second)) [1; 2] false)).
Proof.
  destruct (session_audio_is_transcribed defaultConfig (LoopState false None [7] false)
              (world_of 0 true false 0 "")
              [world_of 1 false false 0 ""; world_of 2 false false 0 ""]
              (world_of 3 true false 0 "new tab")
              eq_refl eq_refl
              ltac:(repeat constructor) ltac:(repeat constructor)
              eq_refl eq_refl eq_refl)
    as (_ & s' & Hlast & Hbuffer & Hstep).
  exists s'. split; [exact Hlast |]. split; [exact Hbuffer |]. exact Hstep.
Defined.

Lemma timer_races_with_hotkey_witness :
  loop_body defaultConfig (LoopState true (Some DefaultTimeout) [1] false)
    (world_of 30 true false 1 "") = ([], Blocked).
Proof.
  refine (proj1 (proj2 (timer_races_with_hotkey defaultConfig)) DefaultTimeout
            (LoopState true (Some DefaultTimeout) [1] false) (world_of 30 true false 1 "")
            _ eq_refl eq_refl _ eq_refl).
  - repeat split.
  - vm_compute. discriminate.
Defined.

Lemma loop_returns_only_on_cancellation_witness :
  loop_body defaultConfig (LoopState true (Some DefaultTimeout) [1] false)
    (world_of 5 false true 0 "") = ([Println "done"], Return).
Proof.
  refine (proj2 (loop_returns_only_on_cancellation defaultConfig
                   (LoopState true (Some DefaultTimeout) [1] false)
                   (world_of 5 false true 0 ""))
            eq_refl eq_refl eq_refl _).
  reflexivity.
Defined.

(** ** Global key events *)

Section KeyEvents.

(** The test of one bit by a mask. *)
Lemma land_bit (x : Z) (n : Z) :
  0 <= n -> (Z.land x (Z.shiftl 1 n) =? 0) = negb (Z.testbit x n).
Proof.
  intros Hn. rewrite Z.shiftl_1_l.
  destruct (Z.testbit x n) eqn:E; simpl.
  - apply Z.eqb_neq. intros H. apply (f_equal (fun y => Z.testbit y n)) in H.
    rewrite Z.land_spec, E, Z.pow2_bits_true, Z.bits_0 in H by lia. discriminate.
  - apply Z.eqb_eq. apply Z.bits_inj'. intros i Hi.
    rewrite Z.land_spec, Z.bits_0. destruct (Z.eq_dec i n) as [-> | Hne].
    + now rewrite E.
    + rewrite Z.pow2_bits_false by lia. apply andb_false_r.
Qed.

Lemma manageListeningState_toggle (e : NSEvent) :
  manageListeningState e
    = if (keyCode e =? 59) && Z.testbit (modifierFlags e) 20
         && negb (Z.testbit (modifierFlags e) 0)
      then [tt] else [].
Proof.
  unfold manageListeningState, NSEventModifierFlagCommand, VKControl.
  rewrite (land_bit _ 20) by lia. change 1 with (Z.shiftl 1 0) at 1.
  rewrite (land_bit _ 0) by lia. now rewrite !negb_involutive.
Qed.

(** X17. [handleEvents] sends one toggle for each event that reports a
    change of modifier keys on the control key while the command flag is
    set and bit 0 of the flags is clear, and nothing for any other event:
    events of another type, other key codes (so the command and option
    keys), a clear command flag, or bit 0 set. *)
Theorem handleEvents_toggles (events : list NSEvent) :
  handleEvents events = replicate (length (List.filter is_toggle events)) tt.
Proof.
  induction events as [|e events IH]; [reflexivity |].
  cbn [handleEvents List.filter]. rewrite IH, manageListeningState_toggle.
  unfold is_toggle, NSEventTypeFlagsChanged.
  destruct (type e =? 12); [| reflexivity]. cbn [negb andb].
  now destruct (_ && _ && _).
Qed.

End KeyEvents.

(** ** The log filter *)

Section LogFilter.
Import GoString Log.

Lemma HasPrefix_spec (s prefix : string) :
  HasPrefix s prefix = true <-> exists b, s = prefix +:+ b.
Proof.
  revert s; induction prefix as [|c prefix IH]; intros s.
  - simpl. split; [eauto | reflexivity].
  - destruct s as [|a s]; simpl.
    + split; [discriminate | intros (b & H); discriminate].
    + rewrite andb_true_iff, IH. split.
      * intros (Ha & b & ->). apply Ascii.eqb_eq in Ha as ->. eauto.
      * intros (b & [= -> ->]). split; [apply Ascii.eqb_refl | eauto].
Qed.

(** [strings.Contains] finds the occurrences of a string. *)
Lemma Contains_spec (s substr : string) :
  Contains s substr = true <-> within substr s.
Proof.
  unfold within. induction s as [|c s IH].
  - simpl. rewrite orb_false_r, HasPrefix_spec. split.
    + intros (b & ->). exists "", b. reflexivity.
    + intros ([|? a] & b & H); [eauto | discriminate].
  - cbn [Contains]. rewrite orb_true_iff, IH, HasPrefix_spec. split.
    + intros [(b & ->) | (a & b & ->)]; [exists "", b | exists (String c a), b]; reflexivity.
    + intros ([|c' a] & b & H); [left; eauto |].
      injection H as -> ->. right. eauto.
Qed.

Lemma newApp_filter_spec (p : string) :
  newApp_filter p = true <-> exists marker, marker ∈ markers /\ within marker p.
Proof.
  unfold newApp_filter, markers. cbv zeta. rewrite !orb_true_iff, !Contains_spec. split.
  - intros [[[[H | H] | H] | H] | H]; eexists; (split; [| exact H]); set_solver.
  - intros (marker & Hin & H).
    repeat (apply elem_of_cons in Hin as [-> | Hin]; [tauto |]).
    now apply elem_of_nil in Hin.
Qed.

Lemma written_filter (w : filterWriter) (ps : list string) :
  written w ps = List.filter (fun p => negb (Log.filter w p)) ps.
Proof.
  unfold written. induction ps as [|p ps IH]; [reflexivity |].
  cbn [flat_map List.filter]. rewrite IH. unfold Write.
  now destruct (Log.filter w p).
Qed.

(** X18. Behind the filter that [newApp] installs, the chunks that
    reach the log file are the chunks written that contain none of the
    words whisper, warning:, note:, error: and ld:, in the order written.
    A chunk that contains one of them anywhere is dropped, and [Write]
    still reports all its bytes written and no error; any other chunk is
    handed to the file as it is, and what the file returns is returned. *)
Theorem filterWriter_drops_marked_lines (out : string -> Z * option error) (ps : list string) :
  let w := {| Log.out := out; Log.filter := newApp_filter |} in
  written w ps
    = List.filter (fun p => negb (newApp_filter p)) ps
  /\ (forall p marker, p ∈ written w ps -> marker ∈ markers -> ~ within marker p)
  /\ (forall p marker,
        marker ∈ markers -> within marker p -> Write w p = ([], (len p, None)))
  /\ (forall p, (forall marker, marker ∈ markers -> ~ within marker p) ->
        Write w p = ([p], out p)).
Proof.
  intros w.
  assert (Hwritten : written w ps = List.filter (fun p => negb (newApp_filter p)) ps).
  { apply written_filter. }
  split; [exact Hwritten |]. split; [| split].
  - intros p marker Hp Hm Hin. rewrite Hwritten in Hp.
    apply list_elem_of_In, filter_In in Hp as (_ & Hp).
    apply negb_true_iff in Hp.
    assert (newApp_filter p = true) by (apply newApp_filter_spec; eauto). congruence.
  - intros p marker Hm Hin. unfold Write. cbn [Log.filter w].
    assert (newApp_filter p = true) as -> by (apply newApp_filter_spec; eauto).
    reflexivity.
  - intros p Hp. unfold Write. cbn [Log.filter Log.out w].
    destruct (newApp_filter p) eqn:E; [| reflexivity].
    apply newApp_filter_spec in E as (marker & Hm & Hin). now destruct (Hp marker Hm).
Qed.

Lemma filterWriter_drops_marked_lines_witness :
  Write {| Log.out := fun p => (len p, None); Log.filter := newApp_filter |}
        "Error transcribing: whisper failed"
    = ([], (34, None)).
Proof.
  refine (proj1 (proj2 (proj2 (filterWriter_drops_marked_lines
                                 (fun p => (len p, None)) [])))
            "Error transcribing: whisper failed" "whisper" _ _).
  - apply list_elem_of_In. vm_compute. auto.
  - exists "Error transcribing: ", " failed". reflexivity.
Defined.

End LogFilter.

(** ** The creation of the application *)

Section NewApp.
Import Startup.



End NewApp.


(** ** Loading the configuration *)

Section ConfigFile.
Import Config.
Context {File : Type}.
Implicit Types (fs : Files File).

(** X20. [loadConfig] returns the default configuration whenever it
    returns an error.  When the configuration file does not exist it
    returns the default configuration in every case, and tries to write
    it: the directory is created when [os.Stat] reports it missing, the
    file is created, and the default configuration is encoded into it;
    when the file cannot be created nothing is encoded and the error of
    [os.Create] is returned.  In every other case [loadConfig] changes
    nothing in the file system. *)
Theorem loadConfig_falls_back_to_default fs :
  let path := configPath fs in
  let mkdir := if Stat_IsNotExist fs (Dir fs path) then [os_MkdirAll (Dir fs path) 493]
               else [] in
  (forall events config err,
      loadConfig fs = (events, (config, Some err)) -> config = defaultConfig)
  /\ (forall err f,
        Open fs path = NotExist err -> Create fs path = inl f ->
        loadConfig fs
          = (mkdir ++ [os_Create path; yaml_Encode f defaultConfig; f_Close f],
             (defaultConfig, Encode fs f defaultConfig)))
  /\ (forall err err',
        Open fs path = NotExist err -> Create fs path = inr err' ->
        loadConfig fs = (mkdir ++ [os_Create path], (defaultConfig, Some err')))
  /\ ((forall err, Open fs path <> NotExist err) -> fst (loadConfig fs) = []).
Proof.
  intros path mkdir. unfold loadConfig, loadYaml, saveYaml. fold path.
  split; [| split; [| split]].
  - intros events config err.
    destruct (Open fs path) as [f | e | e].
    + destruct (Decode fs (Some f) zeroConfig) as [c [e |]]; congruence.
    + destruct (Create fs path) as [f | e'];
        [destruct (Encode fs f defaultConfig) |]; congruence.
    + destruct (Decode fs None zeroConfig) as [c [e' |]]; congruence.
  - intros err f -> ->. fold mkdir. now destruct (Encode fs f defaultConfig).
  - intros err err' -> ->. reflexivity.
  - intros H. destruct (Open fs path) as [f | e | e].
    + now destruct (Decode fs (Some f) zeroConfig) as [c [e |]].
    + now destruct (H e).
    + now destruct (Decode fs None zeroConfig) as [c [e' |]].
Qed.

End ConfigFile.

Lemma loadConfig_falls_back_to_default_witness :
  Config.loadConfig (no_config_file false)
    = ([Config.os_MkdirAll "/home/u/.config/righthand" 493;
        Config.os_Create "/home/u/.config/righthand/config.yaml"],
       (defaultConfig, Some "permission denied")).
Proof.
  exact (proj1 (proj2 (proj2 (loadConfig_falls_back_to_default (no_config_file false))))
           "no such file or directory" "permission denied" eq_refl eq_refl).
Defined.


(** ** The entry point *)

Section EntryPoint.
Context {File : Type}.

(** X21. [main] performs the file operations of [loadConfig], reports
    the error of [loadConfig] on standard error when there is one, and
    then, in either case, creates the application with the configuration
    that [loadConfig] returned, in which [DumpWAVFile] is replaced by the
    flag [-dump-wav]: the value of the configuration file is never used.
    The load error is not fatal: after its report the application is
    created with the default model names and programs.  When [newApp]
    fails, [main] reports it and exits with status 1; otherwise it runs
    the application.  These are all the effects of [main]. *)
Theorem main_applies_the_flag (fs : Config.Files File) (flagDumpWAVFile : bool)
    (newApp : RightHandConfig -> option error) :
  let file_events := fst (Config.loadConfig fs) in
  let loaded := fst (snd (Config.loadConfig fs)) in
  let load_error := snd (snd (Config.loadConfig fs)) in
  let cfg := {| LLMModel := LLMModel loaded;
                WhisperModel := WhisperModel loaded;
                Programs := Programs loaded;
                DumpWAVFile := flagDumpWAVFile |} in
  main fs flagDumpWAVFile newApp
    = map on_files file_events
        ++ match load_error with
           | Some err => [Fprintf_Stderr "error loading config: %v
" [Err err]]
           | None => []
           end
        ++ call_newApp cfg
        :: match newApp cfg with
           | Some err =>
               [Fprintln_Stderr [Str "error initializing app:"; Err err]; os_Exit 1]
           | None => [call_run]
           end
  /\ (forall err,
        load_error = Some err ->
        cfg = {| LLMModel := "gpt-4";
                 WhisperModel := "base.en";
                 Programs := Programs defaultConfig;
                 DumpWAVFile := flagDumpWAVFile |}
        /\ exists before after,
             main fs flagDumpWAVFile newApp
               = before
                   ++ Fprintf_Stderr "error loading config: %v
" [Err err]
                   :: call_newApp cfg :: after).
Proof.
  intros file_events loaded load_error cfg.
  assert (Hmain : main fs flagDumpWAVFile newApp
    = map on_files file_events
        ++ match load_error with
           | Some err => [Fprintf_Stderr "error loading config: %v
" [Err err]]
           | None => []
           end
        ++ call_newApp cfg
        :: match newApp cfg with
           | Some err =>
               [Fprintln_Stderr [Str "error initializing app:"; Err err]; os_Exit 1]
           | None => [call_run]
           end).
  { unfold main. subst cfg loaded load_error file_events.
    now destruct (Config.loadConfig fs) as [events [c err]]. }
  split; [exact Hmain |].
  intros err Herr. split.
  - subst cfg loaded load_error.
    assert (fst (snd (Config.loadConfig fs)) = defaultConfig) as ->; [| reflexivity].
    unfold Config.loadConfig in *.
    destruct (Config.loadYaml fs (Config.configPath fs) Config.zeroConfig)
      as [events [c [e |]]]; [reflexivity | discriminate Herr].
  - rewrite Hmain, Herr. eexists _, _. reflexivity.
Qed.

End EntryPoint.

Lemma main_applies_the_flag_witness :
  main (no_config_file false) true (fun _ => None)
    = [on_files (Config.os_MkdirAll "/home/u/.config/righthand" 493);
       on_files (Config.os_Create "/home/u/.config/righthand/config.yaml");
       Fprintf_Stderr "error loading config: %v
" [Err "permission denied"];
       call_newApp {| LLMModel := "gpt-4";
                      WhisperModel := "base.en";
                      Programs := Programs defaultConfig;
                      DumpWAVFile := true |};
       call_run]
  /\ {| LLMModel := LLMModel (fst (snd (Config.loadConfig (no_config_file false))));
        WhisperModel := WhisperModel (fst (snd (Config.loadConfig (no_config_file false))));
        Programs := Programs (fst (snd (Config.loadConfig (no_config_file false))));
        DumpWAVFile := true |}
     = {| LLMModel := "gpt-4";
          WhisperModel := "base.en";
          Programs := Programs defaultConfig;
          DumpWAVFile := true |}.
Proof.
  pose proof (main_applies_the_flag (no_config_file false) true (fun _ => None))
    as (Hmain & Hload).
  split.
  - rewrite Hmain. reflexivity.
  - exact (proj1 (Hload "permission denied" eq_refl)).
Defined.
